(** * DAO knowledge graph: storage, graph builder and query engine

    A shallow embedding of [core/storage.py], [core/graph_builder.py] and
    [core/query_engine.py], followed by the properties of the build step,
    of the adjacency index, of path search and of join synthesis.

    Conventions of the embedding:
    - Python [str] is [string]; [str.lower] is modelled on the ASCII range.
    - Python [int] is [Z]; a [float] (only carried, never computed with) is
      held as its [repr] text, which is what [json.dumps] writes.
    - a [dict] is a [gmap], a [set] a [gset]; the rows of a SQLite table are a
      list in row order, the primary key being the [store_wf] invariant.
    - [add_edge] and [add_edges] are the SQL statements of the two methods;
      the range check that [sqlite3] makes on the integer column [weight]
      before it runs them is in [try_add_edge] and [try_add_edges], and the
      edges of a build, which all weigh 1, pass it ([build_edges_fit]).
    - a Python exception is a [Raise] outcome, and a [while] loop is run on a
      fuel that is proved sufficient. *)

From Stdlib Require Import ZArith Ascii String List Sorted.
From stdpp Require Import gmap strings list fin_maps pretty.

Local Open Scope string_scope.
Local Open Scope Z_scope.
Local Open Scope list_scope.

(** ** Python values and outcomes *)

(** Attribute values of a node or an edge, as [json.dumps] writes them and
    [json.loads] reads them back. *)
Inductive value : Type :=
  | VNone
  | VBool (b : bool)
  | VInt (z : Z)
  | VFloat (repr : string)
  | VStr (s : string)
  | VStrs (l : list string).

(** Python truthiness, as used by [if v:]. *)
Definition truthy (v : value) : bool :=
  match v with
  | VNone => false
  | VBool b => b
  | VInt z => negb (Z.eqb z 0)
  | VFloat r => negb (String.eqb r "0.0" || String.eqb r "-0.0")
  | VStr s => negb (String.eqb s "")
  | VStrs l => match l with [] => false | _ => true end
  end.

Inductive exn : Type :=
  IndexError | KeyError | TypeError | AttributeError | OverflowError.

(** Outcome of a call: a value, a raised exception, or exhausted fuel. *)
Inductive result (A : Type) : Type :=
  | Ok (a : A)
  | Raise (e : exn)
  | OutOfFuel.
Arguments Ok {A} a.
Arguments Raise {A} e.
Arguments OutOfFuel {A}.

#[global] Instance result_bind : MBind result := λ A B k r,
  match r with
  | Ok a => k a
  | Raise e => Raise e
  | OutOfFuel => OutOfFuel
  end.

#[global] Instance result_ret : MRet result := @Ok.

(** ** Strings *)

Definition nl : string := String "010"%char EmptyString.

Definition lower_ascii (c : ascii) : ascii :=
  let n := nat_of_ascii c in
  if ((65 <=? n) && (n <=? 90))%nat then ascii_of_nat (n + 32) else c.

(** [s.lower()] *)
Fixpoint lower (s : string) : string :=
  match s with
  | EmptyString => EmptyString
  | String c s' => String (lower_ascii c) (lower s')
  end.

(** [s[:n]] *)
Fixpoint str_take (n : nat) (s : string) : string :=
  match n, s with
  | S n', String c s' => String c (str_take n' s')
  | _, _ => EmptyString
  end.

(** [sub in s] *)
Fixpoint contains (sub s : string) : bool :=
  String.prefix sub s ||
  match s with
  | EmptyString => false
  | String _ s' => contains sub s'
  end.

(** [s.endswith(suffix)] *)
Definition endswith (s suffix : string) : bool :=
  let n := String.length s in
  let k := String.length suffix in
  (k <=? n)%nat && String.eqb (String.substring (n - k) k s) suffix.

(** [s.split(".")[-1]]: the part of [s] after its last dot. *)
Fixpoint after_last_dot (s : string) : string :=
  match s with
  | EmptyString => EmptyString
  | String c s' =>
      if contains "." s' then after_last_dot s'
      else if Ascii.eqb c "."%char then s' else s
  end.

(** [sep.join(parts)] *)
Fixpoint join (sep : string) (parts : list string) : string :=
  match parts with
  | [] => ""
  | [p] => p
  | p :: rest => p +:+ sep +:+ join sep rest
  end.

(** ** Graph store ([core/storage.py]) *)

Record Node : Type := mkNode {
  node_id : string;
  node_type : string;
  node_data : gmap string value
}.

Record Edge : Type := mkEdge {
  edge_id : string;
  from_id : string;
  to_id : string;
  edge_type : string;
  weight : Z;
  edge_data : gmap string value
}.

(** The three SQLite tables, each as its rows in row order. *)
Record GraphStorage : Type := mkStorage {
  nodes : list Node;
  edges : list Edge;
  metadata : list (string * value)
}.

(** [id] and [key] are primary keys. *)
Definition store_wf (st : GraphStorage) : Prop :=
  NoDup (node_id <$> nodes st) ∧
  NoDup (edge_id <$> edges st) ∧
  NoDup (fst <$> metadata st).

Definition empty_storage : GraphStorage := mkStorage [] [] [].

Definition clear (st : GraphStorage) : GraphStorage := empty_storage.

(** [INSERT OR REPLACE]: the row with the same key is deleted and the new
    row is appended. *)
Definition add_node (n : Node) (st : GraphStorage) : GraphStorage :=
  mkStorage
    (filter (λ m, node_id m ≠ node_id n) (nodes st) ++ [n])
    (edges st) (metadata st).

Definition add_nodes (ns : list Node) (st : GraphStorage) : GraphStorage :=
  fold_left (λ s n, add_node n s) ns st.

Definition get_node (i : string) (st : GraphStorage) : option Node :=
  List.find (λ n, String.eqb (node_id n) i) (nodes st).

Definition get_nodes_by_type (t : string) (st : GraphStorage) : list Node :=
  List.filter (λ n, String.eqb (node_type n) t) (nodes st).

Definition get_all_nodes (st : GraphStorage) : list Node := nodes st.

Definition add_edge (e : Edge) (st : GraphStorage) : GraphStorage :=
  mkStorage (nodes st)
    (filter (λ f, edge_id f ≠ edge_id e) (edges st) ++ [e])
    (metadata st).

Definition add_edges (es : list Edge) (st : GraphStorage) : GraphStorage :=
  fold_left (λ s e, add_edge e s) es st.

(** The column [weight] is an [INTEGER]: [sqlite3] binds a Python int only
    when it fits a signed 64-bit word, and raises [OverflowError] before the
    statement runs when it does not. [add_edge] and [add_edges] above are
    the statements once their parameters are bound; [try_add_edge] and
    [try_add_edges] are the two methods as a caller meets them, for edges of
    any weight. [executemany] binds and runs the rows one at a time and
    stops at the first row that does not fit: the commit is then skipped,
    and the outcome [Raise] says nothing of the rows run before. *)
Definition fits_int64 (z : Z) : bool :=
  (- 2 ^ 63 <=? z) && (z <? 2 ^ 63).

Definition try_add_edge (e : Edge) (st : GraphStorage) : result GraphStorage :=
  if fits_int64 (weight e) then Ok (add_edge e st) else Raise OverflowError.

Fixpoint try_add_edges (es : list Edge) (st : GraphStorage)
  : result GraphStorage :=
  match es with
  | [] => Ok st
  | e :: es' => st' ← try_add_edge e st; try_add_edges es' st'
  end.

Definition get_edge (i : string) (st : GraphStorage) : option Edge :=
  List.find (λ e, String.eqb (edge_id e) i) (edges st).




Definition get_edges_by_type (t : string) (st : GraphStorage) : list Edge :=
  List.filter (λ e, String.eqb (edge_type e) t) (edges st).

Definition get_all_edges (st : GraphStorage) : list Edge := edges st.

Definition set_metadata (k : string) (v : value) (st : GraphStorage)
  : GraphStorage :=
  mkStorage (nodes st) (edges st)
    (filter (λ kv, fst kv ≠ k) (metadata st) ++ [(k, v)]).

Definition get_metadata (k : string) (st : GraphStorage) : option value :=
  snd <$> List.find (λ kv, String.eqb (fst kv) k) (metadata st).

(** The four row counts of [get_stats], each a [SELECT COUNT] by type. *)
Record Stats : Type := mkStats {
  stats_tables : nat;
  stats_columns : nat;
  stats_foreign_keys : nat;
  stats_column_relationships : nat
}.

Definition get_stats (st : GraphStorage) : Stats :=
  mkStats
    (length (List.filter (λ n, String.eqb (node_type n) "table") (nodes st)))
    (length (List.filter (λ n, String.eqb (node_type n) "column") (nodes st)))
    (length (List.filter (λ e, String.eqb (edge_type e) "fk") (edges st)))
    (length (List.filter (λ e, String.eqb (edge_type e) "fk_col") (edges st))).

(** ** Metadata snapshot ([core/extractor.py], the dataclasses only) *)

Record TableInfo : Type := mkTableInfo {
  t_schema : string;
  t_name : string;
  t_row_count : option Z;
  t_size_mb : option string
}.

Definition t_full_name (t : TableInfo) : string :=
  t_schema t +:+ "." +:+ t_name t.

Record ColumnInfo : Type := mkColumnInfo {
  c_table_schema : string;
  c_table_name : string;
  c_name : string;
  c_sql_type : string;
  c_is_nullable : bool;
  c_ordinal_position : Z;
  c_max_length : option Z;
  c_precision : option Z;
  c_scale : option Z
}.

Definition c_full_table_name (c : ColumnInfo) : string :=
  c_table_schema c +:+ "." +:+ c_table_name c.

Definition c_full_name (c : ColumnInfo) : string :=
  c_table_schema c +:+ "." +:+ c_table_name c +:+ "." +:+ c_name c.

Record PrimaryKeyInfo : Type := mkPrimaryKeyInfo {
  pk_table_schema : string;
  pk_table_name : string;
  pk_constraint_name : string;
  pk_columns : list string
}.

Definition pk_full_table_name (pk : PrimaryKeyInfo) : string :=
  pk_table_schema pk +:+ "." +:+ pk_table_name pk.

Record ForeignKeyInfo : Type := mkForeignKeyInfo {
  constraint_name : string;
  from_schema : string;
  from_table : string;
  from_columns : list string;
  to_schema : string;
  to_table : string;
  to_columns : list string
}.

Definition from_full_name (fk : ForeignKeyInfo) : string :=
  from_schema fk +:+ "." +:+ from_table fk.

Definition to_full_name (fk : ForeignKeyInfo) : string :=
  to_schema fk +:+ "." +:+ to_table fk.

Record RawMetadata : Type := mkRawMetadata {
  tables : list TableInfo;
  columns : list ColumnInfo;
  primary_keys : list PrimaryKeyInfo;
  foreign_keys : list ForeignKeyInfo;
  database_name : string;
  server_name : string
}.

(** ** Graph builder ([core/graph_builder.py]) *)

Module GraphBuilder.

Definition WEIGHT_FK : Z := 1.
Definition WEIGHT_FK_COL : Z := 1.
Definition WEIGHT_INFERRED : Z := 5.

Definition opt_int (o : option Z) : value :=
  match o with Some z => VInt z | None => VNone end.

Definition opt_float (o : option string) : value :=
  match o with Some r => VFloat r | None => VNone end.

(** [self._pk_columns]: table id to the set of its primary-key columns. *)
Definition _build_pk_lookup (pks : list PrimaryKeyInfo)
  : gmap string (gset string) :=
  fold_left
    (λ (m : gmap string (gset string)) pk,
       let table_name := pk_full_table_name pk in
       let cur := default ∅ (m !! table_name) in
       <[table_name := cur ∪ list_to_set (pk_columns pk)]> m)
    pks ∅.

Definition _is_pk_column (pk_cols : gmap string (gset string))
    (table_name column_name : string) : bool :=
  bool_decide (column_name ∈ default ∅ (pk_cols !! table_name)).

Definition any_in (words : list string) (s : string) : bool :=
  existsb (λ w, contains w s) words.

Definition _infer_table_tags (table_name : string) : list string :=
  let name_lower := lower table_name in
  (if endswith name_lower "s" || endswith name_lower "es"
   then ["collection"] else []) ++
  (if any_in ["user"; "account"; "person"; "member"; "employee"] name_lower
   then ["actor"] else []) ++
  (if any_in ["order"; "invoice"; "payment"; "transaction"] name_lower
   then ["transaction"] else []) ++
  (if any_in ["product"; "item"; "article"; "inventory"] name_lower
   then ["inventory"] else []) ++
  (if any_in ["log"; "audit"; "history"; "event"] name_lower
   then ["audit"] else []) ++
  (if any_in ["config"; "setting"; "option"; "preference"] name_lower
   then ["config"] else []) ++
  (if any_in ["lookup"; "type"; "status"; "category"] name_lower
   then ["reference"] else []).

Definition _create_table_nodes (ts : list TableInfo)
    (pks : list PrimaryKeyInfo) : list Node :=
  let pk_lookup : gmap string (list string) :=
    fold_left (λ m pk, <[pk_full_table_name pk := pk_columns pk]> m) pks ∅ in
  (λ table,
     let pk_cols := default [] (pk_lookup !! t_full_name table) in
     mkNode (t_full_name table) "table"
       (<["schema" := VStr (t_schema table)]>
        (<["name" := VStr (t_name table)]>
        (<["row_count" := opt_int (t_row_count table)]>
        (<["size_mb" := opt_float (t_size_mb table)]>
        (<["primary_key" := VStrs pk_cols]>
        (<["tags" := VStrs (_infer_table_tags (t_name table))]> ∅))))))) <$> ts.

Definition column_node (pk_cols : gmap string (gset string))
    (column : ColumnInfo) : Node :=
  let is_pk := _is_pk_column pk_cols (c_full_table_name column) (c_name column) in
  mkNode (c_full_name column) "column"
    (<["table" := VStr (c_full_table_name column)]>
     (<["name" := VStr (c_name column)]>
     (<["sql_type" := VStr (c_sql_type column)]>
     (<["is_nullable" := VBool (c_is_nullable column)]>
     (<["is_pk" := VBool is_pk]>
     (<["is_fk" := VBool false]>
     (<["ordinal_position" := VInt (c_ordinal_position column)]>
     (<["max_length" := opt_int (c_max_length column)]>
     (<["precision" := opt_int (c_precision column)]>
     (<["scale" := opt_int (c_scale column)]> ∅)))))))))).

Definition _create_column_nodes (pk_cols : gmap string (gset string))
    (cols : list ColumnInfo) : list Node :=
  column_node pk_cols <$> cols.

(** [zip(fk.from_columns, fk.to_columns)] *)
Definition column_pairs (fk : ForeignKeyInfo) : list (string * string) :=
  zip (from_columns fk) (to_columns fk).

Definition via_of (fk : ForeignKeyInfo) : list string :=
  concat ((λ p : string * string,
             [from_full_name fk +:+ "." +:+ fst p;
              to_full_name fk +:+ "." +:+ snd p]) <$> column_pairs fk).

Definition fk_edge (fk : ForeignKeyInfo) : Edge :=
  mkEdge ("fk:" +:+ constraint_name fk) (from_full_name fk) (to_full_name fk)
    "fk" WEIGHT_FK
    (<["constraint_name" := VStr (constraint_name fk)]>
     (<["from_columns" := VStrs (from_columns fk)]>
     (<["to_columns" := VStrs (to_columns fk)]>
     (<["via" := VStrs (via_of fk)]> ∅)))).

(** The loop of [_create_fk_edges], on its two accumulators. *)
Fixpoint _create_fk_edges_loop (fks : list ForeignKeyInfo)
    (seen : gset (string * string)) (acc : list Edge) : list Edge :=
  match fks with
  | [] => acc
  | fk :: rest =>
      let edge_key := (from_full_name fk, to_full_name fk) in
      if decide (edge_key ∈ seen) then _create_fk_edges_loop rest seen acc
      else _create_fk_edges_loop rest ({[edge_key]} ∪ seen) (acc ++ [fk_edge fk])
  end.

Definition _create_fk_edges (fks : list ForeignKeyInfo) : list Edge :=
  _create_fk_edges_loop fks ∅ [].

(** Reads the node back from the store, sets the flag and writes it. *)
Definition _mark_column_as_fk (column_id : string) (st : GraphStorage)
  : GraphStorage :=
  match get_node column_id st with
  | Some node =>
      add_node (mkNode (node_id node) (node_type node)
                  (<["is_fk" := VBool true]> (node_data node))) st
  | None => st
  end.

Definition fk_col_edge (fk : ForeignKeyInfo) (i : nat)
    (p : string * string) : Edge :=
  mkEdge ("fk_col:" +:+ constraint_name fk +:+ ":" +:+ pretty i)
    (from_full_name fk +:+ "." +:+ fst p)
    (to_full_name fk +:+ "." +:+ snd p)
    "fk_col" WEIGHT_FK_COL
    (<["constraint_name" := VStr (constraint_name fk)]>
     (<["from_table" := VStr (from_full_name fk)]>
     (<["to_table" := VStr (to_full_name fk)]> ∅))).

(** The inner loop of [_create_fk_column_edges] over the column pairs of one
    constraint, [i] being the index of the next pair. *)
Fixpoint fk_col_pairs_loop (fk : ForeignKeyInfo) (i : nat)
    (ps : list (string * string)) (acc : list Edge) (st : GraphStorage)
  : list Edge * GraphStorage :=
  match ps with
  | [] => (acc, st)
  | p :: rest =>
      let edge := fk_col_edge fk i p in
      fk_col_pairs_loop fk (S i) rest (acc ++ [edge])
        (_mark_column_as_fk (from_id edge) st)
  end.

Fixpoint _create_fk_column_edges_loop (fks : list ForeignKeyInfo)
    (acc : list Edge) (st : GraphStorage) : list Edge * GraphStorage :=
  match fks with
  | [] => (acc, st)
  | fk :: rest =>
      let '(acc', st') := fk_col_pairs_loop fk 0 (column_pairs fk) acc st in
      _create_fk_column_edges_loop rest acc' st'
  end.

Definition _create_fk_column_edges (fks : list ForeignKeyInfo)
    (st : GraphStorage) : list Edge * GraphStorage :=
  _create_fk_column_edges_loop fks [] st.

Record BuildStats : Type := mkBuildStats {
  stat_tables : nat;
  stat_columns : nat;
  stat_foreign_keys : nat;
  stat_column_relationships : nat;
  stat_database : string;
  stat_server : string
}.

(** [build]; [now] stands for [datetime.now().isoformat()]. *)
Definition build (md : RawMetadata) (clear_existing : bool) (now : string)
    (st : GraphStorage) : BuildStats * GraphStorage :=
  let st := if clear_existing then clear st else st in
  let pk_cols := _build_pk_lookup (primary_keys md) in
  let table_nodes := _create_table_nodes (tables md) (primary_keys md) in
  let column_nodes := _create_column_nodes pk_cols (columns md) in
  let fk_edges := _create_fk_edges (foreign_keys md) in
  let '(fk_col_edges, st) := _create_fk_column_edges (foreign_keys md) st in
  let st := add_nodes table_nodes st in
  let st := add_nodes column_nodes st in
  let st := add_edges fk_edges st in
  let st := add_edges fk_col_edges st in
  let st := set_metadata "database_name" (VStr (database_name md)) st in
  let st := set_metadata "server_name" (VStr (server_name md)) st in
  let st := set_metadata "scan_timestamp" (VStr now) st in
  let st := set_metadata "version" (VStr "1.0") st in
  (mkBuildStats (length table_nodes) (length column_nodes)
     (length fk_edges) (length fk_col_edges)
     (database_name md) (server_name md), st).

End GraphBuilder.

(** ** Query engine ([core/query_engine.py]) *)

Record PathResult : Type := mkPathResult {
  found : bool;
  path : list string;
  path_edges : list Edge;
  total_weight : Z;
  explanation : string
}.

Record JoinInfo : Type := mkJoinInfo {
  ji_from_table : string;
  ji_from_alias : string;
  ji_to_table : string;
  ji_to_alias : string;
  ji_on_conditions : list string;
  ji_constraint : value
}.

Record JoinResult : Type := mkJoinResult {
  success : bool;
  sql : string;
  jr_tables : list string;
  joins : list JoinInfo;
  jr_explanation : string
}.

Record QueryEngine : Type := mkQueryEngine {
  storage : GraphStorage;
  _adjacency : gmap string (list (string * Edge))
}.

(** *** Adjacency index *)

Definition reverse_edge (edge : Edge) : Edge :=
  mkEdge ("rev:" +:+ edge_id edge) (to_id edge) (from_id edge)
    (edge_type edge) (weight edge)
    (<["original_direction" := VStr "from"]>
       (<["reverse" := VBool true]> (edge_data edge))).

(** [adj[k].append(x)], after [if k not in adj: adj[k] = []]. *)
Definition adj_append (k : string) (x : string * Edge)
    (adj : gmap string (list (string * Edge)))
  : gmap string (list (string * Edge)) :=
  <[k := (default [] (adj !! k) ++ [x])%list]> adj.

Definition adj_add_edge (adj : gmap string (list (string * Edge)))
    (edge : Edge) : gmap string (list (string * Edge)) :=
  adj_append (to_id edge) (from_id edge, reverse_edge edge)
    (adj_append (from_id edge) (to_id edge, edge) adj).

Definition _build_adjacency (st : GraphStorage)
  : gmap string (list (string * Edge)) :=
  fold_left adj_add_edge (get_edges_by_type "fk" st) ∅.

(** [QueryEngine(storage)] *)
Definition new_engine (st : GraphStorage) : QueryEngine :=
  mkQueryEngine st (_build_adjacency st).

Definition refresh (eng : QueryEngine) : QueryEngine :=
  mkQueryEngine (storage eng) (_build_adjacency (storage eng)).

(** [adj.get(k, [])] *)
Definition adj_get (adj : gmap string (list (string * Edge))) (k : string)
  : list (string * Edge) :=
  default [] (adj !! k).

(** *** Name resolution *)

(** [table.data.get("name", "").lower()] *)
Definition short_name_lower (table : Node) : result string :=
  match node_data table !! "name" with
  | None => Ok (lower "")
  | Some (VStr s) => Ok (lower s)
  | Some _ => Raise AttributeError
  end.

Fixpoint resolve_scan (ts : list Node) (table_name : string)
  : result (option string) :=
  match ts with
  | [] => Ok None
  | table :: rest =>
      n ← short_name_lower table;
      if String.eqb n (lower table_name) then Ok (Some (node_id table))
      else resolve_scan rest table_name
  end.

Definition _resolve_table_name (st : GraphStorage) (table_name : string)
  : result (option string) :=
  match get_node table_name st with
  | Some node =>
      if String.eqb (node_type node) "table" then Ok (Some table_name)
      else resolve_scan (get_nodes_by_type "table" st) table_name
  | None => resolve_scan (get_nodes_by_type "table" st) table_name
  end.

(** [not r] for [r : Optional[str]]: [None] and the empty string. *)
Definition falsy (r : option string) : bool :=
  match r with
  | None => true
  | Some s => String.eqb s ""
  end.

(** *** Explanations *)

(** [str(v)], as an f-string formats an attribute value; the [repr] of the
    strings of a list is given for strings that need no escaping. *)
Definition py_str (v : value) : string :=
  match v with
  | VNone => "None"
  | VBool true => "True"
  | VBool false => "False"
  | VInt z => pretty z
  | VFloat r => r
  | VStr s => s
  | VStrs l => "[" +:+ join ", " ((λ s, "'" +:+ s +:+ "'") <$> l) +:+ "]"
  end.

Definition is_reverse (edge : Edge) : bool :=
  truthy (default (VBool false) (edge_data edge !! "reverse")).

Definition explain_step (p : list string) (i : nat) (edge : Edge)
  : result string :=
  let direction := if negb (is_reverse edge) then "→" else "←" in
  let constraint :=
    default (VStr "relationship") (edge_data edge !! "constraint_name") in
  match p !! S i with
  | Some t => Ok ("  " +:+ direction +:+ " " +:+ t +:+ " (via "
                  +:+ py_str constraint +:+ ")")
  | None => Raise IndexError
  end.

Fixpoint explain_steps (p : list string) (i : nat) (es : list Edge)
  : result (list string) :=
  match es with
  | [] => Ok []
  | edge :: rest =>
      x ← explain_step p i edge;
      xs ← explain_steps p (S i) rest;
      Ok (x :: xs)
  end.

Definition _explain_path (p : list string) (es : list Edge) : result string :=
  match p with
  | [] => Ok "Empty path."
  | [t] => Ok ("Single table: " +:+ t)
  | t :: _ =>
      xs ← explain_steps p 0 es;
      Ok (join nl (("Path: " +:+ t) :: xs))
  end.

(** *** Path search *)

(** Order of the heap entries: Python compares the tuples [(dist, node)]
    lexicographically. *)
Definition tuple_lt (a b : Z * string) : bool :=
  (a.1 <? b.1) || ((a.1 =? b.1) && String.ltb a.2 b.2).

Fixpoint heap_min (cur : Z * string) (h : list (Z * string)) : Z * string :=
  match h with
  | [] => cur
  | x :: h' => heap_min (if tuple_lt x cur then x else cur) h'
  end.

Fixpoint remove_first (x : Z * string) (h : list (Z * string))
  : list (Z * string) :=
  match h with
  | [] => []
  | y :: h' => if decide (y = x) then h' else y :: remove_first x h'
  end.

(** [heapq.heappush] and [heapq.heappop]: the heap as the multiset of its
    entries, the smallest being popped. *)
Definition heappush (h : list (Z * string)) (x : Z * string)
  : list (Z * string) := h ++ [x].

Definition heappop (h : list (Z * string))
  : option ((Z * string) * list (Z * string)) :=
  match h with
  | [] => None
  | x :: h' => let m := heap_min x h' in Some (m, remove_first m h)
  end.

Record Search : Type := mkSearch {
  distances : gmap string Z;
  previous : gmap string (string * Edge);
  heap : list (Z * string);
  visited : gset string
}.

(** Body of [for neighbor, edge in self._adjacency.get(current, [])]. *)
Definition relax (current : string) (current_dist : Z) (s : Search)
    (ne : string * Edge) : Search :=
  let '(neighbor, edge) := ne in
  if decide (neighbor ∈ visited s) then s
  else
    let new_dist := current_dist + weight edge in
    let better :=
      match distances s !! neighbor with
      | None => true
      | Some d => new_dist <? d
      end in
    if better then
      mkSearch (<[neighbor := new_dist]> (distances s))
        (<[neighbor := (current, edge)]> (previous s))
        (heappush (heap s) (new_dist, neighbor))
        (visited s)
    else s.

(** [while heap:] of [find_path]; the result is the state at loop exit. *)
Fixpoint dijkstra_loop (fuel : nat)
    (adj : gmap string (list (string * Edge))) (to_table : string)
    (s : Search) : result Search :=
  match fuel with
  | O => OutOfFuel
  | S fuel' =>
      match heappop (heap s) with
      | None => Ok s
      | Some ((current_dist, current), h') =>
          if decide (current ∈ visited s) then
            dijkstra_loop fuel' adj to_table
              (mkSearch (distances s) (previous s) h' (visited s))
          else
            let s1 := mkSearch (distances s) (previous s) h'
                        ({[current]} ∪ visited s) in
            if String.eqb current to_table then Ok s1
            else
              dijkstra_loop fuel' adj to_table
                (fold_left (relax current current_dist) (adj_get adj current) s1)
      end
  end.

(** Number of entries of the adjacency index. *)
Definition adj_size (adj : gmap string (list (string * Edge))) : nat :=
  sum_list_with (λ kl : string * list (string * Edge), length kl.2)
    (map_to_list adj).

Definition search_init (from_table : string) : Search :=
  mkSearch {[from_table := 0]} ∅ [(0, from_table)] ∅.

(** [while current in previous:] of the path reconstruction; [p] and [es]
    are the lists being appended to. *)
Fixpoint walk_back (fuel : nat) (prev : gmap string (string * Edge))
    (current : string) (p : list string) (es : list Edge)
  : result (list string * list Edge) :=
  match prev !! current with
  | None => Ok (p, es)
  | Some (prev_node, edge) =>
      match fuel with
      | O => OutOfFuel
      | S fuel' => walk_back fuel' prev prev_node (p ++ [current]) (es ++ [edge])
      end
  end.

Definition not_found (msg : string) : PathResult :=
  mkPathResult false [] [] 0 msg.

Definition find_path (eng : QueryEngine) (from_table to_table : string)
  : result PathResult :=
  from_r ← _resolve_table_name (storage eng) from_table;
  to_r ← _resolve_table_name (storage eng) to_table;
  if falsy from_r || falsy to_r then
    Ok (not_found "One or both tables not found in the graph.")
  else
    let from_table := default "" from_r in
    let to_table := default "" to_r in
    if String.eqb from_table to_table then
      Ok (mkPathResult true [from_table] [] 0
            "Same table specified for source and target.")
    else
      s ← dijkstra_loop (S (S (adj_size (_adjacency eng)))) (_adjacency eng)
            to_table (search_init from_table);
      if bool_decide (previous s !! to_table = None)
         && negb (String.eqb from_table to_table) then
        Ok (not_found ("No path found between " +:+ from_table +:+ " and "
                       +:+ to_table +:+ "."))
      else
        pe ← walk_back (size (visited s)) (previous s) to_table [] [];
        let p := rev (pe.1 ++ [from_table]) in
        let es := rev pe.2 in
        expl ← _explain_path p es;
        Ok (mkPathResult true p es (default 0 (distances s !! to_table)) expl).

(** [mapM] over a list, for the comprehension
    [[self._resolve_table_name(t) for t in tables]]. *)
Fixpoint resolve_all (st : GraphStorage) (ts : list string)
  : result (list (option string)) :=
  match ts with
  | [] => Ok []
  | t :: rest =>
      r ← _resolve_table_name st t;
      rs ← resolve_all st rest;
      Ok (r :: rs)
  end.

(** The [for i in range(len(resolved_tables) - 1)] loop, from index [i], on
    its three accumulators. *)
Fixpoint multi_loop (eng : QueryEngine) (resolved : list string)
    (n i : nat) (full_path : list string) (full_edges : list Edge)
    (total : Z) : result PathResult :=
  match n with
  | O =>
      expl ← _explain_path full_path full_edges;
      Ok (mkPathResult true full_path full_edges total expl)
  | S n' =>
      match resolved !! i, resolved !! S i with
      | Some a, Some b =>
          r ← find_path eng a b;
          if negb (found r) then
            Ok (mkPathResult false full_path full_edges total
                  ("No path found between " +:+ a +:+ " and " +:+ b +:+ "."))
          else
            multi_loop eng resolved n' (S i)
              (full_path ++ tail (path r)) (full_edges ++ path_edges r)
              (total + total_weight r)
      | _, _ => Raise IndexError
      end
  end.

Definition find_multi_path (eng : QueryEngine) (ts : list string)
  : result PathResult :=
  if (length ts <? 2)%nat then
    Ok (mkPathResult false ts [] 0 "Need at least two tables to find a path.")
  else
    resolved ← resolve_all (storage eng) ts;
    if negb (forallb (λ r, negb (falsy r)) resolved) then
      let missing :=
        fst <$> List.filter (λ tr : string * option string, falsy tr.2)
                  (zip ts resolved) in
      Ok (not_found ("Tables not found: " +:+ join ", " missing))
    else
      let resolved_tables := default "" <$> resolved in
      match resolved_tables with
      | [] => Raise IndexError
      | first :: _ =>
          multi_loop eng resolved_tables (length resolved_tables - 1) 0
            [first] [] 0
      end.

(** *** Alias assignment *)

(** Value of [alias] after [counter += 1] in the body of the [while]. *)
Definition alias_candidate (name base : string) (counter : nat) : string :=
  if (counter <=? String.length name)%nat then lower (str_take counter name)
  else base +:+ pretty (counter - String.length name)%nat.

(** [while alias in used:], entered with the current [counter] and [alias]. *)
Fixpoint alias_loop (fuel : nat) (name base : string) (used : gset string)
    (counter : nat) (alias : string) : result string :=
  if decide (alias ∈ used) then
    match fuel with
    | O => OutOfFuel
    | S fuel' =>
        alias_loop fuel' name base used (S counter)
          (alias_candidate name base (S counter))
    end
  else Ok alias.

(** [table.split(".")[-1] if "." in table else table] *)
Definition short_name (table : string) : string :=
  if contains "." table then after_last_dot table else table.

(** One iteration of [for table in tables] in [_generate_aliases]. *)
Definition alias_step (table : string)
    (st : gmap string string * gset string)
  : result (gmap string string * gset string) :=
  let '(aliases, used) := st in
  let name := short_name table in
  match name with
  | EmptyString => Raise IndexError
  | String c _ =>
      let base := lower (String c EmptyString) in
      alias ← alias_loop (String.length name + size used + 1) name base used 1 base;
      Ok (<[table := alias]> aliases, {[alias]} ∪ used)
  end.

Fixpoint aliases_loop (ts : list string)
    (st : gmap string string * gset string)
  : result (gmap string string * gset string) :=
  match ts with
  | [] => Ok st
  | table :: rest =>
      st' ← alias_step table st;
      aliases_loop rest st'
  end.

Definition _generate_aliases (ts : list string) : result (gmap string string) :=
  st ← aliases_loop ts (∅, ∅);
  Ok st.1.

(** *** Join synthesis *)

(** [aliases[t]] *)
Definition alias_of (aliases : gmap string string) (t : string)
  : result string :=
  match aliases !! t with
  | Some a => Ok a
  | None => Raise KeyError
  end.

(** The list that [zip] iterates when given [edge.data.get(key, [])]. *)
Definition columns_of (edge : Edge) (key : string) : result (list string) :=
  match edge_data edge !! key with
  | None => Ok []
  | Some (VStrs l) => Ok l
  | Some (VStr s) => Ok ((λ c, String c EmptyString) <$> list_ascii_of_string s)
  | Some _ => Raise TypeError
  end.

(** One ON condition, [f"{a}.{c} = {b}.{d}"]. *)
Definition condition (a c b d : string) : string :=
  a +:+ "." +:+ c +:+ " = " +:+ b +:+ "." +:+ d.

Definition on_conditions_of (rev_edge : bool) (to_alias from_alias : string)
    (from_cols to_cols : list string) : list string :=
  (λ ft : string * string,
     if rev_edge then condition to_alias ft.1 from_alias ft.2
     else condition to_alias ft.2 from_alias ft.1) <$> zip from_cols to_cols.

(** Body of [for i, edge in enumerate(path_result.edges)]: the JOIN clause
    and the entry of [joins_info]. *)
Definition join_step (aliases : gmap string string) (p : list string)
    (i : nat) (edge : Edge) : result (string * JoinInfo) :=
  match p !! i, p !! S i with
  | Some from_table, Some to_table =>
      let rev_edge := is_reverse edge in
      from_cols ← columns_of edge (if rev_edge then "to_columns" else "from_columns");
      to_cols ← columns_of edge (if rev_edge then "from_columns" else "to_columns");
      to_alias ← alias_of aliases to_table;
      from_alias ← alias_of aliases from_table;
      let on_conditions :=
        on_conditions_of rev_edge to_alias from_alias from_cols to_cols in
      let on_clause :=
        match on_conditions with
        | [] => "1=1"
        | _ => join " AND " on_conditions
        end in
      let join_clause :=
        "JOIN " +:+ to_table +:+ " " +:+ to_alias +:+ nl +:+ "    ON " +:+ on_clause in
      Ok (join_clause,
          mkJoinInfo from_table from_alias to_table to_alias on_conditions
            (default (VStr "") (edge_data edge !! "constraint_name")))
  | _, _ => Raise IndexError
  end.

Fixpoint join_steps (aliases : gmap string string) (p : list string)
    (i : nat) (es : list Edge) : result (list (string * JoinInfo)) :=
  match es with
  | [] => Ok []
  | edge :: rest =>
      x ← join_step aliases p i edge;
      xs ← join_steps aliases p (S i) rest;
      Ok (x :: xs)
  end.

(** [[f"    {aliases[t]}.*" for t in path]] *)
Fixpoint select_parts (aliases : gmap string string) (p : list string)
  : result (list string) :=
  match p with
  | [] => Ok []
  | t :: rest =>
      a ← alias_of aliases t;
      xs ← select_parts aliases rest;
      Ok (("    " +:+ a +:+ ".*") :: xs)
  end.

Definition generate_join (eng : QueryEngine) (ts : list string)
    (select_all : bool) : result JoinResult :=
  if (length ts <? 2)%nat then
    Ok (mkJoinResult false "" ts []
          "Need at least two tables to generate a join.")
  else
    path_result ← find_multi_path eng ts;
    if negb (found path_result) then
      Ok (mkJoinResult false "" ts [] (explanation path_result))
    else
      aliases ← _generate_aliases (path path_result);
      select_clause ←
        (if select_all then
           parts ← select_parts aliases (path path_result);
           Ok (join ("," +:+ nl) parts)
         else Ok "    *");
      match path path_result with
      | [] => Raise IndexError
      | first_table :: _ =>
          first_alias ← alias_of aliases first_table;
          let from_clause := first_table +:+ " " +:+ first_alias in
          js ← join_steps aliases (path path_result) 0 (path_edges path_result);
          let join_clauses := fst <$> js in
          let sql0 :=
            "SELECT" +:+ nl +:+ select_clause +:+ nl +:+ "FROM " +:+ from_clause in
          let sql1 :=
            match join_clauses with
            | [] => sql0
            | _ => sql0 +:+ nl +:+ join nl join_clauses
            end in
          Ok (mkJoinResult true (sql1 +:+ ";") (path path_result) (snd <$> js)
                ("Generated join connecting "
                 +:+ pretty (length (path path_result)) +:+ " tables via "
                 +:+ pretty (length join_clauses) +:+ " JOIN(s)."))
      end.

(** *** Listings *)

(** [sorted(l, key=key)], the keys being compared by [lt]. Python's sort is
    stable, and a stable sort by a total order has one result; it is
    computed here by insertion, an element going in front of the first
    element whose key is not smaller than its own. *)
Fixpoint insert_by {A K : Type} (lt : K → K → bool) (key : A → K) (x : A)
    (l : list A) : list A :=
  match l with
  | [] => [x]
  | y :: l' =>
      if lt (key y) (key x) then y :: insert_by lt key x l' else x :: y :: l'
  end.

Definition sorted {A K : Type} (lt : K → K → bool) (key : A → K)
    (l : list A) : list A :=
  foldr (insert_by lt key) [] l.

(** [a < b] on tuples of two strings: the first components decide unless
    they are equal. *)
Definition pair_lt (a b : string * string) : bool :=
  if String.eqb a.1 b.1 then String.ltb a.2 b.2 else String.ltb a.1 b.1.

Record TableSummary : Type := mkTableSummary {
  ts_name : string;
  ts_schema : value;
  ts_table : value;
  ts_row_count : value;
  ts_size_mb : value;
  ts_pk : value;
  ts_tags : value
}.

Definition table_summary (t : Node) : TableSummary :=
  mkTableSummary (node_id t)
    (default (VStr "") (node_data t !! "schema"))
    (default (VStr "") (node_data t !! "name"))
    (default VNone (node_data t !! "row_count"))
    (default VNone (node_data t !! "size_mb"))
    (default (VStrs []) (node_data t !! "primary_key"))
    (default (VStrs []) (node_data t !! "tags")).

Definition list_tables (eng : QueryEngine) : list TableSummary :=
  table_summary
    <$> sorted String.ltb node_id (get_nodes_by_type "table" (storage eng)).

Record RelationshipSummary : Type := mkRelationshipSummary {
  rs_from_table : string;
  rs_to_table : string;
  rs_constraint : value;
  rs_from_columns : value;
  rs_to_columns : value
}.

Definition relationship_summary (e : Edge) : RelationshipSummary :=
  mkRelationshipSummary (from_id e) (to_id e)
    (default (VStr "") (edge_data e !! "constraint_name"))
    (default (VStrs []) (edge_data e !! "from_columns"))
    (default (VStrs []) (edge_data e !! "to_columns")).

Definition list_relationships (eng : QueryEngine) : list RelationshipSummary :=
  relationship_summary
    <$> sorted pair_lt (λ e, (from_id e, to_id e))
          (get_edges_by_type "fk" (storage eng)).

(** ** Sample graphs *)

Module Sample.

Definition col (s t n : string) (o : Z) : ColumnInfo :=
  mkColumnInfo s t n "int" false o None None None.

(** The schema of [tests/test_core.py]: Users, Orders, Products, OrderItems. *)
Definition shop : RawMetadata :=
  mkRawMetadata
    [mkTableInfo "dbo" "Users" (Some 100) None;
     mkTableInfo "dbo" "Orders" (Some 500) None;
     mkTableInfo "dbo" "Products" (Some 50) None;
     mkTableInfo "dbo" "OrderItems" (Some 1000) None]
    [col "dbo" "Users" "Id" 1;
     col "dbo" "Orders" "Id" 1;
     col "dbo" "Orders" "UserId" 2;
     col "dbo" "Products" "Id" 1;
     col "dbo" "OrderItems" "Id" 1;
     col "dbo" "OrderItems" "OrderId" 2;
     col "dbo" "OrderItems" "ProductId" 3]
    [mkPrimaryKeyInfo "dbo" "Users" "PK_Users" ["Id"];
     mkPrimaryKeyInfo "dbo" "Orders" "PK_Orders" ["Id"];
     mkPrimaryKeyInfo "dbo" "Products" "PK_Products" ["Id"];
     mkPrimaryKeyInfo "dbo" "OrderItems" "PK_OrderItems" ["Id"]]
    [mkForeignKeyInfo "FK_Orders_Users" "dbo" "Orders" ["UserId"]
       "dbo" "Users" ["Id"];
     mkForeignKeyInfo "FK_OrderItems_Orders" "dbo" "OrderItems" ["OrderId"]
       "dbo" "Orders" ["Id"];
     mkForeignKeyInfo "FK_OrderItems_Products" "dbo" "OrderItems" ["ProductId"]
       "dbo" "Products" ["Id"]]
    "TestDb" "localhost".

Definition shop_store : GraphStorage :=
  (GraphBuilder.build shop true "2024-01-01T00:00:00" empty_storage).2.

Definition shop_engine : QueryEngine := new_engine shop_store.

Definition table_node (i name : string) : Node :=
  mkNode i "table" {["name" := VStr name]}.

Definition plain_edge (i a b : string) (w : Z) : Edge :=
  mkEdge i a b "fk" w ∅.

(** A store whose only table has the empty string as its id. *)
Definition nameless_store : GraphStorage :=
  add_node (table_node "" "T") empty_storage.

(** A store whose only [fk] edge already carries an [original_direction]
    attribute. *)
Definition tagged_edge : Edge :=
  mkEdge "fk:E" "A" "B" "fk" 1 {["original_direction" := VStr "to"]}.

Definition tagged_store : GraphStorage :=
  add_edge tagged_edge
    (add_nodes [table_node "A" "A"; table_node "B" "B"] empty_storage).

(** A triangle with one negative weight: A-B costs 1, A-C costs 2 and C-B
    costs -5. *)
Definition skewed_store : GraphStorage :=
  add_edges [plain_edge "e1" "A" "B" 1; plain_edge "e2" "A" "C" 2;
             plain_edge "e3" "C" "B" (-5)]
    (add_nodes [table_node "A" "A"; table_node "B" "B"; table_node "C" "C"]
       empty_storage).

(** A schema one of whose tables has the keyword in its name. *)
Definition logbook : RawMetadata :=
  mkRawMetadata
    [mkTableInfo "dbo" "Order JOIN Log" None None;
     mkTableInfo "dbo" "Batch" None None]
    [col "dbo" "Order JOIN Log" "Id" 1;
     col "dbo" "Batch" "LogId" 1]
    []
    [mkForeignKeyInfo "FK_Batch_Log" "dbo" "Batch" ["LogId"]
       "dbo" "Order JOIN Log" ["Id"]]
    "TestDb" "localhost".

Definition logbook_engine : QueryEngine :=
  new_engine
    (GraphBuilder.build logbook true "2024-01-01T00:00:00" empty_storage).2.

(** A store one of whose tables has a schema and no name. *)
Definition unnamed_store : GraphStorage :=
  add_edge (plain_edge "fk:E" "dbo.A" "dbo." 1)
    (add_nodes [table_node "dbo.A" "A"; table_node "dbo." ""] empty_storage).

(** Two constraints between the same ordered pair of tables. *)
Definition ledger : RawMetadata :=
  mkRawMetadata
    [mkTableInfo "dbo" "Accounts" None None;
     mkTableInfo "dbo" "Transfers" None None]
    [col "dbo" "Accounts" "Id" 1;
     col "dbo" "Transfers" "SourceId" 1;
     col "dbo" "Transfers" "TargetId" 2]
    []
    [mkForeignKeyInfo "FK_Transfers_Source" "dbo" "Transfers" ["SourceId"]
       "dbo" "Accounts" ["Id"];
     mkForeignKeyInfo "FK_Transfers_Target" "dbo" "Transfers" ["TargetId"]
       "dbo" "Accounts" ["Id"]]
    "TestDb" "localhost".

(** Two schemas that each name a constraint [FK_Customer]. *)
Definition sales_customer : ForeignKeyInfo :=
  mkForeignKeyInfo "FK_Customer" "sales" "Orders" ["CustomerId"]
    "sales" "Customers" ["Id"].

Definition hr_customer : ForeignKeyInfo :=
  mkForeignKeyInfo "FK_Customer" "hr" "Reviews" ["CustomerId"]
    "hr" "Customers" ["Id"].

Definition two_schemas : RawMetadata :=
  mkRawMetadata
    [mkTableInfo "sales" "Orders" None None;
     mkTableInfo "sales" "Customers" None None;
     mkTableInfo "hr" "Reviews" None None;
     mkTableInfo "hr" "Customers" None None]
    [col "sales" "Orders" "CustomerId" 1;
     col "sales" "Customers" "Id" 1;
     col "hr" "Reviews" "CustomerId" 1;
     col "hr" "Customers" "Id" 1]
    []
    [sales_customer; hr_customer]
    "TestDb" "localhost".

(** The first foreign key of [shop]. *)
Definition orders_users : ForeignKeyInfo :=
  mkForeignKeyInfo "FK_Orders_Users" "dbo" "Orders" ["UserId"]
    "dbo" "Users" ["Id"].

End Sample.

(** ** Vocabulary of the statements *)

(** The ordered table pair of a constraint and of an edge. *)
Definition fk_key (fk : ForeignKeyInfo) : string * string :=
  (from_full_name fk, to_full_name fk).

Definition edge_pair (e : Edge) : string * string := (from_id e, to_id e).

(** The two entries an [fk] edge contributes to the adjacency index: [e']
    is listed under [u] as leading to [v]. *)
Definition entry_of (e : Edge) (u v : string) (e' : Edge) : Prop :=
  (u = from_id e ∧ v = to_id e ∧ e' = e)
  ∨ (u = to_id e ∧ v = from_id e ∧ e' = reverse_edge e).

(** Invariant of the loop of [_generate_aliases]: the aliases handed out are
    all in [used], and no two tables share one. *)
Definition aliases_inv (st : gmap string string * gset string) : Prop :=
  (∀ t a, st.1 !! t = Some a → a ∈ st.2)
  ∧ (∀ t1 t2 a1 a2, t1 ≠ t2 → st.1 !! t1 = Some a1 → st.1 !! t2 = Some a2 →
                    a1 ≠ a2).

(** The index was built by the constructor or by [refresh], from some state
    of the store. *)
Definition engine_wf (eng : QueryEngine) : Prop :=
  ∃ st0, _adjacency eng = _build_adjacency st0.

(** Sum of the weights of a list of edges. *)
Definition edges_weight (es : list Edge) : Z :=
  foldr (λ e acc, weight e + acc) 0 es.

(** [chain adj p es]: the nodes [p] are linked, one to the next, by the
    entries [es] of the adjacency index. *)
Inductive chain (adj : gmap string (list (string * Edge)))
  : list string → list Edge → Prop :=
  | chain_one u : chain adj [u] []
  | chain_cons u v p e es :
      (v, e) ∈ adj_get adj u →
      chain adj (v :: p) es →
      chain adj (u :: v :: p) (e :: es).

(** [tree_path prev vis s v p es]: following the [previous] pointers back from
    [v] leads to the source [s] through nodes of [vis]; [p] and [es] are the
    nodes and edges met, in forward order. *)
Inductive tree_path (prev : gmap string (string * Edge)) (vis : gset string)
    (s : string) : string → list string → list Edge → Prop :=
  | tree_root :
      prev !! s = None → s ∈ vis → tree_path prev vis s s [s] []
  | tree_step v u e p es :
      prev !! v = Some (u, e) → v ∈ vis →
      tree_path prev vis s u p es →
      tree_path prev vis s v (p ++ [v]) (es ++ [e]).

(** Invariant of the search loop, for the index [adj] and the source [s]. *)
Record search_inv (adj : gmap string (list (string * Edge))) (s : string)
    (st : Search) : Prop := mkSearchInv {
  inv_src_dist : distances st !! s = Some 0;
  inv_src_prev : previous st !! s = None;
  inv_src : s ∈ visited st ∨ heap st = [(0, s)];
  inv_heap_dist : ∀ d v, (d, v) ∈ heap st →
      ∃ d', distances st !! v = Some d' ∧ d' ≤ d;
  inv_heap_prev : ∀ d v, (d, v) ∈ heap st →
      v = s ∨ is_Some (previous st !! v);
  inv_dist_heap : ∀ v d, distances st !! v = Some d → v ∉ visited st →
      (d, v) ∈ heap st;
  inv_visited_dist : ∀ v, v ∈ visited st → is_Some (distances st !! v);
  inv_prev : ∀ v u e, previous st !! v = Some (u, e) →
      u ∈ visited st ∧ (v, e) ∈ adj_get adj u
      ∧ ∃ du, distances st !! u = Some du
              ∧ distances st !! v = Some (du + weight e);
  inv_tree : ∀ v, v ∈ visited st →
      ∃ p es, tree_path (previous st) (visited st) s v p es
              ∧ (length es < size (visited st))%nat
}.

(** Entries of the index listed under nodes that are not yet visited. *)
Definition unvisited_entries (adj : gmap string (list (string * Edge)))
    (vis : gset string) : nat :=
  sum_list_with
    (λ kl : string * list (string * Edge),
       if decide (kl.1 ∈ vis) then O else length kl.2)
    (map_to_list adj).

(** A walk in the index from [u] to [w], as the list of entries taken. *)
Inductive walk (adj : gmap string (list (string * Edge)))
  : string → list (string * Edge) → string → Prop :=
  | walk_nil u : walk adj u [] u
  | walk_cons u v e l w :
      (v, e) ∈ adj_get adj u → walk adj v l w →
      walk adj u ((v, e) :: l) w.

Definition walk_weight (l : list (string * Edge)) : Z :=
  edges_weight (snd <$> l).

Definition nonneg_weights (adj : gmap string (list (string * Edge))) : Prop :=
  ∀ u v e, (v, e) ∈ adj_get adj u → 0 ≤ weight e.

(** Optimality invariant of the search under non-negative weights: the
    distance of a visited node is a lower bound on every walk from the
    source, the visited nodes other than the one being expanded ([closed])
    have had all their entries relaxed, and the heap holds no entry smaller
    than a visited distance. *)
Record search_opt (adj : gmap string (list (string * Edge))) (s : string)
    (closed : gset string) (st : Search) : Prop := mkSearchOpt {
  opt_lb : ∀ v d l, v ∈ visited st → distances st !! v = Some d →
      walk adj s l v → d ≤ walk_weight l;
  opt_closed : ∀ u v e, u ∈ closed → (v, e) ∈ adj_get adj u →
      ∃ du dv, distances st !! u = Some du ∧ distances st !! v = Some dv
               ∧ dv ≤ du + weight e;
  opt_mono : ∀ u du d x, u ∈ visited st → distances st !! u = Some du →
      (d, x) ∈ heap st → du ≤ d
}.

(** What a found route must satisfy in the index [adj]: it is a chain from
    [a] to [b] and its weight is the sum of the weights of its edges. *)
Definition valid_route (adj : gmap string (list (string * Edge)))
    (a b : string) (r : PathResult) : Prop :=
  chain adj (path r) (path_edges r)
  ∧ head (path r) = Some a ∧ last (path r) = Some b
  ∧ total_weight r = edges_weight (path_edges r).

(** The shape of a result, as a caller sees it: one edge fewer than nodes,
    edge [i] going from node [i] to node [i+1], and the total weight being
    the sum over the edges. *)
Definition route_ok (r : PathResult) : Prop :=
  length (path r) = S (length (path_edges r))
  ∧ (∀ i e, path_edges r !! i = Some e →
            path r !! i = Some (from_id e) ∧ path r !! S i = Some (to_id e))
  ∧ total_weight r = edges_weight (path_edges r).

(** The ids that [find_multi_path] passes on to [find_path]: non-empty, and
    resolving to themselves. *)
Definition settled (st : GraphStorage) (x : string) : Prop :=
  _resolve_table_name st x = Ok (Some x) ∧ x ≠ "".

(** What the expansion of [cur] relies on: [cur] is visited with distance
    [d], and no visited node is further than [d]. *)
Definition expanding (st : Search) (cur : string) (d : Z) : Prop :=
  cur ∈ visited st ∧ distances st !! cur = Some d
  ∧ ∀ u, u ∈ visited st → ∃ du, distances st !! u = Some du ∧ du ≤ d.

(** [stitched eng rs segs]: [segs] are the routes that [find_path] finds
    from each id of [rs] to the next one. *)
Fixpoint stitched (eng : QueryEngine) (rs : list string)
    (segs : list PathResult) : Prop :=
  match rs, segs with
  | [_], [] => True
  | a :: ((b :: _) as rest), s :: segs' =>
      find_path eng a b = Ok s ∧ found s = true ∧ stitched eng rest segs'
  | _, _ => False
  end.

(** Every entry of the index has weight 1. *)
Definition unit_weights (adj : gmap string (list (string * Edge))) : Prop :=
  ∀ u v e, (v, e) ∈ adj_get adj u → weight e = 1.

(** The text of a join, as [generate_join] assembles it from its parts. *)
Definition on_clause_of (conds : list string) : string :=
  match conds with
  | [] => "1=1"
  | _ => join " AND " conds
  end.

Definition render_join (j : JoinInfo) : string :=
  "JOIN " +:+ ji_to_table j +:+ " " +:+ ji_to_alias j +:+ nl +:+ "    ON "
  +:+ on_clause_of (ji_on_conditions j).

Definition sql_text (select_clause t0 a0 : string) (js : list JoinInfo)
  : string :=
  let sql0 :=
    "SELECT" +:+ nl +:+ select_clause +:+ nl +:+ "FROM " +:+ (t0 +:+ " " +:+ a0) in
  match js with
  | [] => sql0
  | _ => sql0 +:+ nl +:+ join nl (render_join <$> js)
  end +:+ ";".

(** The aliases in the order the text introduces them: the one of the FROM
    clause, then the one of each JOIN clause. *)
Definition introduced_aliases (a0 : string) (js : list JoinInfo)
  : list string :=
  a0 :: (ji_to_alias <$> js).

(** The ON conditions of a clause compare the alias the clause introduces
    with the alias [a_prev]. *)
Definition on_uses (a_prev : string) (j : JoinInfo) : Prop :=
  ji_from_alias j = a_prev
  ∧ Forall (λ c, ∃ c1 c2, c = condition (ji_to_alias j) c1 a_prev c2)
      (ji_on_conditions j).

(** Number of positions of [s] at which [pat] occurs. *)
Fixpoint occurrences (pat s : string) : nat :=
  (if String.prefix pat s then 1 else 0)
  + match s with
    | EmptyString => 0
    | String _ s' => occurrences pat s'
    end.

(** A matcher for the text JOIN. The state is the number of its characters
    matched so far; a step yields the number of matches completed (0 or 1)
    and the next state. *)
Definition dfa_step (q : nat) (c : ascii) : nat * nat :=
  if Ascii.eqb c "J" then (O, 1%nat)
  else if Ascii.eqb c "O" then (O, if (q =? 1)%nat then 2%nat else O)
  else if Ascii.eqb c "I" then (O, if (q =? 2)%nat then 3%nat else O)
  else if Ascii.eqb c "N" then (if (q =? 3)%nat then 1%nat else O, O)
  else (O, O).

Fixpoint dfa_run (q : nat) (s : string) : nat * nat :=
  match s with
  | EmptyString => (O, q)
  | String c s' =>
      let hq := dfa_step q c in
      let r := dfa_run hq.2 s' in
      ((hq.1 + r.1)%nat, r.2)
  end.

(** [piece a b s n]: the matcher completes [n] matches on [s], from any state
    when [a] holds and from the initial state otherwise, and it ends in the
    initial state when [b] holds. *)
Definition piece (a b : bool) (s : string) (n : nat) : Prop :=
  ∀ q, a = true ∨ q = O →
       (dfa_run q s).1 = n ∧ (b = true → (dfa_run q s).2 = O).

(** The part of JOIN still to be matched in state [q] starts [s]. *)
Definition pending (q : nat) (s : string) : nat :=
  match q with
  | 1%nat => if String.prefix "OIN" s then 1%nat else O
  | 2%nat => if String.prefix "IN" s then 1%nat else O
  | 3%nat => if String.prefix "N" s then 1%nat else O
  | _ => O
  end.

(** No character of [s] is an upper-case J. *)
Fixpoint lacks_J (s : string) : bool :=
  match s with
  | EmptyString => true
  | String c s' => negb (Ascii.eqb c "J") && lacks_J s'
  end.

(** Settles [piece true true lit n] for a literal [lit]. *)
Ltac lit_piece :=
  intros q _; destruct q as [|[|[|[|q]]]]; split; reflexivity.

Set Warnings "-clear-no-such-hyp".
Import GraphBuilder.

(** * Properties *)

(** ** Graph store *)

Lemma eqb_string_true (a b : string) : String.eqb a b = true ↔ a = b.
Proof. apply String.eqb_eq. Qed.

Lemma eqb_string_false (a b : string) : String.eqb a b = false ↔ a ≠ b.
Proof. apply String.eqb_neq. Qed.

Lemma find_app_last {A} (f : A → bool) (l : list A) (x : A) :
  List.find f (l ++ [x]) =
  match List.find f l with
  | Some y => Some y
  | None => if f x then Some x else None
  end.
Proof.
  induction l as [|y l IH]; simpl; [done|].
  destruct (f y); [done|]. apply IH.
Qed.

Lemma find_filter_none (i : string) (l : list Node) :
  List.find (λ n, String.eqb (node_id n) i)
    (filter (λ m, node_id m ≠ i) l) = None.
Proof.
  induction l as [|y l IH]; [done|].
  rewrite filter_cons. case_decide as Hy; [|done].
  simpl. apply eqb_string_false in Hy. by rewrite Hy.
Qed.

Lemma find_filter_other (i j : string) (l : list Node) :
  i ≠ j →
  List.find (λ n, String.eqb (node_id n) i)
    (filter (λ m, node_id m ≠ j) l)
  = List.find (λ n, String.eqb (node_id n) i) l.
Proof.
  intros Hij. induction l as [|y l IH]; [done|].
  rewrite filter_cons. case_decide as Hy; simpl.
  - by rewrite IH.
  - rewrite IH.
    assert (String.eqb (node_id y) i = false) as ->; [|done].
    apply eqb_string_false. congruence.
Qed.

Lemma get_node_add_node_eq (n : Node) (st : GraphStorage) :
  get_node (node_id n) (add_node n st) = Some n.
Proof.
  unfold get_node, add_node; simpl.
  rewrite find_app_last, find_filter_none.
  by rewrite String.eqb_refl.
Qed.

Lemma get_node_add_node_ne (i : string) (n : Node) (st : GraphStorage) :
  i ≠ node_id n → get_node i (add_node n st) = get_node i st.
Proof.
  intros Hne. unfold get_node, add_node; simpl.
  rewrite find_app_last, find_filter_other by done.
  destruct (List.find _ (nodes st)); [done|].
  assert (String.eqb (node_id n) i = false) as ->; [|done].
  apply eqb_string_false. congruence.
Qed.

Lemma add_nodes_snoc (ns : list Node) (n : Node) (st : GraphStorage) :
  add_nodes (ns ++ [n]) st = add_node n (add_nodes ns st).
Proof. unfold add_nodes. by rewrite fold_left_app. Qed.

(** After a bulk insert, an inserted id reads back as one of the inserted
    rows carrying that id. *)
Lemma get_node_add_nodes_in (ns : list Node) (st : GraphStorage) (i : string) :
  i ∈ node_id <$> ns →
  ∃ n, n ∈ ns ∧ node_id n = i ∧ get_node i (add_nodes ns st) = Some n.
Proof.
  induction ns as [|n ns IH] using rev_ind; [by intros ?%elem_of_nil|].
  intros Hi. rewrite add_nodes_snoc.
  destruct (decide (i = node_id n)) as [->|Hne].
  - exists n. split_and!; [set_solver|done|apply get_node_add_node_eq].
  - rewrite get_node_add_node_ne by done.
    rewrite fmap_app in Hi. apply elem_of_app in Hi as [Hi|Hi].
    + destruct (IH Hi) as (m & ? & ? & ?). exists m. set_solver.
    + set_solver.
Qed.

Lemma nodes_add_edges (es : list Edge) (st : GraphStorage) :
  nodes (add_edges es st) = nodes st.
Proof.
  revert st. induction es as [|e es IH]; intros st; [done|].
  unfold add_edges in *; simpl. by rewrite IH.
Qed.

Lemma get_node_nodes (i : string) (st st' : GraphStorage) :
  nodes st = nodes st' → get_node i st = get_node i st'.
Proof. unfold get_node. by intros ->. Qed.

(** ** Graph builder *)

Lemma mark_on_empty (i : string) :
  _mark_column_as_fk i empty_storage = empty_storage.
Proof. done. Qed.

Lemma fk_col_pairs_loop_empty (fk : ForeignKeyInfo) (ps : list (string * string))
    (i : nat) (acc : list Edge) :
  (fk_col_pairs_loop fk i ps acc empty_storage).2 = empty_storage.
Proof.
  revert i acc. induction ps as [|p ps IH]; intros i acc; [done|].
  simpl. rewrite mark_on_empty. apply IH.
Qed.

Lemma create_fk_column_edges_loop_empty (fks : list ForeignKeyInfo)
    (acc : list Edge) :
  (_create_fk_column_edges_loop fks acc empty_storage).2 = empty_storage.
Proof.
  revert acc. induction fks as [|fk fks IH]; intros acc; [done|].
  simpl.
  pose proof (fk_col_pairs_loop_empty fk (column_pairs fk) 0 acc) as H.
  destruct (fk_col_pairs_loop fk 0 (column_pairs fk) acc empty_storage)
    as [acc' st'] eqn:E.
  simpl in H. subst st'. apply IH.
Qed.

(** The node store that [build] leaves behind when it starts by clearing. *)
Lemma nodes_build_clear (md : RawMetadata) (now : string) (st : GraphStorage) :
  nodes (build md true now st).2 =
  nodes (add_nodes (_create_column_nodes (_build_pk_lookup (primary_keys md))
                      (columns md))
           (add_nodes (_create_table_nodes (tables md) (primary_keys md))
              empty_storage)).
Proof.
  unfold build, clear, _create_fk_column_edges.
  pose proof (create_fk_column_edges_loop_empty (foreign_keys md) []) as H.
  destruct (_create_fk_column_edges_loop (foreign_keys md) [] empty_storage)
    as [es st'] eqn:E.
  simpl in H. subst st'. simpl.
  by rewrite !nodes_add_edges.
Qed.

(** C2, as the code has it: [_mark_column_as_fk] runs against the store
    before the column nodes are written to it, so after
    [build(metadata, clear_existing=True)] every input column, the source
    columns of foreign keys included, is stored with [is_fk = False]. *)
Theorem build_leaves_is_fk_false (md : RawMetadata) (now : string)
    (st : GraphStorage) (c : ColumnInfo) :
  c ∈ columns md →
  ∃ n, get_node (c_full_name c) (build md true now st).2 = Some n
       ∧ node_type n = "column"
       ∧ node_data n !! "is_fk" = Some (VBool false).
Proof.
  intros Hc.
  rewrite (get_node_nodes _ _ _ (nodes_build_clear md now st)).
  destruct (get_node_add_nodes_in
              (_create_column_nodes (_build_pk_lookup (primary_keys md)) (columns md))
              (add_nodes (_create_table_nodes (tables md) (primary_keys md))
                 empty_storage) (c_full_name c)) as (n & Hn & _ & Hget).
  - unfold _create_column_nodes. rewrite <- list_fmap_compose.
    apply list_elem_of_fmap. by exists c.
  - exists n. split; [done|].
    unfold _create_column_nodes in Hn.
    apply list_elem_of_fmap in Hn as (c' & -> & _). done.
Qed.

Lemma build_leaves_is_fk_false_witness :
  Sample.col "dbo" "Orders" "UserId" 2 ∈ columns Sample.shop
  ∧ ∃ n, get_node "dbo.Orders.UserId" Sample.shop_store = Some n
         ∧ node_type n = "column"
         ∧ node_data n !! "is_fk" = Some (VBool false).
Proof.
  assert (Sample.col "dbo" "Orders" "UserId" 2 ∈ columns Sample.shop) as Hc
    by (vm_compute; repeat constructor).
  split; [exact Hc|].
  exact (build_leaves_is_fk_false Sample.shop "2024-01-01T00:00:00"
           empty_storage _ Hc).
Defined.

Lemma create_fk_edges_loop_spec (fks : list ForeignKeyInfo)
    (seen : gset (string * string)) (acc : list Edge) :
  ∃ kept,
    _create_fk_edges_loop fks seen acc = acc ++ (fk_edge <$> kept)
    ∧ NoDup (fk_key <$> kept)
    ∧ (∀ fk, fk ∈ kept → fk_key fk ∉ seen)
    ∧ (∀ fk, fk ∈ fks → fk_key fk ∉ seen → fk_key fk ∈ fk_key <$> kept)
    ∧ (∀ fk, fk ∈ kept →
         ∃ pre post, fks = pre ++ fk :: post
                     ∧ ∀ fk', fk' ∈ pre → fk_key fk' ≠ fk_key fk).
Proof.
  revert seen acc. induction fks as [|fk fks IH]; intros seen acc.
  - exists []. simpl. rewrite app_nil_r.
    split_and!; [done|constructor|by intros ? ?%elem_of_nil..].
  - simpl. fold (fk_key fk). case_decide as Hseen.
    + destruct (IH seen acc) as (kept & Heq & Hnd & Hfresh & Hcov & Hfirst).
      exists kept. split_and!; [done..| |].
      * intros fk' [->|Hin]%elem_of_cons Hns; [done|]. by apply Hcov.
      * intros fk' Hin. destruct (Hfirst fk' Hin) as (pre & post & -> & Hpre).
        exists (fk :: pre), post. split; [done|].
        intros fk'' [->|Hin']%elem_of_cons; [|by apply Hpre].
        intros Heq'. apply (Hfresh fk' Hin). by rewrite <- Heq'.
    + destruct (IH ({[fk_key fk]} ∪ seen) (acc ++ [fk_edge fk]))
        as (kept & Heq & Hnd & Hfresh & Hcov & Hfirst).
      assert (∀ fk', fk' ∈ kept → fk_key fk' ≠ fk_key fk ∧ fk_key fk' ∉ seen)
        as Hfresh'.
      { intros fk' Hin. specialize (Hfresh fk' Hin).
        apply not_elem_of_union in Hfresh as [Hne ?].
        by apply not_elem_of_singleton in Hne. }
      exists (fk :: kept). split_and!.
      * rewrite Heq. by rewrite <- app_assoc.
      * rewrite fmap_cons. constructor; [|done].
        intros (fk' & Heq' & Hin)%list_elem_of_fmap.
        by destruct (Hfresh' fk' Hin).
      * intros fk' [->|Hin]%elem_of_cons; [done|].
        by destruct (Hfresh' fk' Hin).
      * intros fk' Hin Hns. rewrite fmap_cons.
        destruct (decide (fk_key fk' = fk_key fk)) as [->|Hne];
          [apply list_elem_of_here|].
        apply elem_of_cons in Hin as [->|Hin]; [done|].
        apply list_elem_of_further, Hcov; [done|].
        apply not_elem_of_union. split; [|done].
        by apply not_elem_of_singleton.
      * intros fk' [->|Hin]%elem_of_cons.
        { exists [], fks. split; [done|]. by intros ? ?%elem_of_nil. }
        destruct (Hfirst fk' Hin) as (pre & post & -> & Hpre).
        exists (fk :: pre), post. split; [done|].
        intros fk'' [->|Hin']%elem_of_cons; [|by apply Hpre].
        intros Heq'. by destruct (Hfresh' fk' Hin).
Qed.

Lemma fk_col_pairs_loop_fst (fk : ForeignKeyInfo) (ps : list (string * string))
    (i : nat) (acc : list Edge) (st : GraphStorage) :
  (fk_col_pairs_loop fk i ps acc st).1
  = acc ++ imap (λ j, fk_col_edge fk (i + j)) ps.
Proof.
  revert i acc st. induction ps as [|p ps IH]; intros i acc st; simpl.
  - by rewrite app_nil_r.
  - rewrite IH, <- app_assoc. simpl. rewrite Nat.add_0_r.
    do 2 f_equal. apply imap_ext. intros j x _. simpl. f_equal. lia.
Qed.

Lemma create_fk_column_edges_loop_fst (fks : list ForeignKeyInfo)
    (acc : list Edge) (st : GraphStorage) :
  (_create_fk_column_edges_loop fks acc st).1
  = acc ++ concat ((λ fk, imap (fk_col_edge fk) (column_pairs fk)) <$> fks).
Proof.
  revert acc st. induction fks as [|fk fks IH]; intros acc st; simpl.
  - by rewrite app_nil_r.
  - pose proof (fk_col_pairs_loop_fst fk (column_pairs fk) 0 acc st) as H.
    destruct (fk_col_pairs_loop fk 0 (column_pairs fk) acc st) as [acc' st'].
    simpl in H. subst acc'. by rewrite IH, <- app_assoc.
Qed.

(** What the two edge loops return: one [fk] edge per distinct ordered table
    pair, made from the first constraint of that pair in input order, and
    one [fk_col] edge per column pair of every constraint, duplicates
    included. *)
Lemma created_edges_spec (fks : list ForeignKeyInfo)
    (st : GraphStorage) :
  NoDup (edge_pair <$> _create_fk_edges fks)
  ∧ (∀ fk, fk ∈ fks → ∃ e, e ∈ _create_fk_edges fks ∧ edge_pair e = fk_key fk)
  ∧ (∀ e, e ∈ _create_fk_edges fks →
       ∃ pre fk post,
         fks = pre ++ fk :: post ∧ e = fk_edge fk
         ∧ ∀ fk', fk' ∈ pre → fk_key fk' ≠ fk_key fk)
  ∧ (_create_fk_column_edges fks st).1
    = concat ((λ fk, imap (fk_col_edge fk) (column_pairs fk)) <$> fks)
  ∧ length (_create_fk_column_edges fks st).1
    = sum_list_with
        (λ fk, (length (from_columns fk) `min` length (to_columns fk))%nat) fks.
Proof.
  unfold _create_fk_edges, _create_fk_column_edges.
  destruct (create_fk_edges_loop_spec fks ∅ (@nil Edge))
    as (kept & Hkept & Hnd & _ & Hcov & Hfirst).
  rewrite Hkept.
  rewrite create_fk_column_edges_loop_fst. simpl.
  split_and!.
  - by rewrite <- list_fmap_compose.
  - intros fk Hin.
    pose proof (Hcov fk Hin (not_elem_of_empty _)) as Hk.
    apply list_elem_of_fmap in Hk as (fk' & Heq & Hin').
    exists (fk_edge fk'). split; [by apply list_elem_of_fmap_2|].
    by rewrite Heq.
  - intros e (fk & -> & Hin)%list_elem_of_fmap.
    destruct (Hfirst fk Hin) as (pre & post & ? & ?). by exists pre, fk, post.
  - done.
  - clear. induction fks as [|fk fks IH]; [done|].
    rewrite fmap_cons. simpl. rewrite length_app, IH, length_imap.
    unfold column_pairs. by rewrite length_zip.
Qed.

(** ** The primary keys *)

Lemma NoDup_replace {A} (f : A → string) (l : list A) (x : A) :
  NoDup (f <$> l) →
  NoDup (f <$> (filter (λ y, f y ≠ f x) l ++ [x])).
Proof.
  intros Hnd. rewrite fmap_app. apply NoDup_app. split_and!.
  - induction l as [|y l IH]; [constructor|].
    rewrite fmap_cons in Hnd. apply NoDup_cons in Hnd as [Hy Hnd].
    rewrite filter_cons. case_decide; [|by apply IH].
    rewrite fmap_cons. apply NoDup_cons. split; [|by apply IH].
    intros (z & Heq & Hz%list_elem_of_filter)%list_elem_of_fmap.
    apply Hy. rewrite Heq. apply list_elem_of_fmap_2. by destruct Hz.
  - intros i (z & -> & Hz%list_elem_of_filter)%list_elem_of_fmap.
    intros Heq%list_elem_of_singleton. by destruct Hz.
  - apply NoDup_singleton.
Qed.

Lemma empty_storage_wf : store_wf empty_storage.
Proof. split_and!; constructor. Qed.

Lemma add_node_wf (n : Node) (st : GraphStorage) :
  store_wf st → store_wf (add_node n st).
Proof.
  intros (Hn & He & Hm). split_and!; [|done..].
  by apply (NoDup_replace node_id).
Qed.

Lemma add_edge_wf (e : Edge) (st : GraphStorage) :
  store_wf st → store_wf (add_edge e st).
Proof.
  intros (Hn & He & Hm). split_and!; [done| |done].
  by apply (NoDup_replace edge_id).
Qed.

Lemma set_metadata_wf (k : string) (v : value) (st : GraphStorage) :
  store_wf st → store_wf (set_metadata k v st).
Proof.
  intros (Hn & He & Hm). split_and!; [done..|].
  by apply (NoDup_replace fst (metadata st) (k, v)).
Qed.

Lemma add_nodes_wf (ns : list Node) (st : GraphStorage) :
  store_wf st → store_wf (add_nodes ns st).
Proof.
  revert st. induction ns as [|n ns IH]; intros st Hwf; [done|].
  apply IH. by apply add_node_wf.
Qed.

Lemma add_edges_wf (es : list Edge) (st : GraphStorage) :
  store_wf st → store_wf (add_edges es st).
Proof.
  revert st. induction es as [|e es IH]; intros st Hwf; [done|].
  apply IH. by apply add_edge_wf.
Qed.

Lemma mark_column_as_fk_wf (i : string) (st : GraphStorage) :
  store_wf st → store_wf (_mark_column_as_fk i st).
Proof.
  intros Hwf. unfold _mark_column_as_fk.
  destruct (get_node i st); [by apply add_node_wf|done].
Qed.

Lemma fk_col_pairs_loop_wf (fk : ForeignKeyInfo) (ps : list (string * string))
    (i : nat) (acc : list Edge) (st : GraphStorage) :
  store_wf st → store_wf (fk_col_pairs_loop fk i ps acc st).2.
Proof.
  revert i acc st. induction ps as [|p ps IH]; intros i acc st Hwf; [done|].
  simpl. by apply IH, mark_column_as_fk_wf.
Qed.

Lemma create_fk_column_edges_loop_wf (fks : list ForeignKeyInfo)
    (acc : list Edge) (st : GraphStorage) :
  store_wf st → store_wf (_create_fk_column_edges_loop fks acc st).2.
Proof.
  revert acc st. induction fks as [|fk fks IH]; intros acc st Hwf; [done|].
  simpl.
  pose proof (fk_col_pairs_loop_wf fk (column_pairs fk) 0 acc st Hwf) as H.
  destruct (fk_col_pairs_loop fk 0 (column_pairs fk) acc st) as [acc' st'].
  by apply IH.
Qed.

(** [build] keeps the ids of the store unique. *)
Lemma build_wf (md : RawMetadata) (clear_existing : bool) (now : string)
    (st : GraphStorage) :
  store_wf st → store_wf (build md clear_existing now st).2.
Proof.
  intros Hwf. unfold build.
  assert (store_wf (if clear_existing then clear st else st)) as Hwf0.
  { destruct clear_existing; [apply empty_storage_wf|done]. }
  pose proof (create_fk_column_edges_loop_wf (foreign_keys md) [] _ Hwf0) as H.
  unfold _create_fk_column_edges.
  destruct (_create_fk_column_edges_loop (foreign_keys md) []
              (if clear_existing then clear st else st)) as [es st'].
  simpl in *.
  by do 4 apply set_metadata_wf; do 2 apply add_edges_wf;
    do 2 apply add_nodes_wf.
Qed.

(** ** Adjacency index *)

Lemma adj_get_append (k u : string) (x : string * Edge)
    (adj : gmap string (list (string * Edge))) :
  adj_get (adj_append k x adj) u
  = if decide (k = u) then adj_get adj u ++ [x] else adj_get adj u.
Proof.
  unfold adj_get, adj_append. case_decide as Hk.
  - subst. by rewrite lookup_insert_eq.
  - by rewrite lookup_insert_ne.
Qed.

Lemma adj_add_edge_entries (adj : gmap string (list (string * Edge)))
    (e : Edge) (u v : string) (e' : Edge) :
  (v, e') ∈ adj_get (adj_add_edge adj e) u
  ↔ (v, e') ∈ adj_get adj u ∨ entry_of e u v e'.
Proof.
  unfold adj_add_edge, entry_of. rewrite !adj_get_append.
  repeat case_decide; subst;
    rewrite ?elem_of_app, ?list_elem_of_singleton; naive_solver.
Qed.

Lemma fold_adj_entries (es : list Edge)
    (adj : gmap string (list (string * Edge))) (u v : string) (e' : Edge) :
  (v, e') ∈ adj_get (fold_left adj_add_edge es adj) u
  ↔ (v, e') ∈ adj_get adj u ∨ ∃ e, e ∈ es ∧ entry_of e u v e'.
Proof.
  revert adj. induction es as [|e es IH]; intros adj; simpl.
  - split; [by left|]. intros [?|(e & ?%elem_of_nil & _)]; done.
  - rewrite IH, adj_add_edge_entries. split.
    + intros [[?|?]|(e0 & ? & ?)]; [by left|right; exists e|right; exists e0];
        split; try done; [apply list_elem_of_here|by apply list_elem_of_further].
    + intros [?|(e0 & [->|?]%elem_of_cons & ?)];
        [by left; left|by left; right|right; by exists e0].
Qed.

Lemma elem_of_get_edges_by_type (t : string) (st : GraphStorage) (e : Edge) :
  e ∈ get_edges_by_type t st ↔ e ∈ edges st ∧ edge_type e = t.
Proof.
  unfold get_edges_by_type. rewrite !list_elem_of_In, filter_In.
  by rewrite String.eqb_eq.
Qed.

(** The adjacency index holds exactly the forward and the reverse entry of
    every [fk] edge of the store. *)
Lemma build_adjacency_entries (st : GraphStorage) (u v : string) (e' : Edge) :
  (v, e') ∈ adj_get (_build_adjacency st) u
  ↔ ∃ e, e ∈ edges st ∧ edge_type e = "fk" ∧ entry_of e u v e'.
Proof.
  unfold _build_adjacency. rewrite fold_adj_entries. split.
  - intros [Hin|(e & He & Hent)].
    + unfold adj_get in Hin. rewrite lookup_empty in Hin.
      by apply elem_of_nil in Hin.
    + apply elem_of_get_edges_by_type in He as [? ?]. by exists e.
  - intros (e & ? & ? & ?). right. exists e.
    by rewrite elem_of_get_edges_by_type.
Qed.

(** C4, as the code has it: in the index built by the constructor or rebuilt
    by [refresh], every [fk] edge of the store has its forward entry under
    [from_id] and a reverse entry under [to_id] with the same weight; the
    attributes of the reverse entry are the original ones overridden by
    [reverse = True] and by [original_direction = "from"]. *)
Theorem adjacency_has_forward_and_reverse (eng : QueryEngine)
    (adj : gmap string (list (string * Edge))) (e : Edge) :
  adj = _adjacency (new_engine (storage eng))
  ∨ adj = _adjacency (refresh eng) →
  e ∈ edges (storage eng) →
  edge_type e = "fk" →
  (to_id e, e) ∈ adj_get adj (from_id e)
  ∧ ∃ r, (from_id e, r) ∈ adj_get adj (to_id e)
         ∧ from_id r = to_id e ∧ to_id r = from_id e
         ∧ weight r = weight e
         ∧ edge_data r !! "reverse" = Some (VBool true)
         ∧ edge_data r !! "original_direction" = Some (VStr "from")
         ∧ ∀ k, k ≠ "reverse" → k ≠ "original_direction" →
                edge_data r !! k = edge_data e !! k.
Proof.
  intros Hadj Hin Hty.
  assert (adj = _build_adjacency (storage eng)) as -> by (by destruct Hadj).
  assert (∀ u v e', entry_of e u v e' →
            (v, e') ∈ adj_get (_build_adjacency (storage eng)) u) as Hent.
  { intros u v e' H. apply build_adjacency_entries. by exists e. }
  split; [apply Hent; by left|].
  exists (reverse_edge e).
  split_and!; [apply Hent; by right|done|done|done| | |].
  - simpl. rewrite lookup_insert_ne by done. by rewrite lookup_insert_eq.
  - simpl. by rewrite lookup_insert_eq.
  - intros k Hk1 Hk2. simpl. by rewrite !lookup_insert_ne.
Qed.

Lemma adjacency_has_forward_and_reverse_witness :
  (_adjacency (refresh (new_engine Sample.tagged_store))
   = _adjacency (new_engine (storage (new_engine Sample.tagged_store)))
   ∨ _adjacency (refresh (new_engine Sample.tagged_store))
     = _adjacency (refresh (new_engine Sample.tagged_store)))
  ∧ Sample.tagged_edge ∈ edges (storage (new_engine Sample.tagged_store))
  ∧ edge_type Sample.tagged_edge = "fk"
  ∧ (("B", Sample.tagged_edge)
       ∈ adj_get (_adjacency (refresh (new_engine Sample.tagged_store))) "A"
     ∧ ∃ r, ("A", r)
              ∈ adj_get (_adjacency (refresh (new_engine Sample.tagged_store))) "B"
            ∧ from_id r = "B" ∧ to_id r = "A"
            ∧ weight r = 1
            ∧ edge_data r !! "reverse" = Some (VBool true)
            ∧ edge_data r !! "original_direction" = Some (VStr "from")
            ∧ ∀ k, k ≠ "reverse" → k ≠ "original_direction" →
                   edge_data r !! k = edge_data Sample.tagged_edge !! k).
Proof.
  assert (Sample.tagged_edge ∈ edges (storage (new_engine Sample.tagged_store)))
    as Hin by (vm_compute; apply list_elem_of_here).
  split; [right; reflexivity|]. split; [exact Hin|]. split; [reflexivity|].
  exact (adjacency_has_forward_and_reverse (new_engine Sample.tagged_store)
           (_adjacency (refresh (new_engine Sample.tagged_store)))
           Sample.tagged_edge (or_intror eq_refl) Hin eq_refl).
Defined.

(** The claim of C4 as it is worded: the reverse entry keeps the original
    attributes and adds the reverse flag. It fails on an edge that carries an
    [original_direction] attribute of its own, which the reverse entry
    overwrites. *)
Lemma reverse_entry_overrides_attribute :
  ¬ (∀ (st : GraphStorage) (e : Edge),
       e ∈ edges st → edge_type e = "fk" →
       ∃ r, (from_id e, r) ∈ adj_get (_adjacency (new_engine st)) (to_id e)
            ∧ weight r = weight e
            ∧ edge_data r !! "reverse" = Some (VBool true)
            ∧ ∀ k v, k ≠ "reverse" → edge_data e !! k = Some v →
                     edge_data r !! k = Some v).
Proof.
  intros H.
  destruct (H Sample.tagged_store Sample.tagged_edge) as (r & Hr & _ & _ & Hdata).
  { vm_compute. apply list_elem_of_here. }
  { reflexivity. }
  apply build_adjacency_entries in Hr as (e & He & _ & Hent).
  assert (e = Sample.tagged_edge) as ->.
  { vm_compute in He. by apply list_elem_of_singleton in He. }
  assert (edge_data r !! "original_direction" = Some (VStr "from")) as Hod.
  { destruct Hent as [(Hu & _ & _)|(_ & _ & ->)]; [discriminate Hu|].
    simpl. by rewrite lookup_insert_eq. }
  rewrite (Hdata "original_direction" (VStr "to")) in Hod; [discriminate Hod|done|].
  reflexivity.
Qed.

(** ** Input contract and trivial paths *)

(** C9: with fewer than two tables both [generate_join] and
    [find_multi_path] return a failed result carrying an explanatory
    message (and, for the join, empty SQL); neither raises. *)
Theorem fewer_than_two_tables_is_failed_result (eng : QueryEngine)
    (ts : list string) (select_all : bool) :
  (length ts < 2)%nat →
  generate_join eng ts select_all
  = Ok (mkJoinResult false "" ts []
          "Need at least two tables to generate a join.")
  ∧ find_multi_path eng ts
    = Ok (mkPathResult false ts [] 0
            "Need at least two tables to find a path.").
Proof.
  intros Hlen. unfold generate_join, find_multi_path.
  apply Nat.ltb_lt in Hlen. by rewrite Hlen.
Qed.

Lemma fewer_than_two_tables_is_failed_result_witness :
  (length ["dbo.Users"] < 2)%nat
  ∧ generate_join Sample.shop_engine ["dbo.Users"] true
    = Ok (mkJoinResult false "" ["dbo.Users"] []
            "Need at least two tables to generate a join.")
  ∧ find_multi_path Sample.shop_engine ["dbo.Users"]
    = Ok (mkPathResult false ["dbo.Users"] [] 0
            "Need at least two tables to find a path.").
Proof.
  assert (length ["dbo.Users"] < 2)%nat as Hlen by (simpl; lia).
  split; [exact Hlen|].
  exact (fewer_than_two_tables_is_failed_result Sample.shop_engine
           ["dbo.Users"] true Hlen).
Defined.

(** C3, as the code has it: [find_path(x, x)] is the trivial one-node path
    whenever [x] resolves to a non-empty id. *)
Theorem find_path_same_table (eng : QueryEngine) (x r : string) :
  _resolve_table_name (storage eng) x = Ok (Some r) →
  r ≠ "" →
  ∃ res, find_path eng x x = Ok res
         ∧ found res = true ∧ path res = [r] ∧ path_edges res = []
         ∧ total_weight res = 0.
Proof.
  intros Hres Hne. unfold find_path. rewrite Hres. simpl.
  apply String.eqb_neq in Hne. rewrite Hne. simpl.
  rewrite String.eqb_refl. by eexists.
Qed.

Lemma find_path_same_table_witness :
  _resolve_table_name (storage Sample.shop_engine) "users" = Ok (Some "dbo.Users")
  ∧ "dbo.Users" ≠ ""
  ∧ ∃ res, find_path Sample.shop_engine "users" "users" = Ok res
           ∧ found res = true ∧ path res = ["dbo.Users"]
           ∧ path_edges res = [] ∧ total_weight res = 0.
Proof.
  assert (_resolve_table_name (storage Sample.shop_engine) "users"
          = Ok (Some "dbo.Users")) as Hres by (vm_compute; reflexivity).
  assert ("dbo.Users" ≠ "") as Hne by discriminate.
  split; [exact Hres|]. split; [exact Hne|].
  exact (find_path_same_table Sample.shop_engine "users" "dbo.Users" Hres Hne).
Defined.

(** The claim of C3 as it is worded fails for a table whose id is the empty
    string: the name resolves, and the truthiness test of [find_path] takes
    the resolved id for a missing one. *)
Lemma find_path_same_table_empty_id :
  ¬ (∀ (eng : QueryEngine) (x r : string),
       _resolve_table_name (storage eng) x = Ok (Some r) →
       ∃ res, find_path eng x x = Ok res
              ∧ found res = true ∧ path res = [r] ∧ path_edges res = []
              ∧ total_weight res = 0).
Proof.
  intros H.
  destruct (H (new_engine Sample.nameless_store) "" "") as (res & Hres & Hf & _).
  { vm_compute. reflexivity. }
  vm_compute in Hres. injection Hres as <-. discriminate Hf.
Qed.

(** ** Join predicates *)

(** C1, at the join of [tests/test_core.py]: the path from Users to Orders
    runs against the foreign key Orders.UserId -> Users.Id, and the ON
    condition the code writes pairs the Orders alias with the Users column
    and the Users alias with the Orders column. *)
Theorem reverse_join_condition_swaps_columns :
  ∃ r, generate_join Sample.shop_engine ["dbo.Users"; "dbo.Orders"] true = Ok r
       ∧ success r = true
       ∧ ji_on_conditions <$> joins r = [["o.Id = u.UserId"]]
       ∧ sql r = "SELECT" +:+ nl +:+ "    u.*," +:+ nl +:+ "    o.*" +:+ nl
                 +:+ "FROM dbo.Users u" +:+ nl +:+ "JOIN dbo.Orders o" +:+ nl
                 +:+ "    ON o.Id = u.UserId;".
Proof. vm_compute. eexists. split_and!; reflexivity. Qed.

(** ** Alias assignment *)

Lemma alias_loop_fresh (fuel : nat) (name base : string) (used : gset string)
    (counter : nat) (alias a : string) :
  alias_loop fuel name base used counter alias = Ok a → a ∉ used.
Proof.
  revert counter alias. induction fuel as [|fuel IH]; intros counter alias; simpl.
  - case_decide; [done|]. by intros [= <-].
  - case_decide; [apply IH|]. by intros [= <-].
Qed.

Lemma alias_loop_no_raise (fuel : nat) (name base : string) (used : gset string)
    (counter : nat) (alias : string) (e : exn) :
  alias_loop fuel name base used counter alias ≠ Raise e.
Proof.
  revert counter alias. induction fuel as [|fuel IH]; intros counter alias; simpl;
    case_decide; try done.
Qed.

(** When the loop runs out of fuel, every candidate it tried is taken. *)
Lemma alias_loop_out_of_fuel (fuel : nat) (name base : string)
    (used : gset string) (counter : nat) (alias : string) :
  alias_loop fuel name base used counter alias = OutOfFuel →
  ∀ k, (counter < k ≤ counter + fuel)%nat → alias_candidate name base k ∈ used.
Proof.
  revert counter alias. induction fuel as [|fuel IH]; intros counter alias; simpl.
  - intros _ k Hk. lia.
  - case_decide as Hin; [|done]. intros Hout k Hk.
    destruct (decide (k = S counter)) as [->|Hne].
    + destruct fuel; simpl in Hout; by case_decide.
    + apply (IH _ _ Hout). lia.
Qed.

(** The numbered candidates are pairwise distinct, so a finite [used] cannot
    hold more of them than it has elements. *)
Lemma numbered_aliases_not_all_used (base : string) (used : gset string) :
  ¬ (∀ j, (1 ≤ j ≤ S (size used))%nat → base +:+ pretty j ∈ used).
Proof.
  intros Hall.
  set (l := (λ j : nat, base +:+ pretty j) <$> seq 1 (S (size used))).
  assert (NoDup l) as Hnd.
  { apply NoDup_fmap_2; [|apply NoDup_seq].
    intros i j Hij. by apply (inj (String.app base)), (inj pretty) in Hij. }
  assert (list_to_set l ⊆ used) as Hsub.
  { intros x Hx. apply elem_of_list_to_set in Hx.
    apply list_elem_of_fmap in Hx as (j & -> & Hj).
    apply elem_of_seq in Hj. apply Hall. lia. }
  apply subseteq_size in Hsub. rewrite size_list_to_set in Hsub by done.
  unfold l in Hsub. rewrite length_fmap, length_seq in Hsub. lia.
Qed.

Lemma alias_loop_terminates (name base : string) (used : gset string)
    (alias : string) :
  (1 ≤ String.length name)%nat →
  alias_loop (String.length name + size used + 1) name base used 1 alias
  ≠ OutOfFuel.
Proof.
  intros Hlen Hout.
  apply (numbered_aliases_not_all_used base used). intros j Hj.
  pose proof (alias_loop_out_of_fuel _ _ _ _ _ _ Hout (String.length name + j)) as H.
  unfold alias_candidate in H.
  destruct (Nat.leb_spec (String.length name + j) (String.length name)); [lia|].
  replace (String.length name + j - String.length name)%nat with j in H by lia.
  apply H. lia.
Qed.

Lemma alias_step_inv (table : string) (st st' : gmap string string * gset string) :
  aliases_inv st → alias_step table st = Ok st' →
  aliases_inv st' ∧ dom st'.1 = {[table]} ∪ dom st.1.
Proof.
  destruct st as [aliases used]. intros [Hused Hinj]. unfold alias_step.
  destruct (short_name table) as [|c rest] eqn:Hname; [done|].
  destruct (alias_loop _ _ _ _ _ _) as [alias| |] eqn:Hloop; [|done..].
  apply alias_loop_fresh in Hloop. simpl. intros [= <-]. simpl in *.
  split; [split|].
  - intros t a. simpl. rewrite lookup_insert. case_decide.
    + intros [= <-]. apply elem_of_union_l. by apply elem_of_singleton.
    + intros Ht. apply elem_of_union_r. by apply (Hused t).
  - intros t1 t2 a1 a2 Hne. simpl. rewrite !lookup_insert.
    repeat case_decide; subst; try done.
    + intros [= <-] H2 ->. by apply Hloop, (Hused t2).
    + intros H1 [= <-] ->. by apply Hloop, (Hused t1).
    + by apply Hinj.
  - by rewrite dom_insert_L.
Qed.

Lemma alias_step_total (table : string) (st : gmap string string * gset string) :
  alias_step table st ≠ OutOfFuel
  ∧ (short_name table ≠ "" → ∃ st', alias_step table st = Ok st').
Proof.
  destruct st as [aliases used]. unfold alias_step.
  destruct (short_name table) as [|c rest] eqn:Hname; [done|].
  pose proof (alias_loop_terminates (String c rest) (lower (String c ""))
                used (lower (String c ""))) as Hterm.
  pose proof (alias_loop_no_raise (String.length (String c rest) + size used + 1)
                (String c rest) (lower (String c "")) used 1
                (lower (String c ""))) as Hraise.
  destruct (alias_loop _ _ _ _ _ _) as [alias|e|] eqn:Hloop.
  - split; [done|]. intros _. by eexists.
  - by destruct (Hraise e).
  - destruct Hterm; [simpl; lia|done].
Qed.

Lemma aliases_loop_inv (ts : list string) (st st' : gmap string string * gset string) :
  aliases_inv st → aliases_loop ts st = Ok st' →
  aliases_inv st' ∧ dom st'.1 = list_to_set ts ∪ dom st.1.
Proof.
  revert st. induction ts as [|t ts IH]; intros st Hinv; simpl.
  - intros [= <-]. split; [done|]. by rewrite union_empty_l_L.
  - destruct (alias_step t st) as [st1| |] eqn:Hstep; [|done..]. simpl.
    destruct (alias_step_inv _ _ _ Hinv Hstep) as [Hinv1 Hdom1].
    intros Hloop. destruct (IH _ Hinv1 Hloop) as [Hinv' Hdom'].
    split; [done|]. rewrite Hdom', Hdom1. set_solver.
Qed.

Lemma aliases_loop_total (ts : list string) (st : gmap string string * gset string) :
  aliases_loop ts st ≠ OutOfFuel
  ∧ (Forall (λ t, short_name t ≠ "") ts → ∃ st', aliases_loop ts st = Ok st').
Proof.
  revert st. induction ts as [|t ts IH]; intros st; simpl.
  - split; [done|]. intros _. by eexists.
  - destruct (alias_step_total t st) as [Hfuel Hok].
    destruct (alias_step t st) as [st1| |] eqn:Hstep; simpl.
    + destruct (IH st1) as [? Hok']. split; [done|].
      intros Hall. apply Hok'. by inversion Hall.
    + split; [done|]. intros Hall. inversion Hall as [|? ? Hne]; subst.
      by destruct (Hok Hne).
    + done.
Qed.

(** C7: alias generation returns a mapping whenever every table has a
    non-empty short name, it never fails to terminate, and the mapping it
    returns covers the tables passed and gives two distinct tables two
    distinct aliases. *)
Theorem aliases_distinct (ts : list string) :
  _generate_aliases ts ≠ OutOfFuel
  ∧ (Forall (λ t, short_name t ≠ "") ts → ∃ m, _generate_aliases ts = Ok m)
  ∧ ∀ m, _generate_aliases ts = Ok m →
         dom m = list_to_set ts
         ∧ ∀ t1 t2 a1 a2, t1 ≠ t2 → m !! t1 = Some a1 → m !! t2 = Some a2 →
                          a1 ≠ a2.
Proof.
  unfold _generate_aliases.
  destruct (aliases_loop_total ts (∅, ∅)) as [Hfuel Hok].
  split_and!.
  - by destruct (aliases_loop ts (∅, ∅)).
  - intros Hall. destruct (Hok Hall) as [st' ->]. by eexists.
  - intros m. destruct (aliases_loop ts (∅, ∅)) as [st'| |] eqn:Hloop; [|done..].
    simpl. intros [= <-].
    destruct (aliases_loop_inv ts (∅, ∅) st') as [[_ Hinj] Hdom]; [|done|].
    { split; simpl; intros *; by rewrite ?lookup_empty. }
    split; [|done]. simpl in Hdom. by rewrite Hdom, dom_empty_L, union_empty_r_L.
Qed.

(** ** The heap *)

Lemma heap_min_in (cur : Z * string) (h : list (Z * string)) :
  heap_min cur h ∈ cur :: h.
Proof.
  revert cur. induction h as [|x h IH]; intros cur; simpl.
  - apply list_elem_of_here.
  - specialize (IH (if tuple_lt x cur then x else cur)).
    apply elem_of_cons in IH as [->|IH].
    + destruct (tuple_lt x cur);
        [apply list_elem_of_further|]; apply list_elem_of_here.
    + by do 2 apply list_elem_of_further.
Qed.

Lemma tuple_lt_fst (a b : Z * string) :
  (if tuple_lt a b then a else b).1 ≤ a.1
  ∧ (if tuple_lt a b then a else b).1 ≤ b.1.
Proof.
  unfold tuple_lt.
  destruct (Z.ltb_spec a.1 b.1); simpl; [lia|].
  destruct (Z.eqb_spec a.1 b.1); simpl; [|lia].
  destruct (String.ltb a.2 b.2); lia.
Qed.

Lemma heap_min_le (cur : Z * string) (h : list (Z * string)) (x : Z * string) :
  x ∈ cur :: h → (heap_min cur h).1 ≤ x.1.
Proof.
  revert cur x. induction h as [|y h IH]; intros cur x; simpl.
  - intros ->%list_elem_of_singleton. lia.
  - pose proof (tuple_lt_fst y cur) as [Hy Hc].
    pose proof (IH (if tuple_lt y cur then y else cur) _
                  (list_elem_of_here _ _)) as Hmin.
    intros [->|[->|Hx]%elem_of_cons]%elem_of_cons; [lia|lia|].
    by apply IH, list_elem_of_further.
Qed.

Lemma remove_first_subset (m x : Z * string) (h : list (Z * string)) :
  x ∈ remove_first m h → x ∈ h.
Proof.
  induction h as [|y h IH]; simpl; [done|].
  case_decide; [by apply list_elem_of_further|].
  intros [->|?]%elem_of_cons;
    [apply list_elem_of_here|by apply list_elem_of_further, IH].
Qed.

Lemma remove_first_other (m x : Z * string) (h : list (Z * string)) :
  x ∈ h → x ≠ m → x ∈ remove_first m h.
Proof.
  intros Hx Hne. induction h as [|y h IH]; simpl; [done|].
  apply elem_of_cons in Hx as [->|Hx].
  - case_decide; [done|apply list_elem_of_here].
  - case_decide; [done|by apply list_elem_of_further, IH].
Qed.

Lemma remove_first_length (m : Z * string) (h : list (Z * string)) :
  m ∈ h → length h = S (length (remove_first m h)).
Proof.
  induction h as [|y h IH]; simpl; [by intros ?%elem_of_nil|].
  case_decide as Hy; [done|].
  intros [->|Hm]%elem_of_cons; [done|]. simpl. by rewrite <- IH.
Qed.

Lemma heappop_spec (h h' : list (Z * string)) (m : Z * string) :
  heappop h = Some (m, h') →
  m ∈ h ∧ (∀ x, x ∈ h → m.1 ≤ x.1)
  ∧ length h = S (length h')
  ∧ (∀ x, x ∈ h' → x ∈ h)
  ∧ (∀ x, x ∈ h → x ≠ m → x ∈ h').
Proof.
  destruct h as [|y h]; [done|]. unfold heappop. intros [= <- <-].
  pose proof (heap_min_in y h) as Hin.
  split_and!.
  - done.
  - by apply heap_min_le.
  - exact (remove_first_length _ (y :: h) Hin).
  - exact (λ x, remove_first_subset _ x (y :: h)).
  - exact (λ x, remove_first_other _ x (y :: h)).
Qed.

Lemma heappop_none (h : list (Z * string)) : heappop h = None → h = [].
Proof. by destruct h. Qed.

(** ** Invariant of the search *)

Section search.
Context (adj : gmap string (list (string * Edge))) (s t : string).

Lemma tree_path_insert (prev : gmap string (string * Edge)) (vis : gset string)
    (k : string) (x : string * Edge) (v : string) (p : list string)
    (es : list Edge) :
  k ∉ vis → tree_path prev vis s v p es →
  tree_path (<[k := x]> prev) vis s v p es.
Proof.
  intros Hk. induction 1 as [Hs Hin|v u e p es Hv Hin _ IH].
  - apply tree_root; [|done].
    rewrite lookup_insert_ne; [done|]. by intros ->.
  - apply tree_step with u; [|done..].
    rewrite lookup_insert_ne; [done|]. by intros ->.
Qed.

Lemma tree_path_mono (prev : gmap string (string * Edge)) (vis vis' : gset string)
    (v : string) (p : list string) (es : list Edge) :
  vis ⊆ vis' → tree_path prev vis s v p es → tree_path prev vis' s v p es.
Proof.
  intros Hsub. induction 1 as [Hs Hin|v u e p es Hv Hin _ IH].
  - apply tree_root; [done|]. by apply Hsub.
  - apply tree_step with u; [done| |done]. by apply Hsub.
Qed.

Lemma search_init_inv : search_inv adj s (search_init s).
Proof.
  split; simpl.
  - by rewrite lookup_singleton_eq.
  - by rewrite lookup_empty.
  - by right.
  - intros d v [= -> ->]%list_elem_of_singleton.
    exists 0. by rewrite lookup_singleton_eq.
  - intros d v [= _ ->]%list_elem_of_singleton. by left.
  - intros v d Hv _. apply lookup_singleton_Some in Hv as [<- <-].
    apply list_elem_of_here.
  - by intros v ?%not_elem_of_empty.
  - intros v u e. by rewrite lookup_empty.
  - by intros v ?%not_elem_of_empty.
Qed.

(** Popping an entry whose node is already visited. *)
Lemma pop_visited_inv (st : Search) (d : Z) (cur : string)
    (h' : list (Z * string)) :
  search_inv adj s st → heappop (heap st) = Some ((d, cur), h') →
  cur ∈ visited st →
  search_inv adj s (mkSearch (distances st) (previous st) h' (visited st)).
Proof.
  intros [Hsd Hsp Hsrc Hhd Hhp Hdh Hvd Hprev Htree] (Hin & Hmin & Hlen & Hsub & Hoth)%heappop_spec Hvis.
  split; simpl; try done.
  - destruct Hsrc as [?|Hh]; [by left|].
    rewrite Hh in Hin. apply list_elem_of_singleton in Hin as [= _ ->].
    by left.
  - intros d0 v Hv. by apply Hhd, Hsub.
  - intros d0 v Hv. by apply (Hhp d0), Hsub.
  - intros v d0 Hd Hnv. apply Hoth; [by apply Hdh|].
    intros [= _ ->]. done.
Qed.

(** Popping an entry whose node is new: the popped distance is the
    recorded one, and the node joins the visited set. *)
Lemma pop_new_inv (st : Search) (d : Z) (cur : string)
    (h' : list (Z * string)) :
  search_inv adj s st → heappop (heap st) = Some ((d, cur), h') →
  cur ∉ visited st →
  distances st !! cur = Some d
  ∧ s ∈ {[cur]} ∪ visited st
  ∧ search_inv adj s
      (mkSearch (distances st) (previous st) h' ({[cur]} ∪ visited st)).
Proof.
  intros [Hsd Hsp Hsrc Hhd Hhp Hdh Hvd Hprev Htree] (Hin & Hmin & Hlen & Hsub & Hoth)%heappop_spec Hvis.
  assert (distances st !! cur = Some d) as Hd.
  { destruct (Hhd d cur Hin) as (d' & Hd' & Hle).
    pose proof (Hmin _ (Hdh cur d' Hd' Hvis)) as Hge. simpl in Hge.
    rewrite Hd'. f_equal. lia. }
  assert (s ∈ {[cur]} ∪ visited st) as Hs.
  { destruct Hsrc as [?|Hh]; [by apply elem_of_union_r|].
    rewrite Hh in Hin. apply list_elem_of_singleton in Hin as [= _ ->].
    by apply elem_of_union_l, elem_of_singleton. }
  split; [done|]. split; [done|].
  split; simpl; try done.
  - by left.
  - intros d0 v Hv. by apply Hhd, Hsub.
  - intros d0 v Hv. by apply (Hhp d0), Hsub.
  - intros v d0 Hd0 Hnv. apply not_elem_of_union in Hnv as [Hne Hnv].
    apply not_elem_of_singleton in Hne.
    apply Hoth; [by apply Hdh|]. intros [= _ ->]. done.
  - intros v [->%elem_of_singleton|Hv]%elem_of_union; [by rewrite Hd|].
    by apply Hvd.
  - intros v u e Hp. destruct (Hprev v u e Hp) as (Hu & ? & ?).
    split; [by apply elem_of_union_r|done].
  - assert (∀ v p es, tree_path (previous st) (visited st) s v p es →
              tree_path (previous st) ({[cur]} ∪ visited st) s v p es) as Hmono.
    { intros v p es. apply tree_path_mono, union_subseteq_r. }
    rewrite size_union by (by apply disjoint_singleton_l).
    rewrite size_singleton.
    intros v [->%elem_of_singleton|Hv]%elem_of_union.
    + destruct (previous st !! cur) as [[u e]|] eqn:Hp.
      * destruct (Hprev cur u e Hp) as (Hu & _).
        destruct (Htree u Hu) as (p & es & Htp & Hlen').
        exists (p ++ [cur]), (es ++ [e]). split.
        -- apply tree_step with u; [done| |by apply Hmono].
           by apply elem_of_union_l, elem_of_singleton.
        -- rewrite length_app. simpl. lia.
      * destruct (Hhp d cur Hin) as [->|[? ?]]; [|congruence].
        exists [s], []. split; [by apply tree_root|simpl; lia].
    + destruct (Htree v Hv) as (p & es & Htp & Hlen').
      exists p, es. split; [by apply Hmono|lia].
Qed.

(** One relaxation, while [cur] is being expanded. *)
Lemma relax_inv (st : Search) (cur : string) (d : Z) (ne : string * Edge) :
  search_inv adj s st → s ∈ visited st → cur ∈ visited st →
  distances st !! cur = Some d → ne ∈ adj_get adj cur →
  search_inv adj s (relax cur d st ne).
Proof.
  intros Hinv Hs Hcur Hd Hne. destruct ne as [v e]. unfold relax.
  case_decide as Hv; [done|].
  assert (v ≠ s) as Hvs by (by intros ->).
  assert (v ≠ cur) as Hvc by (by intros ->).
  destruct (match distances st !! v with
            | Some d0 => d + weight e <? d0 | None => true end) eqn:Hbetter;
    [|done].
  destruct Hinv as [Hsd Hsp Hsrc Hhd Hhp Hdh Hvd Hprev Htree]. split; simpl.
  - by rewrite lookup_insert_ne.
  - by rewrite lookup_insert_ne.
  - by left.
  - intros d0 x [Hx|[= -> ->]%list_elem_of_singleton]%elem_of_app.
    + destruct (Hhd d0 x Hx) as (d' & Hd' & Hle).
      destruct (decide (x = v)) as [->|Hxv].
      * exists (d + weight e). rewrite lookup_insert_eq. split; [done|].
        rewrite Hd' in Hbetter. apply Z.ltb_lt in Hbetter. lia.
      * exists d'. by rewrite lookup_insert_ne.
    + exists (d + weight e). by rewrite lookup_insert_eq.
  - intros d0 x [Hx|[= -> ->]%list_elem_of_singleton]%elem_of_app.
    + destruct (Hhp d0 x Hx) as [?|Hp]; [by left|right].
      destruct (decide (x = v)) as [->|Hxv].
      * by rewrite lookup_insert_eq.
      * by rewrite lookup_insert_ne.
    + right. by rewrite lookup_insert_eq.
  - intros x d0. destruct (decide (x = v)) as [->|Hxv].
    + rewrite lookup_insert_eq. intros [= <-] _.
      apply elem_of_app. right. apply list_elem_of_here.
    + rewrite lookup_insert_ne by done. intros Hx Hnx.
      apply elem_of_app. left. by apply Hdh.
  - intros x Hx. destruct (decide (x = v)) as [->|Hxv]; [done|].
    rewrite lookup_insert_ne by done. by apply Hvd.
  - intros x u e0. destruct (decide (x = v)) as [->|Hxv].
    + rewrite lookup_insert_eq. intros [= <- <-].
      split; [done|]. split; [done|]. exists d.
      by rewrite lookup_insert_ne, lookup_insert_eq.
    + rewrite lookup_insert_ne by done. intros Hp.
      destruct (Hprev x u e0 Hp) as (Hu & Hadj & du & Hdu & Hdx).
      split; [done|]. split; [done|]. exists du.
      rewrite !lookup_insert_ne; [done|done|]. by intros ->.
  - intros x Hx. destruct (Htree x Hx) as (p & es & Htp & Hlen).
    exists p, es. split; [|done]. by apply tree_path_insert.
Qed.

Lemma relax_frame (st : Search) (cur : string) (d : Z) (ne : string * Edge) :
  visited (relax cur d st ne) = visited st
  ∧ (∀ x, x ∈ visited st →
       distances (relax cur d st ne) !! x = distances st !! x)
  ∧ (length (heap (relax cur d st ne)) ≤ S (length (heap st)))%nat.
Proof.
  destruct ne as [v e]. unfold relax.
  case_decide as Hv; [by split_and!; [done|done|lia]|].
  destruct (match distances st !! v with
            | Some d0 => d + weight e <? d0 | None => true end);
    simpl; split_and!; try done; try lia.
  - intros x Hx. rewrite lookup_insert_ne; [done|]. by intros ->.
  - unfold heappush. rewrite length_app. simpl. lia.
Qed.

Lemma fold_relax_frame (l : list (string * Edge)) (st : Search)
    (cur : string) (d : Z) :
  visited (fold_left (relax cur d) l st) = visited st
  ∧ (∀ x, x ∈ visited st →
       distances (fold_left (relax cur d) l st) !! x = distances st !! x)
  ∧ (length (heap (fold_left (relax cur d) l st))
     ≤ length (heap st) + length l)%nat.
Proof.
  revert st. induction l as [|ne l IH]; intros st; simpl.
  - split_and!; [done|done|lia].
  - destruct (relax_frame st cur d ne) as (Hv & Hd & Hl).
    destruct (IH (relax cur d st ne)) as (Hv' & Hd' & Hl').
    split_and!.
    + by rewrite Hv'.
    + intros x Hx. rewrite Hd'; [by apply Hd|by rewrite Hv].
    + lia.
Qed.

Lemma fold_relax_inv (l : list (string * Edge)) (st : Search)
    (cur : string) (d : Z) :
  (∀ ne, ne ∈ l → ne ∈ adj_get adj cur) →
  search_inv adj s st → s ∈ visited st → cur ∈ visited st →
  distances st !! cur = Some d →
  search_inv adj s (fold_left (relax cur d) l st).
Proof.
  revert st. induction l as [|ne l IH]; intros st Hl Hinv Hs Hcur Hd; [done|].
  simpl. destruct (relax_frame st cur d ne) as (Hv & Hdist & _).
  apply IH.
  - intros ne' ?. by apply Hl, list_elem_of_further.
  - apply relax_inv; try done. apply Hl, list_elem_of_here.
  - by rewrite Hv.
  - by rewrite Hv.
  - by rewrite Hdist.
Qed.

(** At loop exit the invariant holds, and either the heap is empty or the
    target has just been visited. *)
Lemma dijkstra_loop_inv (fuel : nat) (st st' : Search) :
  search_inv adj s st →
  dijkstra_loop fuel adj t st = Ok st' →
  search_inv adj s st' ∧ (heap st' = [] ∨ t ∈ visited st').
Proof.
  revert st. induction fuel as [|fuel IH]; intros st Hinv; [done|]. simpl.
  destruct (heappop (heap st)) as [[[d cur] h']|] eqn:Hpop.
  - case_decide as Hvis.
    + apply IH. by eapply pop_visited_inv.
    + destruct (pop_new_inv _ _ _ _ Hinv Hpop Hvis) as (Hd & Hs & Hinv1).
      destruct (String.eqb_spec cur t) as [->|Hne].
      * intros [= <-]. split; [done|]. right. simpl.
        by apply elem_of_union_l, elem_of_singleton.
      * apply IH. apply fold_relax_inv; try done.
        simpl. by apply elem_of_union_l, elem_of_singleton.
  - intros [= <-]. split; [done|]. left. by apply heappop_none.
Qed.

End search.

(** ** Termination of the search *)

Lemma unvisited_entries_empty (adj : gmap string (list (string * Edge))) :
  unvisited_entries adj ∅ = adj_size adj.
Proof. done. Qed.

Lemma unvisited_entries_visit (adj : gmap string (list (string * Edge)))
    (vis : gset string) (cur : string) :
  cur ∉ vis →
  (unvisited_entries adj ({[cur]} ∪ vis) + length (adj_get adj cur)
   ≤ unvisited_entries adj vis)%nat.
Proof.
  intros Hcur. unfold unvisited_entries, adj_get.
  pose (f := λ (w : gset string) (kl : string * list (string * Edge)),
               if decide (kl.1 ∈ w) then O else length kl.2).
  change (sum_list_with (f ({[cur]} ∪ vis)) (map_to_list adj)
          + length (default [] (adj !! cur))
          ≤ sum_list_with (f vis) (map_to_list adj))%nat.
  assert (∀ l, (sum_list_with (f ({[cur]} ∪ vis)) l
                ≤ sum_list_with (f vis) l)%nat) as Hmono.
  { induction l as [|kl l IH]; simpl; [done|].
    assert (f ({[cur]} ∪ vis) kl ≤ f vis kl)%nat; [|lia].
    unfold f. repeat case_decide; try lia.
    exfalso. by apply H, elem_of_union_r. }
  destruct (adj !! cur) as [l0|] eqn:Hl; simpl.
  - apply elem_of_map_to_list in Hl.
    apply list_elem_of_split in Hl as (l1 & l2 & ->).
    rewrite !sum_list_with_app. simpl.
    pose proof (Hmono l1). pose proof (Hmono l2).
    assert (f ({[cur]} ∪ vis) (cur, l0) = O) as ->.
    { unfold f. simpl. case_decide as Hc; [done|].
      exfalso. by apply Hc, elem_of_union_l, elem_of_singleton. }
    assert (f vis (cur, l0) = length l0) as ->.
    { unfold f. simpl. by case_decide. }
    lia.
  - pose proof (Hmono (map_to_list adj)). lia.
Qed.

Lemma dijkstra_loop_terminates (adj : gmap string (list (string * Edge)))
    (t : string) (fuel : nat) (st : Search) :
  (length (heap st) + unvisited_entries adj (visited st) < fuel)%nat →
  ∃ st', dijkstra_loop fuel adj t st = Ok st'.
Proof.
  revert st. induction fuel as [|fuel IH]; intros st Hfuel; [lia|]. simpl.
  destruct (heappop (heap st)) as [[[d cur] h']|] eqn:Hpop; [|by eexists].
  apply heappop_spec in Hpop as (_ & _ & Hlen & _ & _).
  case_decide as Hvis.
  - apply IH. simpl. lia.
  - destruct (String.eqb cur t); [by eexists|].
    apply IH.
    destruct (fold_relax_frame (adj_get adj cur)
                (mkSearch (distances st) (previous st) h' ({[cur]} ∪ visited st))
                cur d) as (Hv & _ & Hh).
    rewrite Hv. simpl in *.
    pose proof (unvisited_entries_visit adj (visited st) cur Hvis). lia.
Qed.

(** ** Path reconstruction *)

Lemma edges_weight_snoc (es : list Edge) (e : Edge) :
  edges_weight (es ++ [e]) = edges_weight es + weight e.
Proof.
  induction es as [|e0 es IH]; simpl; [lia|].
  unfold edges_weight in *. simpl. rewrite IH. lia.
Qed.

Lemma edges_weight_app (es1 es2 : list Edge) :
  edges_weight (es1 ++ es2) = edges_weight es1 + edges_weight es2.
Proof.
  induction es1 as [|e0 es IH]; simpl; [done|].
  unfold edges_weight in *. simpl. rewrite IH. lia.
Qed.

Lemma chain_length (adj : gmap string (list (string * Edge)))
    (p : list string) (es : list Edge) :
  chain adj p es → length p = S (length es).
Proof. induction 1; simpl; by f_equal. Qed.

Lemma chain_snoc (adj : gmap string (list (string * Edge)))
    (p : list string) (es : list Edge) (u v : string) (e : Edge) :
  chain adj p es → last p = Some u → (v, e) ∈ adj_get adj u →
  chain adj (p ++ [v]) (es ++ [e]).
Proof.
  intros Hc. revert u. induction Hc as [w|w x p e0 es Hwx Hc IH]; intros u Hlast Hadj.
  - simpl in Hlast. injection Hlast as ->. simpl.
    apply chain_cons; [done|apply chain_one].
  - simpl. apply chain_cons; [done|]. by apply (IH u).
Qed.

(** Two chains that meet compose. *)
Lemma chain_app (adj : gmap string (list (string * Edge)))
    (p1 p2 : list string) (es1 es2 : list Edge) (u : string) :
  chain adj p1 es1 → last p1 = Some u → chain adj (u :: p2) es2 →
  chain adj (p1 ++ p2) (es1 ++ es2).
Proof.
  intros Hc. induction Hc as [w|w x p e0 es Hwx Hc IH]; intros Hlast Hc2.
  - simpl in Hlast. by injection Hlast as ->.
  - simpl. apply chain_cons; [done|]. by apply IH.
Qed.

Section reconstruct.
Context (adj : gmap string (list (string * Edge))) (s : string).

Lemma tree_path_shape (prev : gmap string (string * Edge)) (vis : gset string)
    (v : string) (p : list string) (es : list Edge) :
  tree_path prev vis s v p es → p = s :: tail p ∧ last p = Some v.
Proof.
  induction 1 as [|v u e p es Hv Hin _ [IHp _]]; [done|].
  rewrite last_snoc. split; [|done].
  destruct p as [|x p']; [done|]. simpl in *. by injection IHp as ->.
Qed.

(** A tree path is a chain of the index, and the recorded distance of its
    end is the weight of its edges. *)
Lemma tree_path_chain (st : Search) (v : string) (p : list string)
    (es : list Edge) :
  search_inv adj s st →
  tree_path (previous st) (visited st) s v p es →
  chain adj p es ∧ distances st !! v = Some (edges_weight es).
Proof.
  intros Hinv. induction 1 as [|v u e p es Hv Hin Htp [IHc IHd]].
  - split; [apply chain_one|]. by destruct Hinv.
  - destruct (inv_prev _ _ _ Hinv v u e Hv) as (_ & Hadj & du & Hdu & Hdv).
    split.
    + apply chain_snoc with u; [done| |done].
      by apply tree_path_shape in Htp as [_ ?].
    + rewrite Hdv, edges_weight_snoc. rewrite IHd in Hdu. by injection Hdu as ->.
Qed.

Lemma walk_back_tree_path (prev : gmap string (string * Edge))
    (vis : gset string) (v : string) (p : list string) (es : list Edge)
    (fuel : nat) (ap : list string) (ae : list Edge) :
  tree_path prev vis s v p es → (length es ≤ fuel)%nat →
  walk_back fuel prev v ap ae = Ok (ap ++ rev (tail p), ae ++ rev es).
Proof.
  intros Htp. revert fuel ap ae.
  induction Htp as [Hs|v u e p es Hv Hin Htp IH]; intros fuel ap ae Hfuel.
  - destruct fuel; simpl; rewrite Hs; by rewrite !app_nil_r.
  - rewrite length_app in Hfuel. simpl in Hfuel.
    destruct fuel as [|fuel]; [lia|]. simpl. rewrite Hv.
    rewrite IH by lia.
    apply tree_path_shape in Htp as [Hp _].
    destruct p as [|x p']; [done|]. simpl.
    rewrite !rev_app_distr. simpl. by rewrite <- !app_assoc.
Qed.

End reconstruct.

(** ** Explanations of well-formed paths *)

Lemma explain_steps_ok (p : list string) (es : list Edge) (i : nat) :
  (i + length es < length p)%nat → ∃ xs, explain_steps p i es = Ok xs.
Proof.
  revert i. induction es as [|e es IH]; intros i Hlen; simpl; [by eexists|].
  simpl in Hlen. unfold explain_step.
  destruct (lookup_lt_is_Some_2 p (S i)) as [x ->]; [lia|]. simpl.
  destruct (IH (S i)) as [xs ->]; [lia|]. by eexists.
Qed.

Lemma explain_path_ok (p : list string) (es : list Edge) :
  length p = S (length es) → ∃ x, _explain_path p es = Ok x.
Proof.
  intros Hlen. unfold _explain_path.
  destruct p as [|a [|b p]]; [by eexists..|].
  destruct (explain_steps_ok (a :: b :: p) es 0) as [xs ->]; [lia|].
  by eexists.
Qed.

(** ** Name resolution *)

Lemma find_unique_id (l : list Node) (n : Node) :
  NoDup (node_id <$> l) → n ∈ l →
  List.find (λ m, String.eqb (node_id m) (node_id n)) l = Some n.
Proof.
  induction l as [|m l IH]; [by intros _ ?%elem_of_nil|].
  rewrite fmap_cons. intros [Hm Hnd]%NoDup_cons [->|Hin]%elem_of_cons; simpl.
  - by rewrite String.eqb_refl.
  - destruct (String.eqb_spec (node_id m) (node_id n)) as [Heq|_]; [|by apply IH].
    destruct Hm. rewrite Heq. by apply list_elem_of_fmap_2.
Qed.

Lemma resolve_scan_some (ts : list Node) (x r : string) :
  resolve_scan ts x = Ok (Some r) → ∃ n, n ∈ ts ∧ node_id n = r.
Proof.
  induction ts as [|n ts IH]; [done|]. simpl.
  destruct (short_name_lower n) as [sn| |]; [|done..]. simpl.
  destruct (String.eqb sn (lower x)).
  - intros [= <-]. exists n. split; [apply list_elem_of_here|done].
  - intros (m & ? & ?)%IH. exists m. split; [by apply list_elem_of_further|done].
Qed.

(** A resolved id resolves to itself. *)
Lemma resolve_idempotent (st : GraphStorage) (x r : string) :
  store_wf st → _resolve_table_name st x = Ok (Some r) →
  _resolve_table_name st r = Ok (Some r).
Proof.
  intros (Hnd & _ & _) Hres.
  assert (resolve_scan (get_nodes_by_type "table" st) x = Ok (Some r) →
          _resolve_table_name st r = Ok (Some r)) as Hscan.
  { intros (n & Hn & <-)%resolve_scan_some.
    unfold get_nodes_by_type in Hn.
    apply list_elem_of_In, filter_In in Hn as [Hn Hty].
    apply list_elem_of_In in Hn.
    unfold _resolve_table_name, get_node. rewrite find_unique_id by done.
    by rewrite Hty. }
  unfold _resolve_table_name in Hres.
  destruct (get_node x st) as [node|] eqn:Hget; [|by apply Hscan].
  destruct (String.eqb (node_type node) "table") eqn:Hty; [|by apply Hscan].
  injection Hres as <-. unfold _resolve_table_name. by rewrite Hget, Hty.
Qed.

(** ** Results of [find_path] *)

Lemma falsy_some (r : string) : r ≠ "" → falsy (Some r) = false.
Proof. intros Hne. by apply String.eqb_neq. Qed.

Lemma bind_Ok {A B} (a : A) (k : A → result B) : (Ok a ≫= k) = k a.
Proof. done. Qed.

Lemma find_path_resolved (eng : QueryEngine) (A B a b : string) :
  _resolve_table_name (storage eng) A = Ok (Some a) →
  _resolve_table_name (storage eng) B = Ok (Some b) →
  a ≠ "" → b ≠ "" →
  find_path eng A B =
  if String.eqb a b then
    Ok (mkPathResult true [a] [] 0
          "Same table specified for source and target.")
  else
    s ← dijkstra_loop (S (S (adj_size (_adjacency eng)))) (_adjacency eng)
          b (search_init a);
    if bool_decide (previous s !! b = None) && negb (String.eqb a b) then
      Ok (not_found ("No path found between " +:+ a +:+ " and " +:+ b +:+ "."))
    else
      pe ← walk_back (size (visited s)) (previous s) b [] [];
      expl ← _explain_path (rev (pe.1 ++ [a])) (rev pe.2);
      Ok (mkPathResult true (rev (pe.1 ++ [a])) (rev pe.2)
            (default 0 (distances s !! b)) expl).
Proof.
  intros HA HB Ha Hb. unfold find_path.
  rewrite HA, bind_Ok, HB, bind_Ok, !falsy_some by done. done.
Qed.

Lemma find_path_unresolved (eng : QueryEngine) (A B : string)
    (ra rb : option string) :
  _resolve_table_name (storage eng) A = Ok ra →
  _resolve_table_name (storage eng) B = Ok rb →
  falsy ra || falsy rb = true →
  find_path eng A B
  = Ok (not_found "One or both tables not found in the graph.").
Proof.
  intros HA HB Hf. unfold find_path.
  by rewrite HA, bind_Ok, HB, bind_Ok, Hf.
Qed.

(** The search behind a call of [find_path] with distinct endpoints, and the
    result the call builds from its final state. *)
Lemma find_path_search (eng : QueryEngine) (A B a b : string) :
  _resolve_table_name (storage eng) A = Ok (Some a) →
  _resolve_table_name (storage eng) B = Ok (Some b) →
  a ≠ "" → b ≠ "" → a ≠ b →
  ∃ st',
    dijkstra_loop (S (S (adj_size (_adjacency eng)))) (_adjacency eng) b
      (search_init a) = Ok st'
    ∧ search_inv (_adjacency eng) a st'
    ∧ (heap st' = [] ∨ b ∈ visited st')
    ∧ (((b ∉ visited st')
        ∧ find_path eng A B
          = Ok (not_found ("No path found between " +:+ a +:+ " and "
                           +:+ b +:+ ".")))
       ∨ (∃ p es expl,
            b ∈ visited st'
            ∧ tree_path (previous st') (visited st') a b p es
            ∧ find_path eng A B
              = Ok (mkPathResult true p es (edges_weight es) expl))).
Proof.
  intros HA HB Ha Hb Hab.
  destruct (dijkstra_loop_terminates (_adjacency eng) b
              (S (S (adj_size (_adjacency eng)))) (search_init a)) as [st' Hloop].
  { simpl. rewrite unvisited_entries_empty. lia. }
  destruct (dijkstra_loop_inv (_adjacency eng) a b _ _ _
              (search_init_inv _ _) Hloop) as [Hinv Hexit].
  exists st'. split_and!; [done..|].
  assert (is_Some (previous st' !! b) → b ∈ visited st') as Hprev_vis.
  { intros [[u e] Hp]. destruct Hexit as [Hheap|?]; [|done].
    destruct (inv_prev _ _ _ Hinv b u e Hp) as (_ & _ & du & _ & Hd).
    destruct (decide (b ∈ visited st')) as [?|Hnv]; [done|].
    pose proof (inv_dist_heap _ _ _ Hinv b _ Hd Hnv) as Hin.
    rewrite Hheap in Hin. by apply elem_of_nil in Hin. }
  rewrite (find_path_resolved eng A B a b) by done.
  apply String.eqb_neq in Hab as Hab'. rewrite Hab', Hloop, bind_Ok.
  destruct (previous st' !! b) as [[u e]|] eqn:Hp.
  - right. assert (b ∈ visited st') as Hvis by (by apply Hprev_vis).
    destruct (inv_tree _ _ _ Hinv b Hvis) as (p & es & Htp & Hlen).
    rewrite bool_decide_eq_false_2 by done.
    rewrite (walk_back_tree_path a _ _ _ _ _ _ [] [] Htp), bind_Ok by lia.
    destruct (tree_path_shape a _ _ _ _ _ Htp) as [Hshape _].
    destruct (tree_path_chain _ a _ _ _ _ Hinv Htp) as [Hchain Hdist].
    cbn [fst snd app].
    assert (rev (rev (tail p) ++ [a]) = p) as ->.
    { rewrite rev_app_distr, rev_involutive. simpl. by rewrite <- Hshape. }
    rewrite rev_involutive.
    destruct (explain_path_ok p es (chain_length _ _ _ Hchain)) as [expl ->].
    rewrite bind_Ok, Hdist. by exists p, es, expl.
  - left. rewrite bool_decide_eq_true_2 by done. split; [|done].
    intros Hvis. destruct (inv_tree _ _ _ Hinv b Hvis) as (p & es & Htp & _).
    inversion Htp; congruence.
Qed.

(** [find_path] returns a result whenever the two names resolve without an
    error. *)
Lemma find_path_total (eng : QueryEngine) (A B : string)
    (ra rb : option string) :
  _resolve_table_name (storage eng) A = Ok ra →
  _resolve_table_name (storage eng) B = Ok rb →
  ∃ r, find_path eng A B = Ok r.
Proof.
  intros HA HB.
  destruct (falsy ra || falsy rb) eqn:Hf.
  { rewrite (find_path_unresolved eng A B ra rb) by done. by eexists. }
  apply orb_false_elim in Hf as [Hfa Hfb].
  destruct ra as [a|]; [|done]. destruct rb as [b|]; [|done].
  simpl in Hfa, Hfb. apply String.eqb_neq in Hfa, Hfb.
  destruct (decide (a = b)) as [->|Hab].
  - rewrite (find_path_resolved eng A B b b), String.eqb_refl by done.
    by eexists.
  - destruct (find_path_search eng A B a b HA HB Hfa Hfb Hab)
      as (st' & _ & _ & _ & [[_ ->]|(p & es & expl & _ & _ & ->)]); by eexists.
Qed.

(** A found route is a chain of the index between the resolved ids. *)
Lemma find_path_found (eng : QueryEngine) (A B : string) (r : PathResult) :
  find_path eng A B = Ok r → found r = true →
  ∃ a b, _resolve_table_name (storage eng) A = Ok (Some a)
         ∧ _resolve_table_name (storage eng) B = Ok (Some b)
         ∧ valid_route (_adjacency eng) a b r.
Proof.
  intros Hfp Hfound.
  destruct (_resolve_table_name (storage eng) A) as [ra| |] eqn:HA;
    [|unfold find_path in Hfp; by rewrite HA in Hfp..].
  destruct (_resolve_table_name (storage eng) B) as [rb| |] eqn:HB;
    [|unfold find_path in Hfp; rewrite HA in Hfp; simpl in Hfp;
      by rewrite HB in Hfp..].
  destruct (falsy ra || falsy rb) eqn:Hf.
  { rewrite (find_path_unresolved eng A B ra rb) in Hfp by done.
    injection Hfp as <-. done. }
  apply orb_false_elim in Hf as [Hfa Hfb].
  destruct ra as [a|]; [|done]. destruct rb as [b|]; [|done].
  simpl in Hfa, Hfb. apply String.eqb_neq in Hfa, Hfb.
  exists a, b. split; [done|]. split; [done|].
  destruct (decide (a = b)) as [->|Hab].
  - rewrite (find_path_resolved eng A B b b), String.eqb_refl in Hfp by done.
    injection Hfp as <-.
    split_and!; simpl; [apply chain_one|done..].
  - destruct (find_path_search eng A B a b HA HB Hfa Hfb Hab)
      as (st' & _ & Hinv & _ & [[_ Hr]|(p & es & expl & _ & Htp & Hr)]);
      rewrite Hr in Hfp; injection Hfp as <-; [done|].
    destruct (tree_path_chain _ a _ _ _ _ Hinv Htp) as [Hchain _].
    destruct (tree_path_shape a _ _ _ _ _ Htp) as [Hshape Hlast].
    split_and!; simpl; [done| |done|done].
    by rewrite Hshape.
Qed.

(** ** Shape of the routes *)

Lemma engine_wf_entries (eng : QueryEngine) (u v : string) (e : Edge) :
  engine_wf eng → (v, e) ∈ adj_get (_adjacency eng) u →
  from_id e = u ∧ to_id e = v.
Proof.
  intros [st0 ->] (e0 & _ & _ & Hent)%build_adjacency_entries.
  by destruct Hent as [(-> & -> & ->)|(-> & -> & ->)].
Qed.

Lemma chain_indices (adj : gmap string (list (string * Edge)))
    (p : list string) (es : list Edge) :
  (∀ u v e, (v, e) ∈ adj_get adj u → from_id e = u ∧ to_id e = v) →
  chain adj p es →
  ∀ i e, es !! i = Some e →
         p !! i = Some (from_id e) ∧ p !! S i = Some (to_id e).
Proof.
  intros Hwf. induction 1 as [u|u v p e0 es Hadj Hc IH]; intros i e Hi; [done|].
  destruct i as [|i]; simpl in *.
  - injection Hi as ->. by destruct (Hwf _ _ _ Hadj) as [-> ->].
  - by apply IH.
Qed.

Lemma valid_route_ok (eng : QueryEngine) (a b : string) (r : PathResult) :
  engine_wf eng → valid_route (_adjacency eng) a b r → route_ok r.
Proof.
  intros Hwf (Hchain & _ & _ & Hw). split_and!; [| |done].
  - by apply chain_length in Hchain.
  - apply (chain_indices (_adjacency eng)); [|done].
    intros u v e. by apply engine_wf_entries.
Qed.

(** ** Multi-table routes *)

Lemma resolve_all_spec (st : GraphStorage) (ts : list string)
    (rs : list (option string)) :
  resolve_all st ts = Ok rs →
  Forall2 (λ t r, _resolve_table_name st t = Ok r) ts rs.
Proof.
  revert rs. induction ts as [|t ts IH]; intros rs; simpl.
  - intros [= <-]. constructor.
  - destruct (_resolve_table_name st t) as [r| |] eqn:Hr; [|done..].
    rewrite bind_Ok.
    destruct (resolve_all st ts) as [rs'| |]; [|done..].
    rewrite bind_Ok. intros [= <-]. constructor; [done|by apply IH].
Qed.

Lemma resolved_tables_settled (st : GraphStorage) (ts : list string)
    (rs : list (option string)) :
  store_wf st → resolve_all st ts = Ok rs →
  forallb (λ r, negb (falsy r)) rs = true →
  Forall (settled st) (default "" <$> rs).
Proof.
  intros Hwf Hall%resolve_all_spec Hok.
  induction Hall as [|t r ts rs Hr _ IH]; [constructor|].
  simpl in Hok. apply andb_prop in Hok as [Hr' Hok].
  rewrite fmap_cons. constructor; [|by apply IH].
  destruct r as [x|]; [|done]. simpl in *.
  apply negb_true_iff, String.eqb_neq in Hr'.
  split; [|done]. by apply (resolve_idempotent st t).
Qed.

Lemma last_app_tail (fp : list string) (a b : string) (p : list string) :
  last fp = Some a → last (a :: p) = Some b → last (fp ++ p) = Some b.
Proof.
  intros Hfp Hp. destruct p as [|x p].
  - rewrite app_nil_r. simpl in Hp. congruence.
  - change (last (x :: p) = Some b) in Hp. by rewrite last_app, Hp.
Qed.

Section multi.
Context (eng : QueryEngine) (resolved : list string).
Context (Hsettled : Forall (settled (storage eng)) resolved).

Lemma multi_loop_found (n i : nat) (fp : list string) (fe : list Edge)
    (tot : Z) (r : PathResult) :
  chain (_adjacency eng) fp fe →
  last fp = resolved !! i → is_Some (resolved !! i) →
  tot = edges_weight fe →
  multi_loop eng resolved n i fp fe tot = Ok r → found r = true →
  chain (_adjacency eng) (path r) (path_edges r)
  ∧ total_weight r = edges_weight (path_edges r)
  ∧ head (path r) = head fp.
Proof.
  revert i fp fe tot.
  induction n as [|n IH]; intros i fp fe tot Hchain Hlast [a Ha] Htot; simpl.
  - destruct (_explain_path fp fe) as [expl| |]; [|done..].
    rewrite bind_Ok. by intros [= <-] _.
  - rewrite Ha. destruct (resolved !! S i) as [b|] eqn:Hb; [|done].
    destruct (find_path eng a b) as [r1| |] eqn:Hfp; [|done..].
    rewrite bind_Ok. destruct (found r1) eqn:Hfound; simpl.
    2:{ intros [= <-]. done. }
    destruct (find_path_found eng a b r1 Hfp Hfound)
      as (a' & b' & Hra & Hrb & Hchain1 & Hhead & Hlast1 & Hw).
    rewrite Forall_lookup in Hsettled.
    destruct (Hsettled _ _ Ha) as [Ha' _]. destruct (Hsettled _ _ Hb) as [Hb' _].
    rewrite Ha' in Hra. injection Hra as <-.
    rewrite Hb' in Hrb. injection Hrb as <-.
    destruct (path r1) as [|x p1] eqn:Hp1; [done|].
    simpl in Hhead. injection Hhead as ->. simpl tail.
    intros Hloop Hr.
    destruct (IH (S i) (fp ++ p1) (fe ++ path_edges r1)
                (tot + total_weight r1)) as (Hc & Hw' & Hh); try done.
    + apply chain_app with a; [done|congruence|done].
    + rewrite Hb. apply last_app_tail with a; [congruence|done].
    + rewrite edges_weight_app. lia.
    + split_and!; [done..|]. rewrite Hh.
      destruct fp; [by rewrite Ha in Hlast|done].
Qed.

Lemma multi_loop_total (n i : nat) (fp : list string) (fe : list Edge)
    (tot : Z) :
  chain (_adjacency eng) fp fe →
  last fp = resolved !! i →
  (i + n < length resolved)%nat →
  ∃ r, multi_loop eng resolved n i fp fe tot = Ok r.
Proof.
  revert i fp fe tot.
  induction n as [|n IH]; intros i fp fe tot Hchain Hlast Hlen; simpl.
  - destruct (explain_path_ok fp fe (chain_length _ _ _ Hchain)) as [x ->].
    by eexists.
  - destruct (lookup_lt_is_Some_2 resolved i) as [a Ha]; [lia|].
    destruct (lookup_lt_is_Some_2 resolved (S i)) as [b Hb]; [lia|].
    rewrite Ha, Hb.
    rewrite Forall_lookup in Hsettled.
    destruct (Hsettled _ _ Ha) as [Ha' _]. destruct (Hsettled _ _ Hb) as [Hb' _].
    destruct (find_path_total eng a b _ _ Ha' Hb') as [r1 Hfp].
    rewrite Hfp, bind_Ok.
    destruct (found r1) eqn:Hfound; simpl; [|by eexists].
    destruct (find_path_found eng a b r1 Hfp Hfound)
      as (a' & b' & Hra & Hrb & Hchain1 & Hhead & Hlast1 & Hw).
    rewrite Ha' in Hra. injection Hra as <-.
    rewrite Hb' in Hrb. injection Hrb as <-.
    destruct (path r1) as [|x p1] eqn:Hp1; [done|].
    simpl in Hhead. injection Hhead as ->. simpl tail.
    apply IH; [|rewrite Hb|lia].
    + apply chain_app with a; [done|congruence|done].
    + apply last_app_tail with a; [congruence|done].
Qed.

End multi.

Lemma find_multi_path_found (eng : QueryEngine) (ts : list string)
    (r : PathResult) :
  store_wf (storage eng) →
  find_multi_path eng ts = Ok r → found r = true →
  chain (_adjacency eng) (path r) (path_edges r)
  ∧ total_weight r = edges_weight (path_edges r).
Proof.
  intros Hwf. unfold find_multi_path.
  destruct (length ts <? 2)%nat; [by intros [= <-]|].
  destruct (resolve_all (storage eng) ts) as [rs| |] eqn:Hall; [|done..].
  rewrite bind_Ok.
  destruct (forallb (λ r, negb (falsy r)) rs) eqn:Hok; simpl;
    [|by intros [= <-]].
  pose proof (resolved_tables_settled _ _ _ Hwf Hall Hok) as Hsettled.
  destruct (default "" <$> rs) as [|first rest] eqn:Hrs; [done|].
  intros Hloop Hfound.
  destruct (multi_loop_found eng (first :: rest) Hsettled
              (length (first :: rest) - 1) 0 [first] [] 0 r)
    as (? & ? & _); try done; try apply chain_one; by eexists.
Qed.

Lemma find_multi_path_total (eng : QueryEngine) (ts : list string)
    (rs : list (option string)) :
  store_wf (storage eng) → resolve_all (storage eng) ts = Ok rs →
  ∃ r, find_multi_path eng ts = Ok r.
Proof.
  intros Hwf Hall. unfold find_multi_path.
  destruct (length ts <? 2)%nat eqn:Hlen; [by eexists|].
  rewrite Hall, bind_Ok.
  destruct (forallb (λ r, negb (falsy r)) rs) eqn:Hok; simpl; [|by eexists].
  pose proof (resolved_tables_settled _ _ _ Hwf Hall Hok) as Hsettled.
  apply resolve_all_spec, Forall2_length in Hall.
  apply Nat.ltb_ge in Hlen.
  destruct (default "" <$> rs) as [|first rest] eqn:Hrs.
  { apply (f_equal length) in Hrs. rewrite length_fmap in Hrs. simpl in Hrs. lia. }
  apply multi_loop_total; [done|apply chain_one|done|simpl; lia].
Qed.

(** C10: every found result of [find_path] and of [find_multi_path] has one
    edge fewer than nodes, its edge [i] runs from node [i] to node [i+1], and
    its total weight is the sum of the weights of its edges; and both calls
    do return a result whenever the names resolve without an error. *)
Theorem found_routes_are_well_formed (eng : QueryEngine) :
  engine_wf eng → store_wf (storage eng) →
  (∀ A B r, find_path eng A B = Ok r → found r = true → route_ok r)
  ∧ (∀ ts r, find_multi_path eng ts = Ok r → found r = true → route_ok r)
  ∧ (∀ A B ra rb,
       _resolve_table_name (storage eng) A = Ok ra →
       _resolve_table_name (storage eng) B = Ok rb →
       ∃ r, find_path eng A B = Ok r)
  ∧ (∀ ts rs, resolve_all (storage eng) ts = Ok rs →
              ∃ r, find_multi_path eng ts = Ok r).
Proof.
  intros Hewf Hswf. split_and!.
  - intros A B r Hfp Hfound.
    destruct (find_path_found eng A B r Hfp Hfound) as (a & b & _ & _ & Hv).
    by apply (valid_route_ok eng a b).
  - intros ts r Hmp Hfound.
    destruct (find_multi_path_found eng ts r Hswf Hmp Hfound) as [Hchain Hw].
    split_and!; [by apply chain_length in Hchain| |done].
    apply (chain_indices (_adjacency eng)); [|done].
    intros u v e. by apply engine_wf_entries.
  - intros A B ra rb. apply find_path_total.
  - intros ts rs. by apply find_multi_path_total.
Qed.

Lemma found_routes_are_well_formed_witness :
  engine_wf Sample.shop_engine
  ∧ store_wf (storage Sample.shop_engine)
  ∧ ((∀ A B r, find_path Sample.shop_engine A B = Ok r → found r = true →
               route_ok r)
     ∧ (∀ ts r, find_multi_path Sample.shop_engine ts = Ok r →
                found r = true → route_ok r)
     ∧ (∀ A B ra rb,
          _resolve_table_name (storage Sample.shop_engine) A = Ok ra →
          _resolve_table_name (storage Sample.shop_engine) B = Ok rb →
          ∃ r, find_path Sample.shop_engine A B = Ok r)
     ∧ (∀ ts rs, resolve_all (storage Sample.shop_engine) ts = Ok rs →
                 ∃ r, find_multi_path Sample.shop_engine ts = Ok r)).
Proof.
  assert (engine_wf Sample.shop_engine) as He
    by (exists Sample.shop_store; reflexivity).
  assert (store_wf (storage Sample.shop_engine)) as Hwf.
  { unfold store_wf.
    split_and!; refine (bool_decide_unpack (NoDup _) _); vm_compute; exact I. }
  split; [exact He|]. split; [exact Hwf|].
  exact (found_routes_are_well_formed Sample.shop_engine He Hwf).
Defined.

(** ** Walks *)

Lemma walk_weight_cons (v : string) (e : Edge) (l : list (string * Edge)) :
  walk_weight ((v, e) :: l) = weight e + walk_weight l.
Proof. done. Qed.

Lemma walk_weight_app (l1 l2 : list (string * Edge)) :
  walk_weight (l1 ++ l2) = walk_weight l1 + walk_weight l2.
Proof. unfold walk_weight. by rewrite fmap_app, edges_weight_app. Qed.

Lemma walk_snoc (adj : gmap string (list (string * Edge)))
    (u v w : string) (e : Edge) (l : list (string * Edge)) :
  walk adj u l v → (w, e) ∈ adj_get adj v → walk adj u (l ++ [(w, e)]) w.
Proof.
  induction 1 as [u|u x e0 l v Hadj Hw IH]; intros He; simpl.
  - apply walk_cons; [done|apply walk_nil].
  - apply walk_cons; [done|by apply IH].
Qed.

(** A walk that leaves a set of nodes has an entry that crosses its border. *)
Lemma walk_crossing (adj : gmap string (list (string * Edge)))
    (C : gset string) (u w : string) (l : list (string * Edge)) :
  walk adj u l w → u ∈ C → w ∉ C →
  ∃ l1 x y e l2,
    l = l1 ++ (y, e) :: l2 ∧ walk adj u l1 x ∧ x ∈ C
    ∧ (y, e) ∈ adj_get adj x ∧ y ∉ C.
Proof.
  induction 1 as [u|u v e l w Hadj Hw IH]; intros Hu Hnw; [done|].
  destruct (decide (v ∈ C)) as [Hv|Hv].
  - destruct (IH Hv Hnw) as (l1 & x & y & e' & l2 & -> & Hw1 & Hx & Hxy & Hy).
    exists ((v, e) :: l1), x, y, e', l2.
    split_and!; [done|by apply walk_cons|done..].
  - exists [], u, v, e, l. split_and!; [done|apply walk_nil|done..].
Qed.

Lemma chain_walk (adj : gmap string (list (string * Edge)))
    (p : list string) (es : list Edge) (a b : string) :
  chain adj p es → head p = Some a → last p = Some b →
  ∃ l, walk adj a l b ∧ walk_weight l = edges_weight es.
Proof.
  intros Hc. revert a.
  induction Hc as [u|u v p e es Hadj Hc IH]; intros a Hhead Hlast;
    simpl in Hhead; injection Hhead as <-.
  - simpl in Hlast. injection Hlast as <-. exists []. split; [apply walk_nil|done].
  - destruct (IH v) as (l & Hw & Hl); [done|done|].
    exists ((v, e) :: l). split; [by apply walk_cons|].
    rewrite walk_weight_cons, Hl. done.
Qed.

(** ** Optimality of the search under non-negative weights *)

Section optimal.
Context (adj : gmap string (list (string * Edge))) (s t : string).
Context (Hnonneg : nonneg_weights adj).

Lemma walk_weight_nonneg (u w : string) (l : list (string * Edge)) :
  walk adj u l w → 0 ≤ walk_weight l.
Proof.
  induction 1 as [u|u v e l w Hadj Hw IH]; [done|].
  rewrite walk_weight_cons. pose proof (Hnonneg _ _ _ Hadj). lia.
Qed.

Lemma search_init_opt : search_opt adj s ∅ (search_init s).
Proof.
  split; simpl.
  - by intros v d l ?%not_elem_of_empty.
  - by intros u v e ?%not_elem_of_empty.
  - by intros u du d x ?%not_elem_of_empty.
Qed.

Lemma pop_visited_opt (st : Search) (C : gset string) (m : Z * string)
    (h' : list (Z * string)) :
  search_opt adj s C st → heappop (heap st) = Some (m, h') →
  search_opt adj s C (mkSearch (distances st) (previous st) h' (visited st)).
Proof.
  intros [Hlb Hcl Hmono] (_ & _ & _ & Hsub & _)%heappop_spec.
  split; simpl; [done|done|].
  intros u du d x Hu Hdu Hx. by apply (Hmono u du d x), Hsub.
Qed.

Lemma pop_new_opt (st : Search) (d : Z) (cur : string)
    (h' : list (Z * string)) :
  search_inv adj s st → search_opt adj s (visited st) st →
  heappop (heap st) = Some ((d, cur), h') → cur ∉ visited st →
  search_opt adj s (visited st)
    (mkSearch (distances st) (previous st) h' ({[cur]} ∪ visited st)).
Proof.
  intros Hinv [Hlb Hcl Hmono] Hpop Hcur.
  destruct (pop_new_inv adj s st d cur h' Hinv Hpop Hcur) as (Hd & _ & _).
  apply heappop_spec in Hpop as (Hin & Hmin & _ & Hsub & _).
  split; simpl; [|done|].
  - intros v dv l [->%elem_of_singleton|Hv]%elem_of_union Hdv Hw;
      [|by apply (Hlb v)].
    rewrite Hd in Hdv. injection Hdv as <-.
    destruct (inv_src _ _ _ Hinv) as [Hs|Hheap].
    + destruct (walk_crossing adj (visited st) s cur l Hw Hs Hcur)
        as (l1 & x & y & e & l2 & -> & Hw1 & Hx & Hxy & Hy).
      destruct (Hcl x y e Hx Hxy) as (dx & dy & Hdx & Hdy & Hle).
      pose proof (Hlb x dx l1 Hx Hdx Hw1) as Hlb1.
      pose proof (Hmin _ (inv_dist_heap _ _ _ Hinv y dy Hdy Hy)) as Hmin'.
      simpl in Hmin'.
      rewrite walk_weight_app, walk_weight_cons.
      assert (0 ≤ walk_weight l2); [|lia].
      assert (∃ z, walk adj y l2 z) as [z Hw2].
      { clear -Hw. revert Hw. generalize s as u. 
        induction l1 as [|[v0 e0] l1 IH]; intros u Hw; simpl in Hw.
        - inversion Hw; subst. by eexists.
        - inversion Hw; subst. by eapply IH. }
      by eapply walk_weight_nonneg.
    + rewrite Hheap in Hin. apply list_elem_of_singleton in Hin as [= -> ->].
      by eapply walk_weight_nonneg.
  - intros u du d0 x [->%elem_of_singleton|Hu]%elem_of_union Hdu Hx.
    + rewrite Hd in Hdu. injection Hdu as <-. apply (Hmin (d0, x)), Hsub, Hx.
    + by apply (Hmono u du d0 x), Hsub.
Qed.

Lemma relax_expanding (st : Search) (cur : string) (d : Z)
    (ne : string * Edge) :
  expanding st cur d → expanding (relax cur d st ne) cur d.
Proof.
  intros (Hcur & Hd & Hle).
  destruct (relax_frame st cur d ne) as (Hv & Hdist & _).
  split_and!.
  - by rewrite Hv.
  - by rewrite Hdist.
  - intros u. rewrite Hv. intros Hu. rewrite Hdist by done. by apply Hle.
Qed.

Lemma relax_opt (st : Search) (C : gset string) (cur : string) (d : Z)
    (ne : string * Edge) :
  search_opt adj s C st → C ⊆ visited st → expanding st cur d →
  ne ∈ adj_get adj cur →
  search_opt adj s C (relax cur d st ne).
Proof.
  intros [Hlb Hcl Hmono] HC (Hcur & Hd & Hle) Hne.
  destruct ne as [v e]. unfold relax.
  case_decide as Hv; [done|].
  destruct (match distances st !! v with
            | Some d0 => d + weight e <? d0 | None => true end) eqn:Hbetter;
    [|done].
  pose proof (Hnonneg _ _ _ Hne) as Hw.
  split; simpl.
  - intros x dx l Hx. rewrite lookup_insert_ne by (by intros ->).
    by apply Hlb.
  - intros u x e0 Hu Hadj.
    destruct (Hcl u x e0 Hu Hadj) as (du & dx & Hdu & Hdx & Hle').
    exists du. rewrite lookup_insert_ne by (intros ->; by apply Hv, HC).
    destruct (decide (x = v)) as [->|Hxv].
    + exists (d + weight e). rewrite lookup_insert_eq. split_and!; [done..|].
      rewrite Hdx in Hbetter. apply Z.ltb_lt in Hbetter. lia.
    + exists dx. by rewrite lookup_insert_ne.
  - intros u du d0 x Hu. rewrite lookup_insert_ne by (by intros ->).
    intros Hdu [Hx|[= -> ->]%list_elem_of_singleton]%elem_of_app.
    + by apply (Hmono u du d0 x).
    + destruct (Hle u Hu) as (du' & Hdu' & ?). rewrite Hdu in Hdu'.
      injection Hdu' as <-. lia.
Qed.

Lemma relax_dist_le (st : Search) (cur : string) (d : Z)
    (ne : string * Edge) (x : string) (dx : Z) :
  distances st !! x = Some dx →
  ∃ dx', distances (relax cur d st ne) !! x = Some dx' ∧ dx' ≤ dx.
Proof.
  intros Hdx. destruct ne as [v e]. unfold relax.
  case_decide as Hv; [exists dx; split; [done|lia]|].
  destruct (match distances st !! v with
            | Some d0 => d + weight e <? d0 | None => true end) eqn:Hbetter;
    [|exists dx; split; [done|lia]].
  simpl. destruct (decide (x = v)) as [->|Hxv].
  - exists (d + weight e). rewrite lookup_insert_eq. split; [done|].
    rewrite Hdx in Hbetter. apply Z.ltb_lt in Hbetter. lia.
  - exists dx. rewrite lookup_insert_ne by done. split; [done|lia].
Qed.

Lemma fold_relax_dist_le (l : list (string * Edge)) (st : Search)
    (cur : string) (d : Z) (x : string) (dx : Z) :
  distances st !! x = Some dx →
  ∃ dx', distances (fold_left (relax cur d) l st) !! x = Some dx' ∧ dx' ≤ dx.
Proof.
  revert st dx. induction l as [|ne l IH]; intros st dx Hdx; simpl.
  - exists dx. split; [done|lia].
  - destruct (relax_dist_le st cur d ne x dx Hdx) as (dx1 & Hdx1 & ?).
    destruct (IH _ _ Hdx1) as (dx2 & Hdx2 & ?). exists dx2. split; [done|lia].
Qed.

(** After one relaxation the neighbour is no further than through [cur]. *)
Lemma relax_reaches (st : Search) (cur : string) (d : Z) (v : string)
    (e : Edge) :
  expanding st cur d → (v, e) ∈ adj_get adj cur →
  ∃ dv, distances (relax cur d st (v, e)) !! v = Some dv
        ∧ dv ≤ d + weight e.
Proof.
  intros (Hcur & Hd & Hle) Hadj. pose proof (Hnonneg _ _ _ Hadj) as Hw.
  unfold relax. case_decide as Hv.
  - destruct (Hle v Hv) as (dv & Hdv & ?). exists dv. split; [done|lia].
  - destruct (distances st !! v) as [dv|] eqn:Hdv.
    + destruct (Z.ltb_spec (d + weight e) dv); simpl.
      * exists (d + weight e). by rewrite lookup_insert_eq.
      * by exists dv.
    + simpl. exists (d + weight e). by rewrite lookup_insert_eq.
Qed.

Lemma fold_relax_opt (l : list (string * Edge)) (st : Search)
    (C : gset string) (cur : string) (d : Z) :
  (∀ ne, ne ∈ l → ne ∈ adj_get adj cur) →
  search_opt adj s C st → C ⊆ visited st → expanding st cur d →
  search_opt adj s C (fold_left (relax cur d) l st)
  ∧ ∀ v e, (v, e) ∈ l →
           ∃ dv, distances (fold_left (relax cur d) l st) !! v = Some dv
                 ∧ dv ≤ d + weight e.
Proof.
  revert st. induction l as [|ne l IH]; intros st Hl Hopt HC Hexp; simpl.
  - split; [done|]. by intros v e ?%elem_of_nil.
  - destruct (relax_frame st cur d ne) as (Hv & _ & _).
    destruct (IH (relax cur d st ne)) as [Hopt' Hreach].
    + intros ne' ?. by apply Hl, list_elem_of_further.
    + apply relax_opt; try done. apply Hl, list_elem_of_here.
    + by rewrite Hv.
    + by apply relax_expanding.
    + split; [done|]. intros v e [<-|Hin]%elem_of_cons; [|by apply Hreach].
      destruct (relax_reaches st cur d v e Hexp) as (dv & Hdv & ?).
      { apply Hl, list_elem_of_here. }
      destruct (fold_relax_dist_le l _ cur d v dv Hdv) as (dv' & Hdv' & ?).
      exists dv'. split; [done|lia].
Qed.

(** At loop exit: the distances of visited nodes are lower bounds, and
    every visited node other than the target has been fully relaxed. *)
Lemma dijkstra_loop_opt (fuel : nat) (st st' : Search) :
  search_inv adj s st → search_opt adj s (visited st) st →
  t ∉ visited st →
  dijkstra_loop fuel adj t st = Ok st' →
  ∃ C, search_opt adj s C st'
       ∧ ∀ u, u ∈ visited st' → u ≠ t → u ∈ C.
Proof.
  revert st. induction fuel as [|fuel IH]; intros st Hinv Hopt Ht; [done|].
  simpl.
  destruct (heappop (heap st)) as [[[d cur] h']|] eqn:Hpop.
  - case_decide as Hvis.
    + apply IH; [by eapply pop_visited_inv|by eapply pop_visited_opt|done].
    + destruct (pop_new_inv _ _ _ _ _ _ Hinv Hpop Hvis) as (Hd & Hs & Hinv1).
      pose proof (pop_new_opt _ _ _ _ Hinv Hopt Hpop Hvis) as Hopt1.
      destruct (String.eqb_spec cur t) as [->|Hne].
      * intros [= <-]. exists (visited st). split; [done|]. simpl.
        intros u [->%elem_of_singleton|?]%elem_of_union; done.
      * set (s1 := mkSearch (distances st) (previous st) h'
                     ({[cur]} ∪ visited st)) in *.
        assert (expanding s1 cur d) as Hexp.
        { split_and!; simpl; [by apply elem_of_union_l, elem_of_singleton|done|].
          apply heappop_spec in Hpop as (Hin & _).
          intros u [->%elem_of_singleton|Hu]%elem_of_union.
          - exists d. split; [done|lia].
          - destruct (inv_visited_dist _ _ _ Hinv u Hu) as [du Hdu].
            exists du. split; [done|].
            by apply (opt_mono _ _ _ _ Hopt u du d cur). }
        destruct (fold_relax_opt (adj_get adj cur) s1 (visited st) cur d)
          as [Hopt2 Hreach]; try done.
        { simpl. apply union_subseteq_r. }
        destruct (fold_relax_frame (adj_get adj cur) s1 cur d)
          as (Hv2 & Hd2 & _).
        apply IH.
        -- apply fold_relax_inv; try done.
           simpl. by apply elem_of_union_l, elem_of_singleton.
        -- rewrite Hv2. simpl.
           destruct Hopt2 as [Hlb2 Hcl2 Hmono2]. split; [done| |done].
           intros u v e [->%elem_of_singleton|Hu]%elem_of_union Hadj;
             [|by apply Hcl2].
           destruct (Hreach v e Hadj) as (dv & Hdv & ?).
           exists d, dv. split_and!; [|done..].
           rewrite Hd2; [done|]. simpl.
           by apply elem_of_union_l, elem_of_singleton.
        -- rewrite Hv2. simpl.
           intros [->%elem_of_singleton|?]%elem_of_union; done.
  - intros [= <-]. exists (visited st). split; [done|]. by intros.
Qed.

End optimal.

(** ** Shortest routes and their symmetry *)

(** What a search with distinct endpoints establishes under non-negative
    weights: a found route is no heavier than any walk between its ends, and
    when no route is found there is no walk at all. *)
Lemma find_path_shortest (eng : QueryEngine) (A B a b : string) :
  nonneg_weights (_adjacency eng) →
  _resolve_table_name (storage eng) A = Ok (Some a) →
  _resolve_table_name (storage eng) B = Ok (Some b) →
  a ≠ "" → b ≠ "" → a ≠ b →
  ∃ r, find_path eng A B = Ok r
       ∧ if found r then
           (∃ l, walk (_adjacency eng) a l b ∧ walk_weight l = total_weight r)
           ∧ ∀ l, walk (_adjacency eng) a l b → total_weight r ≤ walk_weight l
         else
           total_weight r = 0 ∧ ∀ l, ¬ walk (_adjacency eng) a l b.
Proof.
  intros Hnn HA HB Ha Hb Hab.
  destruct (find_path_search eng A B a b HA HB Ha Hb Hab)
    as (st' & Hloop & Hinv & Hexit & Hres).
  destruct (dijkstra_loop_opt (_adjacency eng) a b Hnn _ _ st'
              (search_init_inv _ _) (search_init_opt _ _)
              (not_elem_of_empty _) Hloop) as (C & Hopt & HC).
  destruct Hres as [[Hnv ->]|(p & es & expl & Hvis & Htp & ->)].
  - eexists. split; [done|]. simpl. split; [done|]. intros l Hw.
    destruct Hexit as [Hheap|?]; [|done].
    assert (a ∈ visited st') as Hs.
    { destruct (inv_src _ _ _ Hinv) as [?|Hh]; [done|]. by rewrite Hh in Hheap. }
    destruct (walk_crossing _ (visited st') a b l Hw Hs Hnv)
      as (l1 & x & y & e & l2 & -> & Hw1 & Hx & Hxy & Hy).
    assert (x ≠ b) as Hxb by (by intros ->).
    destruct (opt_closed _ _ _ _ Hopt x y e (HC x Hx Hxb) Hxy)
      as (dx & dy & _ & Hdy & _).
    pose proof (inv_dist_heap _ _ _ Hinv y dy Hdy Hy) as Hin.
    rewrite Hheap in Hin. by apply elem_of_nil in Hin.
  - eexists. split; [done|]. simpl.
    destruct (tree_path_chain _ a _ _ _ _ Hinv Htp) as [Hchain Hdist].
    destruct (tree_path_shape a _ _ _ _ _ Htp) as [Hshape Hlast].
    split.
    + apply (chain_walk _ p es a b Hchain); [by rewrite Hshape|done].
    + intros l Hw. by apply (opt_lb _ _ _ _ Hopt b _ l).
Qed.

Section symmetric.
Context (st0 : GraphStorage).

(** Every entry of the index has a twin in the other direction, of the same
    weight. *)
Lemma entry_twin (u v : string) (e : Edge) :
  (v, e) ∈ adj_get (_build_adjacency st0) u →
  ∃ e', (u, e') ∈ adj_get (_build_adjacency st0) v ∧ weight e' = weight e.
Proof.
  intros (e0 & Hin & Hty & Hent)%build_adjacency_entries.
  destruct Hent as [(-> & -> & ->)|(-> & -> & ->)].
  - exists (reverse_edge e0). split; [|done].
    apply build_adjacency_entries. exists e0. split_and!; [done..|by right].
  - exists e0. split; [|done].
    apply build_adjacency_entries. exists e0. split_and!; [done..|by left].
Qed.

Lemma walk_reverse (a b : string) (l : list (string * Edge)) :
  walk (_build_adjacency st0) a l b →
  ∃ l', walk (_build_adjacency st0) b l' a ∧ walk_weight l' = walk_weight l.
Proof.
  induction 1 as [u|u v e l w Hadj Hw (l' & Hw' & Hl')].
  - exists []. split; [apply walk_nil|done].
  - destruct (entry_twin u v e Hadj) as (e' & Hadj' & He').
    exists (l' ++ [(u, e')]). split; [by apply walk_snoc with v|].
    rewrite walk_weight_app, walk_weight_cons, Hl'.
    rewrite walk_weight_cons. unfold walk_weight at 2. simpl. lia.
Qed.

Lemma build_adjacency_nonneg :
  (∀ e, e ∈ edges st0 → edge_type e = "fk" → 0 ≤ weight e) →
  nonneg_weights (_build_adjacency st0).
Proof.
  intros Hnn u v e (e0 & Hin & Hty & Hent)%build_adjacency_entries.
  destruct Hent as [(_ & _ & ->)|(_ & _ & ->)]; simpl; by apply Hnn.
Qed.

End symmetric.

(** C5, as the code has it: over [fk] edges of non-negative weight,
    [find_path(A, B)] and [find_path(B, A)] both return and report the same
    total weight, for every pair of names that resolve. *)
Theorem find_path_weight_symmetric (eng : QueryEngine) (st0 : GraphStorage)
    (A B a b : string) :
  _adjacency eng = _build_adjacency st0 →
  (∀ e, e ∈ edges st0 → edge_type e = "fk" → 0 ≤ weight e) →
  _resolve_table_name (storage eng) A = Ok (Some a) →
  _resolve_table_name (storage eng) B = Ok (Some b) →
  ∃ r1 r2, find_path eng A B = Ok r1 ∧ find_path eng B A = Ok r2
           ∧ found r1 = found r2
           ∧ total_weight r1 = total_weight r2.
Proof.
  intros Hadj Hnn HA HB.
  destruct (falsy (Some a) || falsy (Some b)) eqn:Hf.
  { exists (not_found "One or both tables not found in the graph."),
           (not_found "One or both tables not found in the graph.").
    split_and!; [|by rewrite (find_path_unresolved eng B A (Some b) (Some a));
                      [|done|done|rewrite orb_comm]|done..].
    by rewrite (find_path_unresolved eng A B (Some a) (Some b)). }
  apply orb_false_elim in Hf as [Ha Hb]. simpl in Ha, Hb.
  apply String.eqb_neq in Ha, Hb.
  destruct (decide (a = b)) as [->|Hab].
  { rewrite (find_path_resolved eng A B b b), (find_path_resolved eng B A b b),
      String.eqb_refl by done. by eexists _, _. }
  apply build_adjacency_nonneg in Hnn. rewrite <- Hadj in Hnn.
  destruct (find_path_shortest eng A B a b Hnn HA HB Ha Hb Hab) as (r1 & -> & H1).
  destruct (find_path_shortest eng B A b a Hnn HB HA Hb Ha) as (r2 & -> & H2);
    [done|].
  exists r1, r2. split; [done|]. split; [done|].
  rewrite Hadj in H1, H2.
  destruct (found r1), (found r2).
  - destruct H1 as [(l1 & Hw1 & Hl1) Hlb1]. destruct H2 as [(l2 & Hw2 & Hl2) Hlb2].
    destruct (walk_reverse st0 _ _ _ Hw1) as (l1' & Hw1' & Hl1').
    destruct (walk_reverse st0 _ _ _ Hw2) as (l2' & Hw2' & Hl2').
    pose proof (Hlb1 _ Hw2'). pose proof (Hlb2 _ Hw1'). split; [done|lia].
  - destruct H1 as [(l1 & Hw1 & _) _]. destruct H2 as [_ Hno].
    destruct (walk_reverse st0 _ _ _ Hw1) as (l1' & Hw1' & _).
    by destruct (Hno l1').
  - destruct H2 as [(l2 & Hw2 & _) _]. destruct H1 as [_ Hno].
    destruct (walk_reverse st0 _ _ _ Hw2) as (l2' & Hw2' & _).
    by destruct (Hno l2').
  - destruct H1 as [-> _], H2 as [-> _]. done.
Qed.

Lemma find_path_weight_symmetric_witness :
  _adjacency Sample.shop_engine = _build_adjacency Sample.shop_store
  ∧ (∀ e, e ∈ edges Sample.shop_store → edge_type e = "fk" → 0 ≤ weight e)
  ∧ _resolve_table_name (storage Sample.shop_engine) "Users"
    = Ok (Some "dbo.Users")
  ∧ _resolve_table_name (storage Sample.shop_engine) "Products"
    = Ok (Some "dbo.Products")
  ∧ ∃ r1 r2, find_path Sample.shop_engine "Users" "Products" = Ok r1
             ∧ find_path Sample.shop_engine "Products" "Users" = Ok r2
             ∧ found r1 = found r2
             ∧ total_weight r1 = total_weight r2.
Proof.
  assert (∀ e, e ∈ edges Sample.shop_store → edge_type e = "fk" → 0 ≤ weight e)
    as Hnn.
  { intros e He _. revert e He. apply Forall_forall.
    vm_compute. repeat constructor; discriminate. }
  assert (_resolve_table_name (storage Sample.shop_engine) "Users"
          = Ok (Some "dbo.Users")) as HA by (vm_compute; reflexivity).
  assert (_resolve_table_name (storage Sample.shop_engine) "Products"
          = Ok (Some "dbo.Products")) as HB by (vm_compute; reflexivity).
  split; [reflexivity|]. split; [exact Hnn|]. split; [exact HA|].
  split; [exact HB|].
  exact (find_path_weight_symmetric Sample.shop_engine Sample.shop_store
           "Users" "Products" "dbo.Users" "dbo.Products" eq_refl Hnn HA HB).
Defined.

(** The claim of C5 as it is worded fails when a weight is negative: in the
    triangle A-B (1), A-C (2), C-B (-5) the search from A stops at B with
    weight 1, while the search from B reaches A through C with weight -3. *)
Lemma find_path_weight_asymmetric_negative :
  ¬ (∀ (st : GraphStorage) (A B a b : string) (r1 r2 : PathResult),
       _resolve_table_name st A = Ok (Some a) →
       _resolve_table_name st B = Ok (Some b) →
       find_path (new_engine st) A B = Ok r1 →
       find_path (new_engine st) B A = Ok r2 →
       total_weight r1 = total_weight r2).
Proof.
  intros H.
  assert (∃ r1 r2, find_path (new_engine Sample.skewed_store) "A" "B" = Ok r1
                   ∧ find_path (new_engine Sample.skewed_store) "B" "A" = Ok r2
                   ∧ total_weight r1 = 1 ∧ total_weight r2 = -3)
    as (r1 & r2 & H1 & H2 & Hw1 & Hw2).
  { vm_compute. eexists _, _. split_and!; reflexivity. }
  pose proof (H Sample.skewed_store "A" "B" "A" "B" r1 r2
                eq_refl eq_refl H1 H2) as Heq.
  rewrite Hw1, Hw2 in Heq. discriminate Heq.
Qed.

(** ** Structure of the generated join *)

Lemma on_conditions_of_shape (rev_edge : bool) (to_alias from_alias : string)
    (from_cols to_cols : list string) :
  Forall (λ c, ∃ c1 c2, c = condition to_alias c1 from_alias c2)
    (on_conditions_of rev_edge to_alias from_alias from_cols to_cols).
Proof.
  unfold on_conditions_of. apply Forall_fmap, Forall_forall.
  intros [f t] _. simpl. destruct rev_edge; by eexists _, _.
Qed.

Lemma join_step_spec (aliases : gmap string string) (p : list string)
    (i : nat) (edge : Edge) (clause : string) (j : JoinInfo) :
  join_step aliases p i edge = Ok (clause, j) →
  p !! i = Some (ji_from_table j) ∧ p !! S i = Some (ji_to_table j)
  ∧ aliases !! ji_from_table j = Some (ji_from_alias j)
  ∧ aliases !! ji_to_table j = Some (ji_to_alias j)
  ∧ clause = render_join j
  ∧ on_uses (ji_from_alias j) j.
Proof.
  unfold join_step.
  destruct (p !! i) as [from_table|]; [|intros; discriminate].
  destruct (p !! S i) as [to_table|]; [|intros; discriminate].
  destruct (columns_of edge (if is_reverse edge then "to_columns"
                             else "from_columns"))
    as [from_cols| |]; [|intros; discriminate..].
  rewrite bind_Ok.
  destruct (columns_of edge (if is_reverse edge then "from_columns"
                             else "to_columns"))
    as [to_cols| |]; [|intros; discriminate..].
  rewrite bind_Ok.
  unfold alias_of.
  destruct (aliases !! to_table) as [to_alias|] eqn:Hto; [|intros; discriminate].
  rewrite bind_Ok.
  destruct (aliases !! from_table) as [from_alias|] eqn:Hfrom;
    [|intros; discriminate].
  rewrite bind_Ok. intros [= <- <-]. simpl.
  split_and!; try done. split; [done|]. simpl. apply on_conditions_of_shape.
Qed.

Lemma join_steps_spec (aliases : gmap string string) (p : list string)
    (i : nat) (es : list Edge) (js : list (string * JoinInfo)) :
  join_steps aliases p i es = Ok js →
  length js = length es
  ∧ fst <$> js = render_join <$> (snd <$> js)
  ∧ ∀ k j, (snd <$> js) !! k = Some j →
      p !! (i + k)%nat = Some (ji_from_table j)
      ∧ p !! S (i + k) = Some (ji_to_table j)
      ∧ aliases !! ji_from_table j = Some (ji_from_alias j)
      ∧ aliases !! ji_to_table j = Some (ji_to_alias j)
      ∧ on_uses (ji_from_alias j) j.
Proof.
  revert i js. induction es as [|edge es IH]; intros i js; simpl.
  - intros [= <-]. split_and!; [done..|]. by intros k j ?.
  - destruct (join_step aliases p i edge) as [[clause j0]| |] eqn:Hstep; [|done..].
    rewrite bind_Ok.
    destruct (join_steps aliases p (S i) es) as [js'| |] eqn:Hsteps; [|done..].
    rewrite bind_Ok. intros [= <-].
    destruct (IH _ _ Hsteps) as (Hlen & Hfst & Hall).
    destruct (join_step_spec _ _ _ _ _ _ Hstep) as (? & ? & ? & ? & -> & ?).
    split_and!.
    + simpl. by rewrite Hlen.
    + by rewrite !fmap_cons, Hfst.
    + intros [|k] j; simpl.
      * intros [= <-]. by rewrite Nat.add_0_r.
      * intros Hk. destruct (Hall k j Hk) as (? & ? & ?).
        by rewrite <- Nat.add_succ_comm.
Qed.

Lemma join_steps_total (aliases : gmap string string) (p : list string)
    (i : nat) (es : list Edge) :
  (i + length es < length p)%nat →
  (∀ t, t ∈ p → is_Some (aliases !! t)) →
  (∀ e key, e ∈ es → ∃ l, columns_of e key = Ok l) →
  ∃ js, join_steps aliases p i es = Ok js.
Proof.
  intros Hlen Hal. revert i Hlen.
  induction es as [|edge es IH]; intros i Hlen Hcols; simpl; [by eexists|].
  simpl in Hlen. unfold join_step.
  destruct (lookup_lt_is_Some_2 p i) as [a Ha]; [lia|].
  destruct (lookup_lt_is_Some_2 p (S i)) as [b Hb]; [lia|].
  rewrite Ha, Hb.
  destruct (Hcols edge (if is_reverse edge then "to_columns" else "from_columns"))
    as [l1 ->]; [apply list_elem_of_here|].
  destruct (Hcols edge (if is_reverse edge then "from_columns" else "to_columns"))
    as [l2 ->]; [apply list_elem_of_here|].
  rewrite !bind_Ok. unfold alias_of.
  destruct (Hal b) as [ab ->]; [by eapply list_elem_of_lookup_2|].
  destruct (Hal a) as [aa ->]; [by eapply list_elem_of_lookup_2|].
  rewrite !bind_Ok.
  destruct (IH (S i)) as [js ->]; [lia| |by eexists].
  intros e key He. by apply Hcols, list_elem_of_further.
Qed.

Lemma select_parts_spec (aliases : gmap string string) (p : list string)
    (parts : list string) :
  select_parts aliases p = Ok parts →
  ∃ als, Forall2 (λ t a, aliases !! t = Some a) p als
         ∧ parts = (λ a, "    " +:+ a +:+ ".*") <$> als.
Proof.
  revert parts. induction p as [|t p IH]; intros parts; simpl.
  - intros [= <-]. by exists [].
  - unfold alias_of. destruct (aliases !! t) as [a|] eqn:Ha; [|done].
    rewrite bind_Ok.
    destruct (select_parts aliases p) as [xs| |]; [|done..].
    rewrite bind_Ok. intros [= <-].
    destruct (IH xs eq_refl) as (als & Hall & ->).
    exists (a :: als). split; [by constructor|done].
Qed.

(** The parts of a successful [generate_join]. *)
Lemma generate_join_success (eng : QueryEngine) (ts : list string)
    (select_all : bool) (r : JoinResult) :
  generate_join eng ts select_all = Ok r → success r = true →
  ∃ pr aliases select_clause t0 rest a0 js,
    find_multi_path eng ts = Ok pr ∧ found pr = true
    ∧ _generate_aliases (path pr) = Ok aliases
    ∧ path pr = t0 :: rest ∧ aliases !! t0 = Some a0
    ∧ (if select_all then
         ∃ parts, select_parts aliases (path pr) = Ok parts
                  ∧ select_clause = join ("," +:+ nl) parts
       else select_clause = "    *")
    ∧ join_steps aliases (path pr) 0 (path_edges pr) = Ok js
    ∧ jr_tables r = path pr
    ∧ joins r = snd <$> js
    ∧ sql r = sql_text select_clause t0 a0 (snd <$> js).
Proof.
  unfold generate_join.
  destruct (length ts <? 2)%nat; [by intros [= <-]|].
  destruct (find_multi_path eng ts) as [pr| |] eqn:Hmp; [|done..].
  rewrite bind_Ok.
  destruct (found pr) eqn:Hfound; simpl; [|by intros [= <-]].
  destruct (_generate_aliases (path pr)) as [aliases| |] eqn:Hal; [|done..].
  rewrite bind_Ok.
  destruct (if select_all
            then select_parts aliases (path pr) ≫= λ parts, Ok (join ("," +:+ nl) parts)
            else Ok "    *") as [sc| |] eqn:Hsel; [|done..].
  rewrite bind_Ok.
  destruct (path pr) as [|t0 rest] eqn:Hpath; [done|].
  unfold alias_of at 1.
  destruct (aliases !! t0) as [a0|] eqn:Ha0; [|done].
  rewrite bind_Ok.
  destruct (join_steps aliases (t0 :: rest) 0 (path_edges pr)) as [js| |] eqn:Hjs;
    [|done..].
  rewrite bind_Ok. intros [= <-] _.
  exists pr, aliases, sc, t0, rest, a0, js.
  destruct (join_steps_spec _ _ _ _ _ Hjs) as (_ & Hfst & _).
  rewrite Hpath. split_and!; try done.
  - destruct select_all; [|by injection Hsel as <-].
    destruct (select_parts aliases (t0 :: rest)) as [parts| |]; [|done..].
    rewrite bind_Ok in Hsel. injection Hsel as <-. by exists parts.
  - simpl. unfold sql_text. rewrite Hfst.
    by destruct js.
Qed.

(** The ON conditions of one step, from the columns of the foreign key: [src]
    are its source columns (on the table the constraint belongs to) and
    [tgt] its target columns. On a forward step the alias of the table
    joined, which is the target table, goes with the target column. On a
    reverse step the table joined is the source table of the constraint, and
    its alias goes with the target column all the same. *)
Lemma join_step_conditions (aliases : gmap string string) (p : list string)
    (i : nat) (edge : Edge) (clause : string) (j : JoinInfo)
    (src tgt : list string) :
  join_step aliases p i edge = Ok (clause, j) →
  columns_of edge "from_columns" = Ok src →
  columns_of edge "to_columns" = Ok tgt →
  ji_on_conditions j
  = if is_reverse edge then
      (λ ts : string * string,
         condition (ji_to_alias j) ts.1 (ji_from_alias j) ts.2) <$> zip tgt src
    else
      (λ st : string * string,
         condition (ji_to_alias j) st.2 (ji_from_alias j) st.1) <$> zip src tgt.
Proof.
  intros Hstep Hsrc Htgt. unfold join_step in Hstep.
  destruct (p !! i) as [from_table|]; [|discriminate].
  destruct (p !! S i) as [to_table|]; [|discriminate].
  unfold alias_of in Hstep.
  destruct (is_reverse edge); rewrite Hsrc, Htgt, !bind_Ok in Hstep;
    destruct (aliases !! to_table) as [to_alias|]; try discriminate;
    rewrite bind_Ok in Hstep;
    destruct (aliases !! from_table) as [from_alias|]; try discriminate;
    rewrite bind_Ok in Hstep; by injection Hstep as <- <-.
Qed.

(** ** Counting the keyword in a text *)

Lemma prefix_cons (c d : ascii) (s1 s2 : string) :
  String.prefix (String c s1) (String d s2)
  = Ascii.eqb c d && String.prefix s1 s2.
Proof.
  simpl. destruct (ascii_dec c d) as [->|Hne].
  - by rewrite Ascii.eqb_refl.
  - apply Ascii.eqb_neq in Hne. by rewrite Hne.
Qed.

(** The matcher counts the occurrences of JOIN: started in state [q] it also
    counts the match it was in the middle of. *)
Lemma dfa_run_occurrences (s : string) (q : nat) :
  (q ≤ 3)%nat →
  (dfa_run q s).1 = (occurrences "JOIN" s + pending q s)%nat.
Proof.
  revert q. induction s as [|c s IH]; intros q Hq.
  - by destruct q as [|[|[|[|q]]]].
  - cbn [dfa_run occurrences]. cbv zeta. unfold dfa_step.
    assert (∀ d s1, String.prefix (String d s1) (String c s)
                    = Ascii.eqb d c && String.prefix s1 s) as Hp
      by (intros; apply prefix_cons).
    assert (∀ q', pending q' (String c s)
                  = match q' with
                    | 1%nat => if Ascii.eqb "O" c && String.prefix "IN" s
                               then 1%nat else O
                    | 2%nat => if Ascii.eqb "I" c && String.prefix "N" s
                               then 1%nat else O
                    | 3%nat => if Ascii.eqb "N" c && String.prefix "" s
                               then 1%nat else O
                    | _ => O
                    end) as Hpend.
    { intros [|[|[|[|q']]]]; unfold pending; by rewrite ?Hp. }
    rewrite Hpend, Hp.
    assert (String.prefix "" s = true) as Hnil by (by destruct s).
    rewrite Hnil.
    destruct (Ascii.eqb_spec c "J") as [->|HJ].
    { cbn [fst snd]. rewrite IH by lia. unfold pending at 1.
      destruct q as [|[|[|[|q]]]]; simpl; lia. }
    assert (Ascii.eqb "J" c = false) as -> by (apply Ascii.eqb_neq; congruence).
    destruct (Ascii.eqb_spec c "O") as [->|HO].
    { cbn [fst snd]. destruct q as [|[|[|[|q]]]]; simpl Nat.eqb; cbv iota;
        rewrite IH by lia; unfold pending at 1; simpl; lia. }
    assert (Ascii.eqb "O" c = false) as -> by (apply Ascii.eqb_neq; congruence).
    destruct (Ascii.eqb_spec c "I") as [->|HI].
    { cbn [fst snd]. destruct q as [|[|[|[|q]]]]; simpl Nat.eqb; cbv iota;
        rewrite IH by lia; unfold pending at 1; simpl; lia. }
    assert (Ascii.eqb "I" c = false) as -> by (apply Ascii.eqb_neq; congruence).
    destruct (Ascii.eqb_spec c "N") as [->|HN].
    { cbn [fst snd]. destruct q as [|[|[|[|q]]]]; simpl Nat.eqb; cbv iota;
        rewrite IH by lia; unfold pending at 1; simpl; lia. }
    assert (Ascii.eqb "N" c = false) as -> by (apply Ascii.eqb_neq; congruence).
    cbn [fst snd]. rewrite IH by lia.
    destruct q as [|[|[|[|q]]]]; simpl; lia.
Qed.

Lemma dfa_run_counts (s : string) :
  (dfa_run 0 s).1 = occurrences "JOIN" s.
Proof. rewrite dfa_run_occurrences by lia. simpl. lia. Qed.

Lemma dfa_run_app (q : nat) (s1 s2 : string) :
  dfa_run q (s1 +:+ s2)
  = (((dfa_run q s1).1 + (dfa_run (dfa_run q s1).2 s2).1)%nat,
     (dfa_run (dfa_run q s1).2 s2).2).
Proof.
  revert q. induction s1 as [|c s1 IH]; intros q.
  - change ("" +:+ s2) with s2. cbn [dfa_run fst snd]. by destruct (dfa_run q s2).
  - change (String c s1 +:+ s2) with (String c (s1 +:+ s2)).
    cbn [dfa_run]. cbv zeta. rewrite IH. cbn [fst snd]. f_equal. lia.
Qed.

(** Pieces compose when the first ends in the initial state or the second
    starts from any state. *)
Lemma piece_app (a b a' b' : bool) (s1 s2 : string) (n1 n2 : nat) :
  piece a b s1 n1 → piece a' b' s2 n2 → b = true ∨ a' = true →
  piece a b' (s1 +:+ s2) (n1 + n2).
Proof.
  intros H1 H2 Hlink q Hq. rewrite dfa_run_app. cbn [fst snd].
  destruct (H1 q Hq) as [Hn1 Hend1].
  destruct (H2 (dfa_run q s1).2) as [Hn2 Hend2].
  { destruct Hlink as [Hb|Ha']; [right; by apply Hend1|by left]. }
  split; [lia|done].
Qed.

Lemma piece_weaken (a b a' b' : bool) (s : string) (n : nat) :
  piece a b s n → (a' = true → a = true) → (b' = true → b = true) →
  piece a' b' s n.
Proof.
  intros H Ha Hb q Hq. destruct (H q) as [Hn Hend].
  - destruct Hq as [?|?]; [left; by apply Ha|by right].
  - split; [done|]. intros ?. by apply Hend, Hb.
Qed.

(** A text holding no occurrence is a piece of no match. *)
Lemma piece_free (s : string) :
  occurrences "JOIN" s = O → piece false false s 0.
Proof.
  intros Hocc q [?| ->]; [done|]. split; [|done]. by rewrite dfa_run_counts.
Qed.

Lemma lacks_J_run (s : string) : lacks_J s = true → dfa_run 0 s = (O, O).
Proof.
  induction s as [|c s IH]; [done|]. simpl.
  intros [HJ Hs]%andb_prop. apply negb_true_iff in HJ.
  unfold dfa_step. rewrite HJ.
  assert ((if Ascii.eqb c "O" then (O, O)
           else if Ascii.eqb c "I" then (O, O)
           else if Ascii.eqb c "N" then (O, O) else (O, O)) = (O, O)) as Hz
    by (by repeat destruct (Ascii.eqb _ _)).
  simpl. by destruct (Ascii.eqb c "O"), (Ascii.eqb c "I"), (Ascii.eqb c "N");
    simpl; rewrite IH.
Qed.

Lemma piece_lacks_J (s : string) : lacks_J s = true → piece false true s 0.
Proof.
  intros Hs q [?| ->]; [done|]. by rewrite lacks_J_run.
Qed.

Lemma lacks_J_app (s1 s2 : string) :
  lacks_J (s1 +:+ s2) = lacks_J s1 && lacks_J s2.
Proof.
  induction s1 as [|c s1 IH]; [done|]. simpl. rewrite IH. by rewrite andb_assoc.
Qed.

Lemma lacks_J_lower (s : string) : lacks_J (lower s) = true.
Proof.
  induction s as [|c s IH]; [done|]. simpl. rewrite IH, andb_true_r.
  apply negb_true_iff, Ascii.eqb_neq.
  destruct c as [[] [] [] [] [] [] [] []]; vm_compute; discriminate.
Qed.

Lemma lacks_J_pretty_N_go (x : N) (s : string) :
  lacks_J s = true → lacks_J (pretty_N_go x s) = true.
Proof.
  revert s. induction (N.lt_wf_0 x) as [x _ IH]; intros s Hs.
  destruct (decide (x = 0)%N) as [->|Hx]; [by rewrite pretty_N_go_0|].
  rewrite pretty_N_go_step by lia. apply IH.
  - apply N.div_lt; lia.
  - simpl. rewrite Hs, andb_true_r. unfold pretty_N_char.
    by repeat case_match.
Qed.

Lemma lacks_J_pretty_nat (n : nat) : lacks_J (pretty n) = true.
Proof.
  unfold pretty, pretty_nat, pretty, pretty_N.
  case_decide; [done|]. by apply lacks_J_pretty_N_go.
Qed.

(** ** Aliases are lower-case *)

Lemma alias_loop_lacks_J (fuel : nat) (name base : string) (used : gset string)
    (counter : nat) (alias a : string) :
  lacks_J base = true → lacks_J alias = true →
  alias_loop fuel name base used counter alias = Ok a → lacks_J a = true.
Proof.
  intros Hbase. revert counter alias.
  assert (∀ k, lacks_J (alias_candidate name base k) = true) as Hcand.
  { intros k. unfold alias_candidate. case_match; [apply lacks_J_lower|].
    by rewrite lacks_J_app, Hbase, lacks_J_pretty_nat. }
  induction fuel as [|fuel IH]; intros counter alias Halias; simpl;
    case_decide; try done; try (by intros [= <-]).
  by apply IH.
Qed.

Lemma aliases_loop_lacks_J (ts : list string)
    (st st' : gmap string string * gset string) :
  (∀ t a, st.1 !! t = Some a → lacks_J a = true) →
  aliases_loop ts st = Ok st' →
  ∀ t a, st'.1 !! t = Some a → lacks_J a = true.
Proof.
  revert st. induction ts as [|t0 ts IH]; intros st Hst; simpl.
  - by intros [= <-].
  - destruct (alias_step t0 st) as [st1| |] eqn:Hstep; [|done..].
    rewrite bind_Ok. apply IH.
    destruct st as [aliases used]. unfold alias_step in Hstep.
    destruct (short_name t0) as [|c rest]; [done|].
    destruct (alias_loop _ _ _ _ _ _) as [alias| |] eqn:Hloop; [|done..].
    rewrite bind_Ok in Hstep. injection Hstep as <-. simpl.
    apply alias_loop_lacks_J in Hloop; [|apply lacks_J_lower..].
    intros t a. rewrite lookup_insert. case_decide; [by intros [= <-]|].
    apply Hst.
Qed.

Lemma generate_aliases_lacks_J (ts : list string) (m : gmap string string)
    (t a : string) :
  _generate_aliases ts = Ok m → m !! t = Some a → lacks_J a = true.
Proof.
  unfold _generate_aliases.
  destruct (aliases_loop ts (∅, ∅)) as [st'| |] eqn:Hloop; [|done..].
  rewrite bind_Ok. intros [= <-].
  apply (aliases_loop_lacks_J ts (∅, ∅) st'); [|done].
  intros t' a'. simpl. by rewrite lookup_empty.
Qed.

(** ** The keyword in the generated text *)

Lemma piece_SELECT : piece true true "SELECT" 0.
Proof. lit_piece. Qed.
Lemma piece_nl : piece true true nl 0.
Proof. lit_piece. Qed.
Lemma piece_FROM : piece true true "FROM " 0.
Proof. lit_piece. Qed.
Lemma piece_space : piece true true " " 0.
Proof. lit_piece. Qed.
Lemma piece_JOIN : piece true true "JOIN " 1.
Proof. lit_piece. Qed.
Lemma piece_ON : piece true true "    ON " 0.
Proof. lit_piece. Qed.
Lemma piece_AND : piece true true " AND " 0.
Proof. lit_piece. Qed.
Lemma piece_comma : piece true true ("," +:+ nl) 0.
Proof. lit_piece. Qed.
Lemma piece_indent : piece true true "    " 0.
Proof. lit_piece. Qed.
Lemma piece_dot_star : piece true true ".*" 0.
Proof. lit_piece. Qed.
Lemma piece_true : piece true true "1=1" 0.
Proof. lit_piece. Qed.
Lemma piece_star : piece true true "    *" 0.
Proof. lit_piece. Qed.
Lemma piece_semicolon : piece true true ";" 0.
Proof. lit_piece. Qed.

Lemma piece_empty : piece false true "" 0.
Proof. by intros q [?| ->]. Qed.

(** Parts that each hold [n] matches, joined by a separator holding none. *)
Lemma piece_join (sep : string) (a b : bool) (n : nat) (parts : list string) :
  piece true true sep 0 →
  Forall (λ p, piece a b p n) parts → parts ≠ [] →
  piece a b (join sep parts) (n * length parts).
Proof.
  intros Hsep Hparts Hne. induction Hparts as [|p parts Hp Hparts IH]; [done|].
  destruct parts as [|p' parts'].
  - simpl. by rewrite Nat.mul_1_r.
  - change (join sep (p :: p' :: parts'))
      with (p +:+ sep +:+ join sep (p' :: parts')).
    replace (n * length (p :: p' :: parts'))%nat
      with (n + (0 + n * length (p' :: parts')))%nat by (simpl; lia).
    apply piece_app with b true; [done| |by right].
    apply piece_app with true a; [done|by apply IH|by left].
Qed.

Lemma piece_on_clause (conds : list string) :
  Forall (λ c, occurrences "JOIN" c = O) conds →
  piece false false (on_clause_of conds) 0.
Proof.
  intros Hfree. destruct conds as [|c conds].
  - apply (piece_weaken true true); [apply piece_true|done..].
  - change (on_clause_of (c :: conds)) with (join " AND " (c :: conds)).
    replace O with (0 * length (c :: conds))%nat by done.
    apply piece_join; [apply piece_AND| |done].
    eapply Forall_impl; [done|]. intros x. apply piece_free.
Qed.

Lemma piece_render_join (j : JoinInfo) :
  occurrences "JOIN" (ji_to_table j) = O →
  lacks_J (ji_to_alias j) = true →
  Forall (λ c, occurrences "JOIN" c = O) (ji_on_conditions j) →
  piece true false (render_join j) 1.
Proof.
  intros Ht Ha Hc. unfold render_join.
  replace 1%nat with (1 + (0 + (0 + (0 + (0 + (0 + 0))))))%nat by done.
  apply piece_app with true false; [apply piece_JOIN| |by left].
  apply piece_app with false true; [by apply piece_free| |by right].
  apply piece_app with true false; [apply piece_space| |by left].
  apply piece_app with true true; [by apply piece_lacks_J| |by left].
  apply piece_app with true true; [apply piece_nl| |by left].
  apply piece_app with true false; [apply piece_ON| |by left].
  by apply piece_on_clause.
Qed.

Lemma piece_select_parts (als : list string) :
  Forall (λ a, lacks_J a = true) als →
  piece false true (join ("," +:+ nl) ((λ a, "    " +:+ a +:+ ".*") <$> als)) 0.
Proof.
  intros Hals. destruct als as [|a als]; [apply piece_empty|].
  apply (piece_weaken true true); [|done..].
  replace O with (0 * length ((λ a, "    " +:+ a +:+ ".*") <$> a :: als))%nat
    by done.
  apply piece_join; [apply piece_comma| |done].
  apply Forall_fmap. eapply Forall_impl; [done|]. intros x Hx. simpl.
  replace O with (0 + (0 + 0))%nat by done.
  apply piece_app with true false; [apply piece_indent| |by left].
  apply piece_app with true true; [by apply piece_lacks_J|apply piece_dot_star|].
  by left.
Qed.

(** The text of a join holds one match per JOIN clause when none hides in a
    table id or in an ON condition. *)
Lemma sql_text_occurrences (select_clause t0 a0 : string) (js : list JoinInfo) :
  piece false true select_clause 0 →
  occurrences "JOIN" t0 = O → lacks_J a0 = true →
  Forall (λ j, occurrences "JOIN" (ji_to_table j) = O
               ∧ lacks_J (ji_to_alias j) = true
               ∧ Forall (λ c, occurrences "JOIN" c = O) (ji_on_conditions j))
    js →
  occurrences "JOIN" (sql_text select_clause t0 a0 js) = length js.
Proof.
  intros Hsel Ht0 Ha0 Hjs. rewrite <- dfa_run_counts.
  assert (piece true true
            ("SELECT" +:+ nl +:+ select_clause +:+ nl +:+ "FROM "
             +:+ (t0 +:+ " " +:+ a0)) 0) as Hsql0.
  { replace O with (0 + (0 + (0 + (0 + (0 + (0 + (0 + 0)))))))%nat by done.
    apply piece_app with true true; [apply piece_SELECT| |by left].
    apply piece_app with true false; [apply piece_nl| |by left].
    apply piece_app with true true; [done| |by left].
    apply piece_app with true true; [apply piece_nl| |by left].
    apply piece_app with true false; [apply piece_FROM| |by left].
    apply piece_app with false true; [by apply piece_free| |by right].
    apply piece_app with true false; [apply piece_space| |by left].
    by apply piece_lacks_J. }
  unfold sql_text. destruct js as [|j js].
  - destruct (piece_app true true true true _ ";" 0 0 Hsql0 piece_semicolon
                (or_introl eq_refl) O (or_introl eq_refl)) as [-> _].
    done.
  - set (cs := j :: js) in *.
    assert (piece true false (join nl (render_join <$> cs)) (1 * length cs))
      as Hjoins.
    { rewrite <- (length_fmap render_join).
      apply piece_join; [apply piece_nl| |done].
      apply Forall_fmap. eapply Forall_impl; [done|].
      intros x (? & ? & ?). by apply piece_render_join. }
    assert (piece true true
              ((("SELECT" +:+ nl +:+ select_clause +:+ nl +:+ "FROM "
                 +:+ (t0 +:+ " " +:+ a0)) +:+ nl
                +:+ join nl (render_join <$> cs)) +:+ ";")
              (0 + (0 + 1 * length cs) + 0)) as Hall.
    { apply piece_app with false true; [|apply piece_semicolon|by right].
      apply piece_app with true true; [done| |by left].
      apply piece_app with true true; [apply piece_nl|done|by left]. }
    destruct (Hall O (or_introl eq_refl)) as [-> _]. lia.
Qed.

(** ** The generated join *)

(** C6, as the code has it: the text of a successful join over [k] tables is
    a SELECT list, a FROM clause and [k-1] JOIN clauses; the ON conditions of
    each clause compare the alias that clause introduces with the alias
    introduced just before it (by FROM for the first clause); and the text
    holds exactly [k-1] occurrences of JOIN provided none occurs in a table
    id or in an ON condition. *)
Theorem generate_join_text (eng : QueryEngine) (ts : list string)
    (select_all : bool) (r : JoinResult) :
  store_wf (storage eng) →
  generate_join eng ts select_all = Ok r → success r = true →
  ∃ select_clause t0 a0,
    sql r = sql_text select_clause t0 a0 (joins r)
    ∧ length (joins r) = (length (jr_tables r) - 1)%nat
    ∧ (∀ i j, joins r !! i = Some j →
         ∃ a_prev, introduced_aliases a0 (joins r) !! i = Some a_prev
                   ∧ on_uses a_prev j)
    ∧ ((∀ t, t ∈ jr_tables r → occurrences "JOIN" t = O) →
       (∀ j c, j ∈ joins r → c ∈ ji_on_conditions j →
               occurrences "JOIN" c = O) →
       occurrences "JOIN" (sql r) = (length (jr_tables r) - 1)%nat).
Proof.
  intros Hswf Hgen Hsucc.
  destruct (generate_join_success eng ts select_all r Hgen Hsucc)
    as (pr & aliases & sc & t0 & rest & a0 & js & Hmp & Hfound & Hal & Hpath
        & Ha0 & Hsel & Hjs & Htables & Hjoins & Hsql).
  destruct (find_multi_path_found eng ts pr Hswf Hmp Hfound) as [Hchain _].
  apply chain_length in Hchain.
  destruct (join_steps_spec _ _ _ _ _ Hjs) as (Hlen & _ & Hsteps).
  assert (length (joins r) = (length (jr_tables r) - 1)%nat) as Hcount.
  { rewrite Hjoins, Htables, length_fmap, Hlen, Hchain. lia. }
  exists sc, t0, a0. rewrite Hjoins, Htables in *.
  split_and!; [done|done| |].
  - intros i j Hj.
    destruct (Hsteps i j Hj) as (Hfrom & _ & Hafrom & _ & Huses).
    exists (ji_from_alias j). split; [|done].
    destruct i as [|i]; simpl.
    + rewrite Hpath in Hfrom. simpl in Hfrom. injection Hfrom as Heq.
      congruence.
    + destruct (lookup_lt_is_Some_2 (snd <$> js) i) as [jp Hjp].
      { apply lookup_lt_Some in Hj. lia. }
      destruct (Hsteps i jp Hjp) as (_ & Hto & _ & Hato & _).
      simpl in Hfrom, Hto. rewrite Hto in Hfrom. injection Hfrom as Heq.
      rewrite list_lookup_fmap, Hjp. simpl. congruence.
  - intros Htabs Hconds. rewrite Hsql, <- Hcount.
    apply sql_text_occurrences.
    + destruct select_all.
      * destruct Hsel as (parts & Hparts & ->).
        destruct (select_parts_spec _ _ _ Hparts) as (als & Hals & ->).
        apply piece_select_parts. apply Forall_forall. intros a Ha.
        apply list_elem_of_lookup in Ha as [i Hi].
        destruct (Forall2_lookup_r _ _ _ _ _ Hals Hi) as (t & _ & Ht).
        by apply (generate_aliases_lacks_J _ _ t a Hal).
      * rewrite Hsel. by apply (piece_weaken true true); [apply piece_star|..].
    + apply Htabs. rewrite Hpath. apply list_elem_of_here.
    + by apply (generate_aliases_lacks_J _ _ t0 a0 Hal).
    + apply Forall_forall. intros j Hj.
      apply list_elem_of_lookup in Hj as Hi. destruct Hi as [i Hi].
      destruct (Hsteps i j Hi) as (_ & Hto & _ & Hato & _).
      split_and!.
      * apply Htabs. by eapply list_elem_of_lookup_2.
      * by apply (generate_aliases_lacks_J _ _ _ _ Hal Hato).
      * apply Forall_forall. intros c Hc. by apply (Hconds j c).
Qed.

Lemma generate_join_text_witness :
  store_wf (storage Sample.shop_engine)
  ∧ ∃ r, generate_join Sample.shop_engine
           ["dbo.Users"; "dbo.Orders"; "dbo.OrderItems"] true = Ok r
         ∧ success r = true
         ∧ ∃ select_clause t0 a0,
             sql r = sql_text select_clause t0 a0 (joins r)
             ∧ length (joins r) = (length (jr_tables r) - 1)%nat
             ∧ (∀ i j, joins r !! i = Some j →
                  ∃ a_prev, introduced_aliases a0 (joins r) !! i = Some a_prev
                            ∧ on_uses a_prev j)
             ∧ ((∀ t, t ∈ jr_tables r → occurrences "JOIN" t = O) →
                (∀ j c, j ∈ joins r → c ∈ ji_on_conditions j →
                        occurrences "JOIN" c = O) →
                occurrences "JOIN" (sql r) = (length (jr_tables r) - 1)%nat).
Proof.
  assert (store_wf (storage Sample.shop_engine)) as Hwf.
  { unfold store_wf.
    split_and!; refine (bool_decide_unpack (NoDup _) _); vm_compute; exact I. }
  split; [exact Hwf|].
  destruct (generate_join Sample.shop_engine
              ["dbo.Users"; "dbo.Orders"; "dbo.OrderItems"] true)
    as [r| |] eqn:Hgen; [|vm_compute in Hgen; discriminate Hgen..].
  assert (success r = true) as Hsucc.
  { vm_compute in Hgen. injection Hgen as <-. reflexivity. }
  exists r. split; [reflexivity|]. split; [exact Hsucc|].
  exact (generate_join_text Sample.shop_engine
           ["dbo.Users"; "dbo.Orders"; "dbo.OrderItems"] true r Hwf Hgen Hsucc).
Defined.

(** The claim of C6 as it is worded fails when a table name holds the
    keyword: joining the table [Order JOIN Log] with one other table gives a
    text with two occurrences of JOIN for a path of two tables. *)
Lemma keyword_count_with_keyword_in_name :
  ¬ (∀ (eng : QueryEngine) (ts : list string) (select_all : bool)
       (r : JoinResult),
       generate_join eng ts select_all = Ok r → success r = true →
       occurrences "JOIN" (sql r) = (length (jr_tables r) - 1)%nat).
Proof.
  intros H.
  assert (∃ r, generate_join Sample.logbook_engine
                 ["dbo.Order JOIN Log"; "dbo.Batch"] true = Ok r
               ∧ success r = true
               ∧ occurrences "JOIN" (sql r) = 2%nat
               ∧ length (jr_tables r) = 2%nat) as (r & Hgen & Hsucc & Hocc & Hk).
  { vm_compute. eexists. split_and!; reflexivity. }
  pose proof (H _ _ _ _ Hgen Hsucc) as Heq.
  rewrite Hocc, Hk in Heq. discriminate Heq.
Qed.

(** * Further properties *)

(** ** Writing and reading back *)

(** An [INSERT OR REPLACE] on a table keyed by [f], followed by a lookup. *)
Lemma find_replace_eq {A} (f : A → string) (x : A) (l : list A) :
  List.find (λ y, String.eqb (f y) (f x)) (filter (λ y, f y ≠ f x) l ++ [x])
  = Some x.
Proof.
  rewrite find_app_last.
  assert (List.find (λ y, String.eqb (f y) (f x))
            (filter (λ y, f y ≠ f x) l) = None) as ->.
  { induction l as [|y l IH]; [done|].
    rewrite filter_cons. case_decide as Hy; [|done].
    simpl. apply eqb_string_false in Hy. by rewrite Hy. }
  by rewrite String.eqb_refl.
Qed.

Lemma find_replace_ne {A} (f : A → string) (i : string) (x : A) (l : list A) :
  i ≠ f x →
  List.find (λ y, String.eqb (f y) i) (filter (λ y, f y ≠ f x) l ++ [x])
  = List.find (λ y, String.eqb (f y) i) l.
Proof.
  intros Hne. rewrite find_app_last.
  assert (List.find (λ y, String.eqb (f y) i) (filter (λ y, f y ≠ f x) l)
          = List.find (λ y, String.eqb (f y) i) l) as ->.
  { induction l as [|y l IH]; [done|].
    rewrite filter_cons. case_decide as Hy; simpl.
    - by rewrite IH.
    - rewrite IH.
      assert (String.eqb (f y) i = false) as ->; [|done].
      apply eqb_string_false. congruence. }
  destruct (List.find _ l); [done|].
  assert (String.eqb (f x) i = false) as ->; [|done].
  apply eqb_string_false. congruence.
Qed.

(** X1. [add_node] followed by [get_node]: the node written under an id is
    the node read back under that id, whatever the store held there before,
    and every other id reads as it did before the write. *)
Theorem add_node_then_get_node (n : Node) (st : GraphStorage) :
  get_node (node_id n) (add_node n st) = Some n
  ∧ ∀ i, i ≠ node_id n → get_node i (add_node n st) = get_node i st.
Proof.
  split.
  - apply (find_replace_eq node_id).
  - intros i Hi. by apply (find_replace_ne node_id).
Qed.

(** X2. [add_edge] followed by [get_edge]: for an edge whose weight fits a
    signed 64-bit word the call returns, the edge written under an id is the
    edge read back under that id, and every other id reads as it did before
    the write; for any other weight the call raises [OverflowError]. *)
Theorem add_edge_then_get_edge (e : Edge) (st : GraphStorage) :
  if fits_int64 (weight e) then
    ∃ st', try_add_edge e st = Ok st'
           ∧ get_edge (edge_id e) st' = Some e
           ∧ ∀ i, i ≠ edge_id e → get_edge i st' = get_edge i st
  else try_add_edge e st = Raise OverflowError.
Proof.
  unfold try_add_edge. destruct (fits_int64 (weight e)); [|done].
  eexists. split_and!; [done|..].
  - apply (find_replace_eq edge_id).
  - intros i Hi. by apply (find_replace_ne edge_id).
Qed.

(** X3. [set_metadata] followed by [get_metadata]: the value stored under a
    key is the value read back, every other key reads as before, and after
    [clear] every key reads as [None]. *)
Theorem set_metadata_then_get_metadata (k : string) (v : value)
    (st : GraphStorage) :
  get_metadata k (set_metadata k v st) = Some v
  ∧ (∀ k', k' ≠ k → get_metadata k' (set_metadata k v st) = get_metadata k' st)
  ∧ get_metadata k (clear st) = None.
Proof.
  split_and!.
  - unfold get_metadata, set_metadata; simpl.
    by rewrite (find_replace_eq fst (k, v)).
  - intros k' Hk. unfold get_metadata, set_metadata; simpl.
    by rewrite (find_replace_ne fst k' (k, v)).
  - done.
Qed.

Lemma get_node_add_nodes_notin (ns : list Node) (st : GraphStorage)
    (i : string) :
  i ∉ node_id <$> ns → get_node i (add_nodes ns st) = get_node i st.
Proof.
  induction ns as [|n ns IH] using rev_ind; [done|].
  rewrite fmap_app, not_elem_of_app, add_nodes_snoc. intros [Hns Hn].
  rewrite get_node_add_node_ne; [by apply IH|].
  intros ->. apply Hn. apply list_elem_of_here.
Qed.

Lemma add_nodes_app (ns1 ns2 : list Node) (st : GraphStorage) :
  add_nodes (ns1 ++ ns2) st = add_nodes ns2 (add_nodes ns1 st).
Proof. unfold add_nodes. by rewrite fold_left_app. Qed.

Lemma add_edges_app (es1 es2 : list Edge) (st : GraphStorage) :
  add_edges (es1 ++ es2) st = add_edges es2 (add_edges es1 st).
Proof. unfold add_edges. by rewrite fold_left_app. Qed.

Lemma get_edge_add_edge_eq (e : Edge) (st : GraphStorage) :
  get_edge (edge_id e) (add_edge e st) = Some e.
Proof. apply (find_replace_eq edge_id). Qed.

Lemma get_edge_add_edge_ne (i : string) (e : Edge) (st : GraphStorage) :
  i ≠ edge_id e → get_edge i (add_edge e st) = get_edge i st.
Proof. intros Hi. by apply (find_replace_ne edge_id). Qed.

Lemma get_edge_add_edges_notin (es : list Edge) (st : GraphStorage)
    (i : string) :
  i ∉ edge_id <$> es → get_edge i (add_edges es st) = get_edge i st.
Proof.
  induction es as [|e es IH] using rev_ind; [done|].
  rewrite fmap_app, not_elem_of_app, add_edges_app. intros [Hes He].
  change (add_edges [e] (add_edges es st)) with (add_edge e (add_edges es st)).
  rewrite get_edge_add_edge_ne; [by apply IH|].
  intros ->. apply He. apply list_elem_of_here.
Qed.

Lemma try_add_edges_fit (es : list Edge) (st : GraphStorage) :
  Forall (λ e, fits_int64 (weight e) = true) es →
  try_add_edges es st = Ok (add_edges es st).
Proof.
  intros Hfit. revert st.
  induction Hfit as [|e es He _ IH]; intros st; [done|].
  simpl. unfold try_add_edge. rewrite He. simpl. apply IH.
Qed.

Lemma try_add_edges_overflow (es : list Edge) (st : GraphStorage) :
  ¬ Forall (λ e, fits_int64 (weight e) = true) es →
  try_add_edges es st = Raise OverflowError.
Proof.
  revert st. induction es as [|e es IH]; intros st Hnot.
  - destruct Hnot. constructor.
  - simpl. unfold try_add_edge.
    destruct (fits_int64 (weight e)) eqn:He; [|done].
    simpl. apply IH. intros Hes. apply Hnot. by constructor.
Qed.

(** X4. Bulk inserts are applied row by row, so the last row written under
    an id wins: after [add_nodes] a row of the batch that no later row of
    the batch shares its id with is read back unchanged, and an id that the
    batch does not mention reads as before. [add_edges] does the same when
    every weight of the batch fits a signed 64-bit word, and raises
    [OverflowError] when one does not. *)
Theorem bulk_insert_last_write_wins (st : GraphStorage) :
  (∀ pre n post, node_id n ∉ node_id <$> post →
     get_node (node_id n) (add_nodes (pre ++ n :: post) st) = Some n)
  ∧ (∀ ns i, i ∉ node_id <$> ns → get_node i (add_nodes ns st) = get_node i st)
  ∧ (∀ es, Forall (λ e, fits_int64 (weight e) = true) es →
       ∃ st', try_add_edges es st = Ok st'
              ∧ (∀ pre e post, es = pre ++ e :: post →
                   edge_id e ∉ edge_id <$> post →
                   get_edge (edge_id e) st' = Some e)
              ∧ (∀ i, i ∉ edge_id <$> es → get_edge i st' = get_edge i st))
  ∧ (∀ es, ¬ Forall (λ e, fits_int64 (weight e) = true) es →
       try_add_edges es st = Raise OverflowError).
Proof.
  split_and!.
  - intros pre n post Hpost.
    rewrite (add_nodes_app pre (n :: post)).
    change (add_nodes (n :: post) ?s) with (add_nodes post (add_node n s)).
    rewrite get_node_add_nodes_notin by done. apply get_node_add_node_eq.
  - intros ns i. apply get_node_add_nodes_notin.
  - intros es Hfit. exists (add_edges es st). split_and!.
    + by apply try_add_edges_fit.
    + intros pre e post -> Hpost.
      rewrite (add_edges_app pre (e :: post)).
      change (add_edges (e :: post) ?s) with (add_edges post (add_edge e s)).
      rewrite get_edge_add_edges_notin by done. apply get_edge_add_edge_eq.
    + intros i. apply get_edge_add_edges_notin.
  - intros es. apply try_add_edges_overflow.
Qed.

(** X5. The primary keys survive every write: on a store whose node ids,
    edge ids and metadata keys are each unique, [clear], [add_node],
    [add_nodes], [add_edge], [add_edges] and [set_metadata] all leave a store
    with unique ids and keys, and so does a whole [build], with or without
    clearing first. *)
Theorem writes_keep_keys_unique (st : GraphStorage) :
  store_wf st →
  store_wf (clear st)
  ∧ (∀ n, store_wf (add_node n st))
  ∧ (∀ ns, store_wf (add_nodes ns st))
  ∧ (∀ e, store_wf (add_edge e st))
  ∧ (∀ es, store_wf (add_edges es st))
  ∧ (∀ k v, store_wf (set_metadata k v st))
  ∧ (∀ md clear_existing now, store_wf (build md clear_existing now st).2).
Proof.
  intros Hwf. split_and!.
  - apply empty_storage_wf.
  - intros n. by apply add_node_wf.
  - intros ns. by apply add_nodes_wf.
  - intros e. by apply add_edge_wf.
  - intros es. by apply add_edges_wf.
  - intros k v. by apply set_metadata_wf.
  - intros md c now. by apply build_wf.
Qed.

Lemma writes_keep_keys_unique_witness :
  store_wf Sample.skewed_store
  ∧ (store_wf (clear Sample.skewed_store)
     ∧ (∀ n, store_wf (add_node n Sample.skewed_store))
     ∧ (∀ ns, store_wf (add_nodes ns Sample.skewed_store))
     ∧ (∀ e, store_wf (add_edge e Sample.skewed_store))
     ∧ (∀ es, store_wf (add_edges es Sample.skewed_store))
     ∧ (∀ k v, store_wf (set_metadata k v Sample.skewed_store))
     ∧ (∀ md clear_existing now,
          store_wf (build md clear_existing now Sample.skewed_store).2)).
Proof.
  assert (store_wf Sample.skewed_store) as Hwf.
  { split_and!;
      (refine (bool_decide_unpack (NoDup _) _); vm_compute; exact I). }
  split; [exact Hwf|].
  exact (writes_keep_keys_unique Sample.skewed_store Hwf).
Defined.



(** ** What a build stores *)

Lemma get_metadata_set_eq (k : string) (v : value) (st : GraphStorage) :
  get_metadata k (set_metadata k v st) = Some v.
Proof.
  unfold get_metadata, set_metadata; simpl.
  by rewrite (find_replace_eq fst (k, v)).
Qed.

Lemma get_metadata_set_ne (k' k : string) (v : value) (st : GraphStorage) :
  k' ≠ k → get_metadata k' (set_metadata k v st) = get_metadata k' st.
Proof.
  intros Hk. unfold get_metadata, set_metadata; simpl.
  by rewrite (find_replace_ne fst k' (k, v)).
Qed.

(** The store that [build] leaves behind when it starts by clearing. *)
Lemma build_clear_store (md : RawMetadata) (now : string) (st : GraphStorage) :
  (build md true now st).2
  = set_metadata "version" (VStr "1.0")
      (set_metadata "scan_timestamp" (VStr now)
      (set_metadata "server_name" (VStr (server_name md))
      (set_metadata "database_name" (VStr (database_name md))
      (add_edges
         (concat ((λ fk, imap (fk_col_edge fk) (column_pairs fk))
                    <$> foreign_keys md))
      (add_edges (_create_fk_edges (foreign_keys md))
      (add_nodes (_create_column_nodes (_build_pk_lookup (primary_keys md))
                    (columns md))
      (add_nodes (_create_table_nodes (tables md) (primary_keys md))
         empty_storage))))))).
Proof.
  unfold build, clear, _create_fk_column_edges.
  pose proof (create_fk_column_edges_loop_empty (foreign_keys md) []) as H.
  pose proof (create_fk_column_edges_loop_fst (foreign_keys md) []
                empty_storage) as H1.
  destruct (_create_fk_column_edges_loop (foreign_keys md) [] empty_storage)
    as [es st'] eqn:E.
  simpl in H, H1. by subst st' es.
Qed.

Lemma build_stats_fst (md : RawMetadata) (c : bool) (now : string)
    (st : GraphStorage) :
  (build md c now st).1
  = mkBuildStats (length (tables md)) (length (columns md))
      (length (_create_fk_edges (foreign_keys md)))
      (length (concat ((λ fk, imap (fk_col_edge fk) (column_pairs fk))
                         <$> foreign_keys md)))
      (database_name md) (server_name md).
Proof.
  unfold build, _create_fk_column_edges.
  pose proof (create_fk_column_edges_loop_fst (foreign_keys md) []
                (if c then clear st else st)) as H1.
  destruct (_create_fk_column_edges_loop (foreign_keys md) []
              (if c then clear st else st)) as [es st'] eqn:E.
  simpl in H1. subst es. simpl.
  unfold _create_table_nodes, _create_column_nodes.
  by rewrite !length_fmap.
Qed.

Lemma edges_add_nodes (ns : list Node) (st : GraphStorage) :
  edges (add_nodes ns st) = edges st.
Proof.
  revert st. induction ns as [|n ns IH]; intros st; [done|].
  unfold add_nodes in *; simpl. by rewrite IH.
Qed.

Lemma edges_set_metadata (k : string) (v : value) (st : GraphStorage) :
  edges (set_metadata k v st) = edges st.
Proof. done. Qed.

Lemma elem_of_nodes_add_nodes (ns : list Node) (st : GraphStorage) (n : Node) :
  n ∈ nodes (add_nodes ns st) → n ∈ ns ∨ n ∈ nodes st.
Proof.
  induction ns as [|m ns IH] using rev_ind; [by right|].
  rewrite add_nodes_snoc. unfold add_node at 1; simpl.
  rewrite elem_of_app, list_elem_of_filter, list_elem_of_singleton.
  intros [[_ Hn]| ->].
  - destruct (IH Hn) as [?|?]; [left|by right].
    apply elem_of_app. by left.
  - left. apply elem_of_app. right. apply list_elem_of_here.
Qed.

Lemma elem_of_edges_add_edges (es : list Edge) (st : GraphStorage) (e : Edge) :
  e ∈ edges (add_edges es st) → e ∈ es ∨ e ∈ edges st.
Proof.
  induction es as [|m es IH] using rev_ind; [by right|].
  rewrite add_edges_app.
  change (add_edges [m] ?s) with (add_edge m s).
  unfold add_edge at 1; simpl.
  rewrite elem_of_app, list_elem_of_filter, list_elem_of_singleton.
  intros [[_ Hn]| ->].
  - destruct (IH Hn) as [?|?]; [left|by right].
    apply elem_of_app. by left.
  - left. apply elem_of_app. right. apply list_elem_of_here.
Qed.

Lemma is_Some_get_node (i : string) (st : GraphStorage) :
  is_Some (get_node i st) ↔ i ∈ node_id <$> nodes st.
Proof.
  unfold get_node. induction (nodes st) as [|n l IH]; simpl.
  - split; [by intros [? ?]|by intros ?%elem_of_nil].
  - rewrite elem_of_cons. destruct (String.eqb (node_id n) i) eqn:E.
    + apply eqb_string_true in E. split; [by left|by eexists].
    + apply eqb_string_false in E. rewrite IH. split; [by right|].
      intros [?|?]; [congruence|done].
Qed.

Lemma ids_add_node (n : Node) (st : GraphStorage) (i : string) :
  i ∈ node_id <$> nodes (add_node n st)
  ↔ i = node_id n ∨ i ∈ node_id <$> nodes st.
Proof.
  rewrite <- !is_Some_get_node.
  destruct (decide (i = node_id n)) as [->|Hne].
  - rewrite get_node_add_node_eq. split; [by left|by eexists].
  - rewrite get_node_add_node_ne by done. split; [by right|].
    by intros [?|?].
Qed.

Lemma ids_add_nodes (ns : list Node) (st : GraphStorage) (i : string) :
  i ∈ node_id <$> nodes (add_nodes ns st)
  ↔ i ∈ node_id <$> ns ∨ i ∈ node_id <$> nodes st.
Proof.
  induction ns as [|n ns IH] using rev_ind.
  - split; [by right|]. by intros [?%elem_of_nil|?].
  - rewrite add_nodes_snoc, ids_add_node, IH, fmap_app, elem_of_app.
    simpl. rewrite list_elem_of_singleton. tauto.
Qed.

Lemma built_node_cases (md : RawMetadata) (now : string) (st : GraphStorage)
    (n : Node) :
  n ∈ nodes (build md true now st).2 →
  (node_type n = "table"
   ∧ ∃ t, t ∈ tables md ∧ node_id n = t_full_name t
          ∧ node_data n !! "schema" = Some (VStr (t_schema t))
          ∧ node_data n !! "name" = Some (VStr (t_name t)))
  ∨ (node_type n = "column"
     ∧ ∃ c, c ∈ columns md ∧ node_id n = c_full_name c
            ∧ node_data n !! "table" = Some (VStr (c_full_table_name c))
            ∧ node_data n !! "name" = Some (VStr (c_name c))).
Proof.
  rewrite nodes_build_clear.
  intros [Hn|Hn]%elem_of_nodes_add_nodes.
  - right. unfold _create_column_nodes in Hn.
    apply list_elem_of_fmap in Hn as (c & -> & Hc).
    split; [done|]. by exists c.
  - apply elem_of_nodes_add_nodes in Hn as [Hn|Hn]; [|by apply elem_of_nil in Hn].
    left. unfold _create_table_nodes in Hn.
    apply list_elem_of_fmap in Hn as (t & -> & Ht).
    split; [done|]. by exists t.
Qed.

(** X7. After a build that starts by clearing, the ids under which a node
    can be read back are exactly the full names of the tables and of the
    columns of the snapshot, and every stored node is the table node of one
    of its tables or the column node of one of its columns. No node is
    created for a table that only a foreign key mentions. *)
Theorem build_stores_the_snapshot_nodes (md : RawMetadata) (now : string)
    (st : GraphStorage) :
  (∀ i, is_Some (get_node i (build md true now st).2)
        ↔ i ∈ t_full_name <$> tables md ∨ i ∈ c_full_name <$> columns md)
  ∧ ∀ n, n ∈ nodes (build md true now st).2 →
      (node_type n = "table"
       ∧ ∃ t, t ∈ tables md ∧ node_id n = t_full_name t
              ∧ node_data n !! "schema" = Some (VStr (t_schema t))
              ∧ node_data n !! "name" = Some (VStr (t_name t)))
      ∨ (node_type n = "column"
         ∧ ∃ c, c ∈ columns md ∧ node_id n = c_full_name c
                ∧ node_data n !! "table" = Some (VStr (c_full_table_name c))
                ∧ node_data n !! "name" = Some (VStr (c_name c))).
Proof.
  split.
  - intros i. rewrite is_Some_get_node, nodes_build_clear, !ids_add_nodes.
    unfold _create_table_nodes, _create_column_nodes.
    rewrite <- !list_fmap_compose. simpl.
    split.
    + intros [?|[?|?%elem_of_nil]]; [by right|by left|done].
    + intros [?|?]; [right; by left|by left].
  - apply built_node_cases.
Qed.

Lemma elem_of_concat_imap {A B} (f : A → list B) (l : list A) (y : B) :
  y ∈ concat (f <$> l) ↔ ∃ x, x ∈ l ∧ y ∈ f x.
Proof.
  induction l as [|x l IH]; simpl.
  - split; [by intros ?%elem_of_nil|]. by intros (? & ?%elem_of_nil & _).
  - rewrite elem_of_app, IH. split.
    + intros [Hy|(x' & Hx' & Hy)].
      * exists x. split; [apply list_elem_of_here|done].
      * exists x'. split; [by apply list_elem_of_further|done].
    + intros (x' & [->|Hx']%elem_of_cons & Hy); [by left|].
      right. by exists x'.
Qed.

Lemma elem_of_imap_lookup {A B} (f : nat → A → B) (l : list A) (y : B) :
  y ∈ imap f l ↔ ∃ i x, l !! i = Some x ∧ y = f i x.
Proof.
  rewrite list_elem_of_lookup. split.
  - intros (i & Hi). rewrite list_lookup_imap in Hi.
    destruct (l !! i) as [x|] eqn:E; [|done].
    simpl in Hi. exists i, x. split; [done|congruence].
  - intros (i & x & Hx & ->). exists i.
    by rewrite list_lookup_imap, Hx.
Qed.

Lemma built_edge_weight (md : RawMetadata) (now : string) (st : GraphStorage)
    (e : Edge) :
  e ∈ edges (build md true now st).2 → weight e = 1.
Proof.
  rewrite build_clear_store. rewrite !edges_set_metadata.
  intros [He|He]%elem_of_edges_add_edges.
  - apply elem_of_concat_imap in He as (fk & _ & He).
    by apply elem_of_imap_lookup in He as (i & p & _ & ->).
  - apply elem_of_edges_add_edges in He as [He|He].
    + destruct (create_fk_edges_loop_spec (foreign_keys md) ∅ [])
        as (kept & Heq & _).
      unfold _create_fk_edges in He. rewrite Heq in He. simpl in He.
      by apply list_elem_of_fmap in He as (fk & -> & _).
    + rewrite !edges_add_nodes in He. by apply elem_of_nil in He.
Qed.

(** X8. After a build that starts by clearing, every stored edge has
    weight 1 and is either the table-level [fk] edge of a constraint of the
    snapshot, running from its referencing to its referenced table, or the
    column-level [fk_col] edge of one of its column pairs. *)
Theorem build_stores_only_key_edges (md : RawMetadata) (now : string)
    (st : GraphStorage) (e : Edge) :
  e ∈ edges (build md true now st).2 →
  weight e = 1
  ∧ ((edge_type e = "fk"
      ∧ ∃ fk, fk ∈ foreign_keys md ∧ e = fk_edge fk
              ∧ from_id e = from_full_name fk ∧ to_id e = to_full_name fk)
     ∨ (edge_type e = "fk_col"
        ∧ ∃ fk i p, fk ∈ foreign_keys md ∧ column_pairs fk !! i = Some p
                    ∧ e = fk_col_edge fk i p)).
Proof.
  rewrite build_clear_store. rewrite !edges_set_metadata.
  intros [He|He]%elem_of_edges_add_edges.
  - apply elem_of_concat_imap in He as (fk & Hfk & He).
    apply elem_of_imap_lookup in He as (i & p & Hp & ->).
    split; [done|]. right. split; [done|]. by exists fk, i, p.
  - apply elem_of_edges_add_edges in He as [He|He].
    + destruct (create_fk_edges_loop_spec (foreign_keys md) ∅ [])
        as (kept & Heq & _ & _ & _ & Hkept).
      unfold _create_fk_edges in He. rewrite Heq in He. simpl in He.
      apply list_elem_of_fmap in He as (fk & -> & Hfk).
      destruct (Hkept fk Hfk) as (pre & post & Hsplit & _).
      split; [done|]. left. split; [done|]. exists fk.
      split_and!; [|done..]. rewrite Hsplit.
      apply elem_of_app. right. apply list_elem_of_here.
    + rewrite !edges_add_nodes in He. by apply elem_of_nil in He.
Qed.

Lemma build_stores_only_key_edges_witness :
  fk_edge Sample.orders_users ∈ edges Sample.shop_store
  ∧ weight (fk_edge Sample.orders_users) = 1
  ∧ ((edge_type (fk_edge Sample.orders_users) = "fk"
      ∧ ∃ fk, fk ∈ foreign_keys Sample.shop
              ∧ fk_edge Sample.orders_users = fk_edge fk
              ∧ from_id (fk_edge Sample.orders_users) = from_full_name fk
              ∧ to_id (fk_edge Sample.orders_users) = to_full_name fk)
     ∨ (edge_type (fk_edge Sample.orders_users) = "fk_col"
        ∧ ∃ fk i p, fk ∈ foreign_keys Sample.shop
                    ∧ column_pairs fk !! i = Some p
                    ∧ fk_edge Sample.orders_users = fk_col_edge fk i p)).
Proof.
  assert (fk_edge Sample.orders_users ∈ edges Sample.shop_store) as He
    by (vm_compute; repeat constructor).
  split; [exact He|].
  exact (build_stores_only_key_edges Sample.shop "2024-01-01T00:00:00"
           empty_storage _ He).
Defined.

(** X9. A build records the database name, the server name, the scan time
    and the version ["1.0"] of the format, replacing what an earlier build
    recorded: whether or not the store is cleared first, the four keys read
    back as the values of this build. *)
Theorem build_records_its_provenance (md : RawMetadata) (clear_existing : bool)
    (now : string) (st : GraphStorage) :
  get_metadata "database_name" (build md clear_existing now st).2
  = Some (VStr (database_name md))
  ∧ get_metadata "server_name" (build md clear_existing now st).2
    = Some (VStr (server_name md))
  ∧ get_metadata "scan_timestamp" (build md clear_existing now st).2
    = Some (VStr now)
  ∧ get_metadata "version" (build md clear_existing now st).2
    = Some (VStr "1.0").
Proof.
  unfold build, _create_fk_column_edges.
  destruct (_create_fk_column_edges_loop (foreign_keys md) []
              (if clear_existing then clear st else st)) as [es st'].
  simpl. split_and!.
  - rewrite !get_metadata_set_ne by done. apply get_metadata_set_eq.
  - rewrite !get_metadata_set_ne by done. apply get_metadata_set_eq.
  - rewrite !get_metadata_set_ne by done. apply get_metadata_set_eq.
  - apply get_metadata_set_eq.
Qed.

(** ** Primary keys in the built nodes *)

Lemma pk_lookup_fold (pks : list PrimaryKeyInfo)
    (m : gmap string (gset string)) (t c : string) :
  c ∈ default ∅
        (fold_left
           (λ (m : gmap string (gset string)) pk,
              let table_name := pk_full_table_name pk in
              let cur := default ∅ (m !! table_name) in
              <[table_name := cur ∪ list_to_set (pk_columns pk)]> m)
           pks m !! t)
  ↔ c ∈ default ∅ (m !! t)
    ∨ ∃ pk, pk ∈ pks ∧ pk_full_table_name pk = t ∧ c ∈ pk_columns pk.
Proof.
  revert m. induction pks as [|pk pks IH]; intros m; simpl.
  - split; [by left|]. by intros [?|(? & ?%elem_of_nil & _)].
  - rewrite IH. destruct (decide (pk_full_table_name pk = t)) as [<-|Hne].
    + rewrite lookup_insert_eq. simpl.
      rewrite elem_of_union, elem_of_list_to_set. split.
      * intros [[?|?]|(pk' & ? & ? & ?)]; [by left| |].
        -- right. exists pk. split; [apply list_elem_of_here|done].
        -- right. exists pk'. split; [by apply list_elem_of_further|done].
      * intros [?|(pk' & [->|?]%elem_of_cons & ? & ?)];
          [left; by left|left; by right|]. right. by exists pk'.
    + rewrite lookup_insert_ne by done. split.
      * intros [?|(pk' & ? & ? & ?)]; [by left|].
        right. exists pk'. split; [by apply list_elem_of_further|done].
      * intros [?|(pk' & [->|?]%elem_of_cons & ? & ?)]; [by left|done|].
        right. by exists pk'.
Qed.

(** X10. The [is_pk] flag of a column node covers every primary-key
    constraint of the snapshot: a column is flagged exactly when some
    constraint on its table lists its name, whichever of several
    constraints on the same table that is. *)
Theorem is_pk_flag_covers_every_constraint (pks : list PrimaryKeyInfo) :
  (∀ t c, _is_pk_column (_build_pk_lookup pks) t c = true
          ↔ ∃ pk, pk ∈ pks ∧ pk_full_table_name pk = t ∧ c ∈ pk_columns pk)
  ∧ ∀ cols i col, cols !! i = Some col →
      ∃ n, _create_column_nodes (_build_pk_lookup pks) cols !! i = Some n
           ∧ node_id n = c_full_name col
           ∧ node_data n !! "is_pk"
             = Some (VBool (_is_pk_column (_build_pk_lookup pks)
                              (c_full_table_name col) (c_name col))).
Proof.
  split.
  - intros t c. unfold _is_pk_column, _build_pk_lookup.
    rewrite bool_decide_eq_true, pk_lookup_fold, lookup_empty. simpl.
    split; [by intros [?%elem_of_empty|?]|by right].
  - intros cols i col Hcol. exists (column_node (_build_pk_lookup pks) col).
    unfold _create_column_nodes. rewrite list_lookup_fmap, Hcol. done.
Qed.

Lemma pk_last_fold (pks : list PrimaryKeyInfo)
    (m : gmap string (list string)) (t : string) :
  fold_left (λ m pk, <[pk_full_table_name pk := pk_columns pk]> m) pks m !! t
  = match last (filter (λ pk, pk_full_table_name pk = t) pks) with
    | Some pk => Some (pk_columns pk)
    | None => m !! t
    end.
Proof.
  induction pks as [|pk pks IH] using rev_ind; [done|].
  rewrite fold_left_app, filter_app. simpl.
  rewrite filter_cons, filter_nil.
  destruct (decide (pk_full_table_name pk = t)) as [<-|Hne].
  - by rewrite last_snoc, lookup_insert_eq.
  - by rewrite app_nil_r, lookup_insert_ne.
Qed.

(** X11. The [primary_key] attribute of a table node is the column list of
    the last primary-key constraint of the snapshot that names the table,
    and the empty list when none does; the node carries the table's full
    name as its id. *)
Theorem table_node_lists_last_primary_key (ts : list TableInfo)
    (pks : list PrimaryKeyInfo) (i : nat) (t : TableInfo) :
  ts !! i = Some t →
  ∃ n, _create_table_nodes ts pks !! i = Some n
       ∧ node_id n = t_full_name t
       ∧ node_type n = "table"
       ∧ node_data n !! "primary_key"
         = Some (VStrs (default []
                          (pk_columns
                             <$> last (filter
                                         (λ pk, pk_full_table_name pk
                                                = t_full_name t) pks)))).
Proof.
  intros Ht. unfold _create_table_nodes.
  rewrite list_lookup_fmap, Ht. simpl. eexists. split; [done|].
  split_and!; [done..|]. simpl.
  rewrite lookup_insert_ne, lookup_insert_ne, lookup_insert_ne,
    lookup_insert_ne, lookup_insert_eq by done.
  rewrite pk_last_fold, lookup_empty.
  by destruct (last _).
Qed.

Lemma table_node_lists_last_primary_key_witness :
  tables Sample.shop !! 1%nat = Some (mkTableInfo "dbo" "Orders" (Some 500) None)
  ∧ ∃ n, _create_table_nodes (tables Sample.shop) (primary_keys Sample.shop)
           !! 1%nat = Some n
         ∧ node_id n = "dbo.Orders"
         ∧ node_type n = "table"
         ∧ node_data n !! "primary_key" = Some (VStrs ["Id"]).
Proof.
  split; [reflexivity|].
  exact (table_node_lists_last_primary_key (tables Sample.shop)
           (primary_keys Sample.shop) 1
           (mkTableInfo "dbo" "Orders" (Some 500) None) eq_refl).
Defined.

(** ** Counts of a build *)

Lemma app_cons (a : ascii) (s1 s2 : string) :
  String a s1 +:+ s2 = String a (s1 +:+ s2).
Proof. done. Qed.

Lemma contains_colon_cons (c : ascii) (s : string) :
  contains ":" (String c s) = Ascii.eqb ":" c || contains ":" s.
Proof.
  change (contains ":" (String c s))
    with (String.prefix ":" (String c s) || contains ":" s).
  rewrite prefix_cons. by destruct s; rewrite andb_true_r.
Qed.

Lemma contains_colon_app (s y : string) :
  contains ":" (s +:+ ":" +:+ y) = true.
Proof.
  induction s as [|c s IH].
  - change ("" +:+ ":" +:+ y) with (String ":" y).
    by rewrite contains_colon_cons.
  - rewrite app_cons, contains_colon_cons, IH. apply orb_true_r.
Qed.

Lemma no_colon_pretty_N_go (x : N) (s : string) :
  contains ":" s = false → contains ":" (pretty_N_go x s) = false.
Proof.
  revert s. induction (N.lt_wf_0 x) as [x _ IH]; intros s Hs.
  destruct (decide (x = 0)%N) as [->|Hx]; [by rewrite pretty_N_go_0|].
  rewrite pretty_N_go_step by lia. apply IH.
  - apply N.div_lt; lia.
  - rewrite contains_colon_cons, Hs, orb_false_r. unfold pretty_N_char.
    by repeat case_match.
Qed.

Lemma no_colon_pretty_nat (n : nat) : contains ":" (pretty n) = false.
Proof.
  unfold pretty, pretty_nat, pretty, pretty_N.
  case_decide; [done|]. by apply no_colon_pretty_N_go.
Qed.

(** A text of the form [c:x], with no colon in [x], has one reading. *)
Lemma split_at_last_colon (c c' x y : string) :
  contains ":" x = false → contains ":" y = false →
  c +:+ ":" +:+ x = c' +:+ ":" +:+ y → c = c' ∧ x = y.
Proof.
  intros Hx Hy. revert c'.
  induction c as [|a c IH]; intros [|a' c'].
  - intros [= Heq]. split; [done|exact Heq].
  - change ("" +:+ ":" +:+ x) with (String ":" x).
    rewrite (app_cons a' c'). intros [= <- ->].
    by rewrite contains_colon_app in Hx.
  - change ("" +:+ ":" +:+ y) with (String ":" y).
    rewrite (app_cons a c). intros [= -> <-].
    by rewrite contains_colon_app in Hy.
  - rewrite (app_cons a c), (app_cons a' c'). intros [= -> Heq].
    destruct (IH _ Heq) as [-> ->]. done.
Qed.

Lemma NoDup_fmap_inj_on {A} (f : A → string) (l : list A) (x y : A) :
  NoDup (f <$> l) → x ∈ l → y ∈ l → f x = f y → x = y.
Proof.
  induction l as [|z l IH]; [by intros _ ?%elem_of_nil|].
  rewrite fmap_cons, NoDup_cons. intros [Hz Hnd].
  intros [->|Hx]%elem_of_cons [->|Hy]%elem_of_cons Heq; [done| | |by apply IH].
  - destruct Hz. rewrite Heq. by apply list_elem_of_fmap_2.
  - destruct Hz. rewrite <- Heq. by apply list_elem_of_fmap_2.
Qed.

Lemma fk_col_ids_NoDup (fks : list ForeignKeyInfo) :
  NoDup (constraint_name <$> fks) →
  NoDup (edge_id <$> concat ((λ fk, imap (fk_col_edge fk) (column_pairs fk))
                               <$> fks)).
Proof.
  induction fks as [|fk fks IH]; [constructor|].
  rewrite fmap_cons, NoDup_cons. intros [Hfk Hnd].
  simpl. rewrite fmap_app. apply NoDup_app. split_and!.
  - apply NoDup_alt. intros i j x.
    rewrite !list_lookup_fmap, !list_lookup_imap.
    destruct (column_pairs fk !! i) as [p|]; [|done].
    destruct (column_pairs fk !! j) as [q|]; [|done].
    simpl. intros [= <-] [= Heq].
    apply (split_at_last_colon (constraint_name fk) (constraint_name fk)
             (pretty j) (pretty i)) in Heq as [_ Heq];
      [|apply no_colon_pretty_nat..].
    by apply (inj pretty) in Heq.
  - intros x (e & -> & He)%list_elem_of_fmap
             (e' & Heq & He')%list_elem_of_fmap.
    apply elem_of_imap_lookup in He as (i & p & _ & ->).
    apply elem_of_concat_imap in He' as (fk' & Hfk' & He').
    apply elem_of_imap_lookup in He' as (j & q & _ & ->).
    simpl in Heq. apply (inj (String.app "fk_col:")) in Heq.
    apply split_at_last_colon in Heq as [Heq _];
      [|apply no_colon_pretty_nat..].
    apply Hfk. rewrite Heq. by apply list_elem_of_fmap_2.
  - by apply IH.
Qed.

Lemma fk_ids_NoDup (fks : list ForeignKeyInfo) :
  NoDup (constraint_name <$> fks) →
  NoDup (edge_id <$> _create_fk_edges fks).
Proof.
  intros Hnd.
  destruct (create_fk_edges_loop_spec fks ∅ [])
    as (kept & Heq & Hkeys & _ & _ & Hkept).
  unfold _create_fk_edges. rewrite Heq. simpl.
  rewrite <- list_fmap_compose.
  apply NoDup_fmap_2_strong; [|by apply NoDup_fmap_1 in Hkeys].
  intros x y Hx Hy Hxy. simpl in Hxy.
  apply (inj (String.app "fk:")) in Hxy.
  apply (NoDup_fmap_inj_on constraint_name fks); [done| | |done].
  - destruct (Hkept x Hx) as (pre & post & -> & _).
    apply elem_of_app. right. apply list_elem_of_here.
  - destruct (Hkept y Hy) as (pre & post & -> & _).
    apply elem_of_app. right. apply list_elem_of_here.
Qed.

Lemma edge_ids_NoDup (fks : list ForeignKeyInfo) :
  NoDup (constraint_name <$> fks) →
  NoDup (edge_id <$> (_create_fk_edges fks
                      ++ concat ((λ fk, imap (fk_col_edge fk) (column_pairs fk))
                                   <$> fks))).
Proof.
  intros Hnd. rewrite fmap_app. apply NoDup_app. split_and!.
  - by apply fk_ids_NoDup.
  - intros x (e & -> & He)%list_elem_of_fmap
             (e' & Heq & He')%list_elem_of_fmap.
    destruct (create_fk_edges_loop_spec fks ∅ []) as (kept & Hk & _).
    unfold _create_fk_edges in He. rewrite Hk in He. simpl in He.
    apply list_elem_of_fmap in He as (fk & -> & _).
    apply elem_of_concat_imap in He' as (fk' & _ & He').
    apply elem_of_imap_lookup in He' as (j & q & _ & ->).
    simpl in Heq. discriminate Heq.
  - by apply fk_col_ids_NoDup.
Qed.

(** A bulk [INSERT OR REPLACE] of rows with fresh, distinct keys appends. *)
Lemma fold_replace_fresh {A} (f : A → string) (xs l : list A) :
  NoDup (f <$> (l ++ xs)) →
  fold_left (λ l x, filter (λ y, f y ≠ f x) l ++ [x]) xs l = l ++ xs.
Proof.
  revert l. induction xs as [|x xs IH]; intros l Hnd; simpl.
  - by rewrite app_nil_r.
  - assert (filter (λ y, f y ≠ f x) l = l) as ->.
    { rewrite fmap_app, fmap_cons in Hnd.
      apply NoDup_app in Hnd as (_ & Hdis & _).
      clear IH. induction l as [|y l IHl]; [done|].
      rewrite filter_cons, decide_True.
      - f_equal. apply IHl. intros z Hz. apply Hdis. by right.
      - intros Heq. apply (Hdis (f y)); [by left|].
        rewrite Heq. by left. }
    rewrite IH; [by rewrite <- app_assoc|].
    by rewrite <- app_assoc.
Qed.

Lemma nodes_add_nodes_fold (ns : list Node) (st : GraphStorage) :
  nodes (add_nodes ns st)
  = fold_left (λ l x, filter (λ y, node_id y ≠ node_id x) l ++ [x]) ns
      (nodes st).
Proof.
  revert st. induction ns as [|n ns IH]; intros st; [done|].
  change (add_nodes (n :: ns) st) with (add_nodes ns (add_node n st)).
  by rewrite IH.
Qed.

Lemma edges_add_edges_fold (es : list Edge) (st : GraphStorage) :
  edges (add_edges es st)
  = fold_left (λ l x, filter (λ y, edge_id y ≠ edge_id x) l ++ [x]) es
      (edges st).
Proof.
  revert st. induction es as [|e es IH]; intros st; [done|].
  change (add_edges (e :: es) st) with (add_edges es (add_edge e st)).
  by rewrite IH.
Qed.

Lemma filter_all {A} (p : A → bool) (l : list A) :
  Forall (λ x, p x = true) l → List.filter p l = l.
Proof.
  induction 1 as [|x l Hx _ IH]; [done|]. simpl. by rewrite Hx, IH.
Qed.

Lemma filter_none {A} (p : A → bool) (l : list A) :
  Forall (λ x, p x = false) l → List.filter p l = [].
Proof.
  induction 1 as [|x l Hx _ IH]; [done|]. simpl. by rewrite Hx, IH.
Qed.

Lemma built_edges_unique_names (md : RawMetadata) (now : string)
    (st : GraphStorage) :
  NoDup (constraint_name <$> foreign_keys md) →
  edges (build md true now st).2
  = _create_fk_edges (foreign_keys md)
    ++ concat ((λ fk, imap (fk_col_edge fk) (column_pairs fk))
                 <$> foreign_keys md).
Proof.
  intros Hfks.
  rewrite build_clear_store, !edges_set_metadata, !edges_add_edges_fold.
  rewrite !edges_add_nodes. simpl.
  pose proof (edge_ids_NoDup _ Hfks) as Hnd.
  rewrite (fold_replace_fresh edge_id _ []).
  - by rewrite (fold_replace_fresh edge_id).
  - simpl. rewrite fmap_app in Hnd. by apply NoDup_app in Hnd as (? & _).
Qed.

(** X12. The counts that [build] reports are the counts that [get_stats]
    then finds in the store, provided that the snapshot names no table or
    column twice and no two of its foreign keys share a constraint name
    (rows with equal ids would replace one another in the store, while the
    report counts them all). *)
Theorem build_report_agrees_with_get_stats (md : RawMetadata) (now : string)
    (st : GraphStorage) :
  NoDup ((t_full_name <$> tables md) ++ (c_full_name <$> columns md)) →
  NoDup (constraint_name <$> foreign_keys md) →
  get_stats (build md true now st).2
  = mkStats (stat_tables (build md true now st).1)
      (stat_columns (build md true now st).1)
      (stat_foreign_keys (build md true now st).1)
      (stat_column_relationships (build md true now st).1).
Proof.
  intros Hnodes Hfks.
  rewrite build_stats_fst. simpl.
  assert (nodes (build md true now st).2
          = _create_table_nodes (tables md) (primary_keys md)
            ++ _create_column_nodes (_build_pk_lookup (primary_keys md))
                 (columns md)) as Hn.
  { rewrite nodes_build_clear, !nodes_add_nodes_fold. simpl.
    rewrite (fold_replace_fresh node_id _ []).
    - rewrite (fold_replace_fresh node_id); [done|].
      unfold _create_table_nodes, _create_column_nodes.
      rewrite app_nil_l, fmap_app, <- !list_fmap_compose. exact Hnodes.
    - unfold _create_table_nodes. rewrite app_nil_l, <- list_fmap_compose.
      apply NoDup_app in Hnodes as (Hn & _). exact Hn. }
  pose proof (built_edges_unique_names md now st Hfks) as He.
  assert (Forall (λ n, node_type n = "table")
            (_create_table_nodes (tables md) (primary_keys md))) as Htab.
  { unfold _create_table_nodes. by apply Forall_fmap, Forall_forall. }
  assert (Forall (λ n, node_type n = "column")
            (_create_column_nodes (_build_pk_lookup (primary_keys md))
               (columns md))) as Hcol.
  { unfold _create_column_nodes. by apply Forall_fmap, Forall_forall. }
  assert (Forall (λ e, edge_type e = "fk")
            (_create_fk_edges (foreign_keys md))) as Hfk.
  { destruct (create_fk_edges_loop_spec (foreign_keys md) ∅ [])
      as (kept & Hk & _).
    unfold _create_fk_edges. rewrite Hk. simpl.
    by apply Forall_fmap, Forall_forall. }
  assert (Forall (λ e, edge_type e = "fk_col")
            (concat ((λ fk, imap (fk_col_edge fk) (column_pairs fk))
                       <$> foreign_keys md))) as Hfc.
  { apply Forall_forall. intros e (fk & _ & He')%elem_of_concat_imap.
    by apply elem_of_imap_lookup in He' as (j & q & _ & ->). }
  unfold get_stats. rewrite Hn, He, !List.filter_app.
  rewrite (filter_all _ (_create_table_nodes _ _)),
    (filter_none _ (_create_column_nodes _ _)),
    (filter_none _ (_create_table_nodes _ _)),
    (filter_all _ (_create_column_nodes _ _)),
    (filter_all _ (_create_fk_edges _)),
    (filter_none _ (concat _)),
    (filter_none _ (_create_fk_edges _)),
    (filter_all _ (concat _)).
  - rewrite !app_nil_r. simpl.
    unfold _create_table_nodes, _create_column_nodes.
    by rewrite !length_fmap.
  - eapply Forall_impl; [exact Hfc|]. by intros e ->.
  - eapply Forall_impl; [exact Hfk|]. by intros e ->.
  - eapply Forall_impl; [exact Hfc|]. by intros e ->.
  - eapply Forall_impl; [exact Hfk|]. by intros e ->.
  - eapply Forall_impl; [exact Hcol|]. by intros e ->.
  - eapply Forall_impl; [exact Htab|]. by intros e ->.
  - eapply Forall_impl; [exact Hcol|]. by intros e ->.
  - eapply Forall_impl; [exact Htab|]. by intros e ->.
Qed.

Lemma build_report_agrees_with_get_stats_witness :
  NoDup ((t_full_name <$> tables Sample.shop)
         ++ (c_full_name <$> columns Sample.shop))
  ∧ NoDup (constraint_name <$> foreign_keys Sample.shop)
  ∧ get_stats Sample.shop_store = mkStats 4 7 3 3.
Proof.
  assert (NoDup ((t_full_name <$> tables Sample.shop)
                 ++ (c_full_name <$> columns Sample.shop))) as H1
    by (refine (bool_decide_unpack (NoDup _) _); vm_compute; exact I).
  assert (NoDup (constraint_name <$> foreign_keys Sample.shop)) as H2
    by (refine (bool_decide_unpack (NoDup _) _); vm_compute; exact I).
  split; [exact H1|]. split; [exact H2|].
  exact (build_report_agrees_with_get_stats Sample.shop "2024-01-01T00:00:00"
           empty_storage H1 H2).
Defined.

(** ** Foreign keys of one table pair in the built graph *)

(** With distinct constraint names no edge of a build overwrites another, so
    the two type queries return the two lists that the edge loops made. *)
Lemma built_edges_by_type (md : RawMetadata) (now : string)
    (st : GraphStorage) :
  NoDup (constraint_name <$> foreign_keys md) →
  get_edges_by_type "fk" (build md true now st).2
  = _create_fk_edges (foreign_keys md)
  ∧ get_edges_by_type "fk_col" (build md true now st).2
    = concat ((λ fk, imap (fk_col_edge fk) (column_pairs fk))
                <$> foreign_keys md).
Proof.
  intros Hnd. unfold get_edges_by_type.
  rewrite (built_edges_unique_names md now st Hnd), !List.filter_app.
  assert (Forall (λ e, edge_type e = "fk") (_create_fk_edges (foreign_keys md)))
    as Hfk.
  { apply Forall_forall. intros e He.
    destruct (created_edges_spec (foreign_keys md) st) as (_ & _ & Hsrc & _).
    by destruct (Hsrc e He) as (pre & fk & post & _ & -> & _). }
  assert (Forall (λ e, edge_type e = "fk_col")
            (concat ((λ fk, imap (fk_col_edge fk) (column_pairs fk))
                       <$> foreign_keys md))) as Hcol.
  { apply Forall_forall. intros e He.
    apply elem_of_concat_imap in He as (fk & _ & He).
    by apply elem_of_imap_lookup in He as (i & p & _ & ->). }
  split.
  - rewrite filter_all, filter_none, app_nil_r; [done| |].
    + eapply Forall_impl; [exact Hcol|]. by intros e ->.
    + eapply Forall_impl; [exact Hfk|]. by intros e ->.
  - rewrite filter_none, filter_all; [done| |].
    + eapply Forall_impl; [exact Hcol|]. by intros e ->.
    + eapply Forall_impl; [exact Hfk|]. by intros e ->.
Qed.

(** The edges that a build writes all weigh 1, so its two [add_edges] calls
    never meet the range check of the weight column. *)
Lemma build_edges_fit (md : RawMetadata) (st st' : GraphStorage) :
  try_add_edges (_create_fk_edges (foreign_keys md)) st'
  = Ok (add_edges (_create_fk_edges (foreign_keys md)) st')
  ∧ try_add_edges (_create_fk_column_edges (foreign_keys md) st).1 st'
    = Ok (add_edges (_create_fk_column_edges (foreign_keys md) st).1 st').
Proof.
  destruct (created_edges_spec (foreign_keys md) st)
    as (_ & _ & Hsrc & Hcols & _).
  split; apply try_add_edges_fit, Forall_forall; intros e He.
  - by destruct (Hsrc e He) as (pre & fk & post & _ & -> & _).
  - rewrite Hcols in He.
    apply elem_of_concat_imap in He as (fk & _ & He).
    by apply elem_of_imap_lookup in He as (i & p & _ & ->).
Qed.

(** C8, as amended: after a build that starts by clearing, from a snapshot
    whose constraint names are distinct, the graph holds one [fk] edge per
    distinct ordered table pair, made from the first constraint of that pair
    in input order, and one [fk_col] edge per column pair of every
    constraint, duplicates of a pair included. *)
Theorem fk_edges_first_per_pair_fk_col_all (md : RawMetadata) (now : string)
    (st : GraphStorage) :
  NoDup (constraint_name <$> foreign_keys md) →
  NoDup (edge_pair <$> get_edges_by_type "fk" (build md true now st).2)
  ∧ (∀ fk, fk ∈ foreign_keys md →
       ∃ e, e ∈ get_edges_by_type "fk" (build md true now st).2
            ∧ edge_pair e = fk_key fk)
  ∧ (∀ e, e ∈ get_edges_by_type "fk" (build md true now st).2 →
       ∃ pre fk post,
         foreign_keys md = pre ++ fk :: post ∧ e = fk_edge fk
         ∧ ∀ fk', fk' ∈ pre → fk_key fk' ≠ fk_key fk)
  ∧ get_edges_by_type "fk_col" (build md true now st).2
    = concat ((λ fk, imap (fk_col_edge fk) (column_pairs fk))
                <$> foreign_keys md)
  ∧ length (get_edges_by_type "fk_col" (build md true now st).2)
    = sum_list_with
        (λ fk, (length (from_columns fk) `min` length (to_columns fk))%nat)
        (foreign_keys md).
Proof.
  intros Hnd.
  destruct (built_edges_by_type md now st Hnd) as [-> ->].
  destruct (created_edges_spec (foreign_keys md) st)
    as (Hpairs & Hcov & Hfirst & Hcols & Hlen).
  rewrite Hcols in Hlen. done.
Qed.

Lemma fk_edges_first_per_pair_fk_col_all_witness :
  NoDup (constraint_name <$> foreign_keys Sample.ledger)
  ∧ NoDup (edge_pair
             <$> get_edges_by_type "fk"
                   (build Sample.ledger true "2024-01-01T00:00:00"
                      empty_storage).2)
  ∧ length (get_edges_by_type "fk"
              (build Sample.ledger true "2024-01-01T00:00:00"
                 empty_storage).2) = 1%nat
  ∧ length (get_edges_by_type "fk_col"
              (build Sample.ledger true "2024-01-01T00:00:00"
                 empty_storage).2) = 2%nat.
Proof.
  assert (NoDup (constraint_name <$> foreign_keys Sample.ledger)) as Hnd
    by (refine (bool_decide_unpack (NoDup _) _); vm_compute; exact I).
  destruct (fk_edges_first_per_pair_fk_col_all Sample.ledger
              "2024-01-01T00:00:00" empty_storage Hnd)
    as (Hpairs & _ & _ & _ & Hlen).
  split; [exact Hnd|]. split; [exact Hpairs|].
  split; [reflexivity|exact Hlen].
Defined.

(** The claim of C8 as it is worded fails when two constraints share a
    name: both get the edge id [fk:FK_Customer], the second row replaces
    the first, and the table pair of the first constraint is left with no
    [fk] edge. *)
Lemma shared_constraint_name_loses_an_edge :
  ¬ (∀ (md : RawMetadata) (now : string) (st : GraphStorage)
       (fk : ForeignKeyInfo),
       fk ∈ foreign_keys md →
       ∃ e, e ∈ get_edges_by_type "fk" (build md true now st).2
            ∧ edge_pair e = fk_key fk).
Proof.
  intros H.
  destruct (H Sample.two_schemas "2024-01-01T00:00:00" empty_storage
              Sample.sales_customer) as (e & He & Hpair).
  { apply list_elem_of_here. }
  apply list_elem_of_In in He. vm_compute in He.
  destruct He as [<-|[]]. vm_compute in Hpair. discriminate Hpair.
Qed.

(** ** What the index holds *)

(** X13. The adjacency index holds nothing but the [fk] edges of the store
    and their reversed copies: every entry listed under a node starts at
    that node, ends at the neighbour it is listed with and has type [fk],
    so a column-level [fk_col] edge is never traversed; a node that no [fk]
    edge touches has no entry. *)
Theorem index_holds_only_fk_edges (st : GraphStorage) :
  (∀ u v e', (v, e') ∈ adj_get (_build_adjacency st) u →
     edge_type e' = "fk" ∧ from_id e' = u ∧ to_id e' = v
     ∧ ∃ e, e ∈ get_edges_by_type "fk" st ∧ (e' = e ∨ e' = reverse_edge e))
  ∧ ∀ u, (∀ e, e ∈ get_edges_by_type "fk" st → from_id e ≠ u ∧ to_id e ≠ u) →
         adj_get (_build_adjacency st) u = [].
Proof.
  split.
  - intros u v e' (e & He & Hty & Hent)%build_adjacency_entries.
    assert (e ∈ get_edges_by_type "fk" st) as Hin
      by by apply elem_of_get_edges_by_type.
    destruct Hent as [(-> & -> & ->)|(-> & -> & ->)].
    + split_and!; [done..|]. exists e. split; [done|by left].
    + split_and!; [done..|]. exists e. split; [done|by right].
  - intros u Hu.
    destruct (adj_get (_build_adjacency st) u) as [|[v e'] l] eqn:E; [done|].
    assert ((v, e') ∈ adj_get (_build_adjacency st) u) as Hin
      by (rewrite E; apply list_elem_of_here).
    apply build_adjacency_entries in Hin as (e & He & Hty & Hent).
    destruct (Hu e) as [Hf Ht]; [by apply elem_of_get_edges_by_type|].
    by destruct Hent as [(-> & _)|(-> & _)].
Qed.

(** ** Names and ids *)

Lemma resolve_scan_spec (ts : list Node) (x r : string) :
  resolve_scan ts x = Ok (Some r) →
  ∃ n, n ∈ ts ∧ node_id n = r ∧ short_name_lower n = Ok (lower x).
Proof.
  induction ts as [|n ts IH]; [done|]. simpl.
  destruct (short_name_lower n) as [sn| |] eqn:Hsn; [|done..]. simpl.
  destruct (String.eqb_spec sn (lower x)) as [->|_].
  - intros [= <-]. exists n. split; [apply list_elem_of_here|done].
  - intros (m & ? & ?)%IH. exists m. split; [by apply list_elem_of_further|done].
Qed.

Lemma elem_of_get_nodes_by_type (t : string) (st : GraphStorage) (n : Node) :
  n ∈ get_nodes_by_type t st ↔ n ∈ nodes st ∧ node_type n = t.
Proof.
  unfold get_nodes_by_type.
  rewrite !list_elem_of_In, filter_In, eqb_string_true. done.
Qed.

Lemma get_node_some (i : string) (st : GraphStorage) (n : Node) :
  get_node i st = Some n → n ∈ nodes st ∧ node_id n = i.
Proof.
  unfold get_node. intros [Hin Heq]%find_some.
  split; [by apply list_elem_of_In|by apply eqb_string_true].
Qed.

Lemma resolve_some_table (st : GraphStorage) (x r : string) :
  _resolve_table_name st x = Ok (Some r) →
  ∃ n, n ∈ nodes st ∧ node_id n = r ∧ node_type n = "table".
Proof.
  unfold _resolve_table_name.
  assert (resolve_scan (get_nodes_by_type "table" st) x = Ok (Some r) →
          ∃ n, n ∈ nodes st ∧ node_id n = r ∧ node_type n = "table") as Hscan.
  { intros (n & [Hn Hty]%elem_of_get_nodes_by_type & Hid)%resolve_scan_some.
    by exists n. }
  destruct (get_node x st) as [node|] eqn:Hget; [|done].
  destruct (String.eqb (node_type node) "table") eqn:Hty; [|done].
  intros [= <-]. apply get_node_some in Hget as [Hin Hid].
  apply eqb_string_true in Hty. by exists node.
Qed.

(** X14. A name resolves only to the id of a table node of the store:
    either the name is that id, or the short name of the node and the name
    agree once both are lower-cased. The id of a column node is never the
    result. *)
Theorem resolved_name_is_a_table_id (st : GraphStorage) (x r : string) :
  _resolve_table_name st x = Ok (Some r) →
  ∃ n, n ∈ nodes st ∧ node_id n = r ∧ node_type n = "table"
       ∧ (r = x ∨ short_name_lower n = Ok (lower x)).
Proof.
  assert (resolve_scan (get_nodes_by_type "table" st) x = Ok (Some r) →
          ∃ n, n ∈ nodes st ∧ node_id n = r ∧ node_type n = "table"
               ∧ (r = x ∨ short_name_lower n = Ok (lower x))) as Hscan.
  { intros (n & [Hn Hty]%elem_of_get_nodes_by_type & Hid & Hsn)%resolve_scan_spec.
    exists n. split_and!; [done..|by right]. }
  unfold _resolve_table_name.
  destruct (get_node x st) as [node|] eqn:Hget; [|done].
  destruct (String.eqb (node_type node) "table") eqn:Hty; [|done].
  intros [= <-]. apply get_node_some in Hget as [Hin Hid].
  apply eqb_string_true in Hty.
  exists node. split_and!; [done..|by left].
Qed.

Lemma resolved_name_is_a_table_id_witness :
  _resolve_table_name Sample.shop_store "orderitems" = Ok (Some "dbo.OrderItems")
  ∧ ∃ n, n ∈ nodes Sample.shop_store ∧ node_id n = "dbo.OrderItems"
         ∧ node_type n = "table"
         ∧ ("dbo.OrderItems" = "orderitems"
            ∨ short_name_lower n = Ok (lower "orderitems")).
Proof.
  split; [reflexivity|].
  exact (resolved_name_is_a_table_id Sample.shop_store "orderitems"
           "dbo.OrderItems" eq_refl).
Defined.

Lemma table_id_resolves (st : GraphStorage) (n : Node) :
  store_wf st → n ∈ nodes st → node_type n = "table" →
  _resolve_table_name st (node_id n) = Ok (Some (node_id n)).
Proof.
  intros (Hnd & _ & _) Hn Hty.
  unfold _resolve_table_name, get_node.
  rewrite find_unique_id by done. by rewrite Hty.
Qed.

(** X15. Full names come first: in a store with unique ids the id of a
    table node resolves to itself, whatever short names the other tables
    have, and so a resolved name resolves to itself when it is looked up
    again. *)
Theorem table_ids_resolve_to_themselves (st : GraphStorage) :
  store_wf st →
  (∀ n, n ∈ nodes st → node_type n = "table" →
        _resolve_table_name st (node_id n) = Ok (Some (node_id n)))
  ∧ ∀ x r, _resolve_table_name st x = Ok (Some r) →
           _resolve_table_name st r = Ok (Some r).
Proof.
  intros Hwf. split.
  - intros n. by apply table_id_resolves.
  - intros x r. by apply resolve_idempotent.
Qed.

Lemma table_ids_resolve_to_themselves_witness :
  store_wf Sample.shop_store
  ∧ (∀ n, n ∈ nodes Sample.shop_store → node_type n = "table" →
          _resolve_table_name Sample.shop_store (node_id n)
          = Ok (Some (node_id n)))
  ∧ ∀ x r, _resolve_table_name Sample.shop_store x = Ok (Some r) →
           _resolve_table_name Sample.shop_store r = Ok (Some r).
Proof.
  assert (store_wf Sample.shop_store) as Hwf.
  { split_and!;
      (refine (bool_decide_unpack (NoDup _) _); vm_compute; exact I). }
  split; [exact Hwf|].
  exact (table_ids_resolve_to_themselves Sample.shop_store Hwf).
Defined.

(** ** Queries on a built graph *)

Lemma resolve_scan_total (ts : list Node) (x : string) :
  Forall (λ n, ∃ s, node_data n !! "name" = Some (VStr s)) ts →
  ∃ r, resolve_scan ts x = Ok r.
Proof.
  induction 1 as [|n ts [s Hs] _ [r IH]]; [by eexists|]. simpl.
  unfold short_name_lower. rewrite Hs. simpl.
  destruct (String.eqb _ _); by eexists.
Qed.

Lemma resolve_total_built (md : RawMetadata) (now : string)
    (st : GraphStorage) (x : string) :
  ∃ r, _resolve_table_name (build md true now st).2 x = Ok r.
Proof.
  assert (∃ r, resolve_scan
                 (get_nodes_by_type "table" (build md true now st).2) x
               = Ok r) as Hscan.
  { apply resolve_scan_total, Forall_forall.
    intros n [Hn Hty]%elem_of_get_nodes_by_type.
    destruct (built_node_cases md now st n Hn)
      as [(_ & t & _ & _ & _ & Hname)|(Hty' & _)]; [by eexists|].
    congruence. }
  unfold _resolve_table_name.
  destruct (get_node x _) as [node|]; [|done].
  destruct (String.eqb _ _); [by eexists|done].
Qed.

Lemma resolve_all_total (st : GraphStorage) (ts : list string) :
  (∀ x, ∃ r, _resolve_table_name st x = Ok r) →
  ∃ rs, resolve_all st ts = Ok rs.
Proof.
  intros Hres. induction ts as [|t ts [rs IH]]; [by eexists|]. simpl.
  destruct (Hres t) as [r ->]. rewrite bind_Ok, IH. by eexists.
Qed.

Lemma build_clear_wf (md : RawMetadata) (now : string) (st : GraphStorage) :
  store_wf (build md true now st).2.
Proof.
  change (build md true now st) with (build md true now empty_storage).
  apply build_wf, empty_storage_wf.
Qed.

(** X16. On a graph that [build] has just produced, every query returns:
    resolving a name raises nothing (each table node has a text as its
    name), and [find_path] and [find_multi_path] come back with a result
    for any names at all, the search never running out of steps. *)
Theorem queries_on_a_built_graph_return (md : RawMetadata) (now : string)
    (st : GraphStorage) :
  (∀ x, ∃ r, _resolve_table_name (build md true now st).2 x = Ok r)
  ∧ (∀ A B, ∃ r, find_path (new_engine (build md true now st).2) A B = Ok r)
  ∧ (∀ ts, ∃ r, find_multi_path (new_engine (build md true now st).2) ts
                = Ok r).
Proof.
  split_and!.
  - apply resolve_total_built.
  - intros A B.
    destruct (resolve_total_built md now st A) as [ra Ha].
    destruct (resolve_total_built md now st B) as [rb Hb].
    by apply (find_path_total _ A B ra rb).
  - intros ts.
    destruct (resolve_all_total (build md true now st).2 ts) as [rs Hrs];
      [apply resolve_total_built|].
    apply (find_multi_path_total _ ts rs); [apply build_clear_wf|done].
Qed.

(** ** More on the results of [find_path] *)

(** X17. A result of [find_path] that is not found carries nothing: its
    path and its edge list are empty and its weight is 0, whether a name
    did not resolve or no route exists. *)
Theorem find_path_failure_is_empty (eng : QueryEngine) (A B : string)
    (r : PathResult) :
  find_path eng A B = Ok r → found r = false →
  path r = [] ∧ path_edges r = [] ∧ total_weight r = 0.
Proof.
  intros Hfp Hfound.
  destruct (_resolve_table_name (storage eng) A) as [ra| |] eqn:HA;
    [|unfold find_path in Hfp; by rewrite HA in Hfp..].
  destruct (_resolve_table_name (storage eng) B) as [rb| |] eqn:HB;
    [|unfold find_path in Hfp; rewrite HA in Hfp; simpl in Hfp;
      by rewrite HB in Hfp..].
  destruct (falsy ra || falsy rb) eqn:Hf.
  { rewrite (find_path_unresolved eng A B ra rb) in Hfp by done.
    by injection Hfp as <-. }
  apply orb_false_elim in Hf as [Hfa Hfb].
  destruct ra as [a|]; [|done]. destruct rb as [b|]; [|done].
  simpl in Hfa, Hfb. apply String.eqb_neq in Hfa, Hfb.
  destruct (decide (a = b)) as [->|Hab].
  - rewrite (find_path_resolved eng A B b b), String.eqb_refl in Hfp by done.
    by injection Hfp as <-.
  - destruct (find_path_search eng A B a b HA HB Hfa Hfb Hab)
      as (st' & _ & _ & _ & [[_ Hr]|(p & es & expl & _ & _ & Hr)]);
      rewrite Hr in Hfp; injection Hfp as <-; done.
Qed.

Lemma find_path_failure_is_empty_witness :
  find_path Sample.shop_engine "Users" "Nowhere"
  = Ok (not_found "One or both tables not found in the graph.")
  ∧ found (not_found "One or both tables not found in the graph.") = false
  ∧ path (not_found "One or both tables not found in the graph.") = []
  ∧ path_edges (not_found "One or both tables not found in the graph.") = []
  ∧ total_weight (not_found "One or both tables not found in the graph.") = 0.
Proof.
  assert (find_path Sample.shop_engine "Users" "Nowhere"
          = Ok (not_found "One or both tables not found in the graph.")) as H
    by (vm_compute; reflexivity).
  split; [exact H|]. split; [reflexivity|].
  exact (find_path_failure_is_empty Sample.shop_engine "Users" "Nowhere" _ H
           eq_refl).
Defined.

Lemma tree_path_functional (prev : gmap string (string * Edge))
    (vis : gset string) (s v : string) (p p' : list string)
    (es es' : list Edge) :
  tree_path prev vis s v p es → tree_path prev vis s v p' es' →
  p = p' ∧ es = es'.
Proof.
  intros H. revert p' es'.
  induction H as [Hs _|v u e p es Hv _ Htp IH]; intros p' es' H'.
  - inversion H' as [|v' u' e' p0 es0 Hv']; [done|]. congruence.
  - inversion H' as [Hs|v' u' e' p0 es0 Hv' _ Htp']; subst.
    + congruence.
    + rewrite Hv in Hv'. injection Hv' as <- <-.
      destruct (IH _ _ Htp') as [-> ->]. done.
Qed.

Lemma tree_path_prefixes (prev : gmap string (string * Edge))
    (vis : gset string) (s v x : string) (p : list string) (es : list Edge) :
  tree_path prev vis s v p es → x ∈ p →
  ∃ p1 es1, tree_path prev vis s x p1 es1 ∧ (length p1 ≤ length p)%nat.
Proof.
  induction 1 as [Hs Hvis|v u e p es Hv Hvis Htp IH].
  - intros ->%list_elem_of_singleton. exists [s], []. split; [by constructor|done].
  - intros [Hx| ->%list_elem_of_singleton]%elem_of_app.
    + destruct (IH Hx) as (p1 & es1 & H1 & Hlen).
      exists p1, es1. split; [done|]. rewrite length_app. lia.
    + exists (p ++ [v]), (es ++ [e]). split; [by econstructor|done].
Qed.

Lemma tree_path_NoDup (prev : gmap string (string * Edge))
    (vis : gset string) (s v : string) (p : list string) (es : list Edge) :
  tree_path prev vis s v p es → NoDup p.
Proof.
  induction 1 as [Hs Hvis|v u e p es Hv Hvis Htp IH].
  - apply NoDup_singleton.
  - apply NoDup_app. split_and!; [done| |apply NoDup_singleton].
    intros x Hx Hxv%list_elem_of_singleton. subst x.
    destruct (tree_path_prefixes _ _ _ _ _ _ _ Htp Hx) as (p1 & es1 & H1 & Hlen).
    assert (tree_path prev vis s v (p ++ [v]) (es ++ [e])) as H2
      by by econstructor.
    destruct (tree_path_functional _ _ _ _ _ _ _ _ H1 H2) as [-> _].
    rewrite length_app in Hlen. simpl in Hlen. lia.
Qed.

(** X18. A route that [find_path] finds starts at the id the first name
    resolves to, ends at the id the second name resolves to, and passes
    through no node twice. *)
Theorem found_route_is_a_simple_path (eng : QueryEngine) (A B : string)
    (r : PathResult) :
  find_path eng A B = Ok r → found r = true →
  ∃ a b, _resolve_table_name (storage eng) A = Ok (Some a)
         ∧ _resolve_table_name (storage eng) B = Ok (Some b)
         ∧ head (path r) = Some a ∧ last (path r) = Some b
         ∧ NoDup (path r).
Proof.
  intros Hfp Hfound.
  destruct (find_path_found eng A B r Hfp Hfound)
    as (a & b & HA & HB & _ & Hhead & Hlast & _).
  exists a, b. split_and!; [done..|].
  destruct (decide (a = "")) as [->|Hfa].
  { rewrite (find_path_unresolved eng A B (Some "") (Some b)) in Hfp by done.
    by injection Hfp as <-. }
  destruct (decide (b = "")) as [->|Hfb].
  { rewrite (find_path_unresolved eng A B (Some a) (Some "")) in Hfp;
      [by injection Hfp as <-|done|done|apply orb_true_r]. }
  destruct (decide (a = b)) as [->|Hab].
  - rewrite (find_path_resolved eng A B b b), String.eqb_refl in Hfp by done.
    injection Hfp as <-. apply NoDup_singleton.
  - destruct (find_path_search eng A B a b HA HB Hfa Hfb Hab)
      as (st' & _ & _ & _ & [[_ Hr]|(p & es & expl & _ & Htp & Hr)]);
      rewrite Hr in Hfp; injection Hfp as <-; [done|].
    simpl. by eapply tree_path_NoDup.
Qed.

Lemma found_route_is_a_simple_path_witness :
  ∃ r, find_path Sample.shop_engine "users" "products" = Ok r
       ∧ found r = true
       ∧ ∃ a b, _resolve_table_name (storage Sample.shop_engine) "users"
                = Ok (Some a)
                ∧ _resolve_table_name (storage Sample.shop_engine) "products"
                  = Ok (Some b)
                ∧ head (path r) = Some a ∧ last (path r) = Some b
                ∧ NoDup (path r).
Proof.
  destruct (find_path Sample.shop_engine "users" "products") as [r| |] eqn:H;
    [|vm_compute in H; discriminate H..].
  assert (found r = true) as Hf.
  { vm_compute in H. injection H as <-. reflexivity. }
  exists r. split; [reflexivity|]. split; [exact Hf|].
  exact (found_route_is_a_simple_path Sample.shop_engine "users" "products" r
           H Hf).
Defined.

(** ** Shortest routes *)

(** X19. With no negative weight on an [fk] edge, [find_path] is complete
    and optimal: between two resolved tables it finds a route whenever the
    index connects them, the weight it reports is the weight of a walk of
    the index, and no walk between the two is lighter. *)
Theorem find_path_returns_a_shortest_route (st : GraphStorage)
    (A B a b : string) :
  (∀ e, e ∈ edges st → edge_type e = "fk" → 0 ≤ weight e) →
  _resolve_table_name st A = Ok (Some a) →
  _resolve_table_name st B = Ok (Some b) →
  a ≠ "" → b ≠ "" →
  ∃ r, find_path (new_engine st) A B = Ok r
       ∧ (found r = true ↔ ∃ l, walk (_build_adjacency st) a l b)
       ∧ (found r = true →
          (∃ l, walk (_build_adjacency st) a l b
                ∧ walk_weight l = total_weight r)
          ∧ ∀ l, walk (_build_adjacency st) a l b →
                 total_weight r ≤ walk_weight l).
Proof.
  intros Hw HA HB Ha Hb.
  pose proof (build_adjacency_nonneg st Hw) as Hnn.
  destruct (decide (a = b)) as [->|Hab].
  - exists (mkPathResult true [b] [] 0
              "Same table specified for source and target.").
    split.
    { rewrite (find_path_resolved (new_engine st) A B b b) by done.
      by rewrite String.eqb_refl. }
    simpl. split.
    + split; [|done]. intros _. exists []. constructor.
    + intros _. split.
      * exists []. split; [constructor|done].
      * intros l Hl. by eapply walk_weight_nonneg.
  - destruct (find_path_shortest (new_engine st) A B a b Hnn HA HB Ha Hb Hab)
      as (r & Hr & Hcase).
    exists r. split; [done|].
    destruct (found r).
    + destruct Hcase as [[l [Hl Hlw]] Hmin].
      split; [split; [by exists l|done]|].
      intros _. split; [by exists l|done].
    + destruct Hcase as [_ Hnone].
      split; [|done]. split; [done|]. intros [l Hl]. by destruct (Hnone l).
Qed.

Lemma find_path_returns_a_shortest_route_witness :
  (∀ e, e ∈ edges Sample.shop_store → edge_type e = "fk" → 0 ≤ weight e)
  ∧ _resolve_table_name Sample.shop_store "users" = Ok (Some "dbo.Users")
  ∧ _resolve_table_name Sample.shop_store "products" = Ok (Some "dbo.Products")
  ∧ "dbo.Users" ≠ "" ∧ "dbo.Products" ≠ ""
  ∧ ∃ r, find_path (new_engine Sample.shop_store) "users" "products" = Ok r
         ∧ (found r = true
            ↔ ∃ l, walk (_build_adjacency Sample.shop_store)
                     "dbo.Users" l "dbo.Products")
         ∧ (found r = true →
            (∃ l, walk (_build_adjacency Sample.shop_store)
                    "dbo.Users" l "dbo.Products"
                  ∧ walk_weight l = total_weight r)
            ∧ ∀ l, walk (_build_adjacency Sample.shop_store)
                     "dbo.Users" l "dbo.Products" →
                   total_weight r ≤ walk_weight l).
Proof.
  assert (∀ e, e ∈ edges Sample.shop_store → edge_type e = "fk" → 0 ≤ weight e)
    as Hw.
  { intros e He _. vm_compute in He.
    repeat (apply elem_of_cons in He as [->|He]; [by vm_compute|]).
    by apply elem_of_nil in He. }
  assert ("dbo.Users" ≠ "") as H1 by discriminate.
  assert ("dbo.Products" ≠ "") as H2 by discriminate.
  split; [exact Hw|]. split; [reflexivity|]. split; [reflexivity|].
  split; [exact H1|]. split; [exact H2|].
  exact (find_path_returns_a_shortest_route Sample.shop_store
           "users" "products" "dbo.Users" "dbo.Products" Hw eq_refl eq_refl
           H1 H2).
Defined.

Lemma walk_unit_weight (adj : gmap string (list (string * Edge)))
    (a b : string) (l : list (string * Edge)) :
  unit_weights adj → walk adj a l b → walk_weight l = Z.of_nat (length l).
Proof.
  intros Hu. induction 1 as [u|u v e l w He _ IH]; [done|].
  rewrite walk_weight_cons, IH, (Hu _ _ _ He). simpl length. lia.
Qed.

Lemma chain_unit_weight (adj : gmap string (list (string * Edge)))
    (p : list string) (es : list Edge) :
  unit_weights adj → chain adj p es → edges_weight es = Z.of_nat (length es).
Proof.
  intros Hu. induction 1 as [u|u v p e es He _ IH]; [done|].
  change (edges_weight (e :: es)) with (weight e + edges_weight es).
  rewrite IH, (Hu _ _ _ He). simpl length. lia.
Qed.

Lemma built_unit_weights (md : RawMetadata) (now : string)
    (st : GraphStorage) :
  unit_weights (_build_adjacency (build md true now st).2).
Proof.
  intros u v e' (e & He & _ & Hent)%build_adjacency_entries.
  pose proof (built_edge_weight md now st e He) as Hw.
  by destruct Hent as [(_ & _ & ->)|(_ & _ & ->)].
Qed.

Lemma full_name_nonempty (s n : string) : s +:+ "." +:+ n ≠ "".
Proof. by destruct s. Qed.

Lemma built_resolved_nonempty (md : RawMetadata) (now : string)
    (st : GraphStorage) (x r : string) :
  _resolve_table_name (build md true now st).2 x = Ok (Some r) → r ≠ "".
Proof.
  intros (n & Hn & <- & Hty)%resolve_some_table.
  destruct (built_node_cases md now st n Hn)
    as [(_ & t & _ & -> & _)|(Hty' & _)]; [|congruence].
  apply full_name_nonempty.
Qed.

(** X20. On a graph that [build] has just produced every edge weighs 1, so
    the route that [find_path] returns between two resolved tables has the
    fewest joins: its weight is its number of edges, no walk of the index
    between the two tables is shorter, and when no route is found there is
    no such walk at all. *)
Theorem built_graph_route_has_fewest_joins (md : RawMetadata) (now : string)
    (st : GraphStorage) (A B a b : string) :
  _resolve_table_name (build md true now st).2 A = Ok (Some a) →
  _resolve_table_name (build md true now st).2 B = Ok (Some b) →
  ∃ r, find_path (new_engine (build md true now st).2) A B = Ok r
       ∧ if found r then
           total_weight r = Z.of_nat (length (path_edges r))
           ∧ ∀ l, walk (_build_adjacency (build md true now st).2) a l b →
                  (length (path_edges r) ≤ length l)%nat
         else ∀ l, ¬ walk (_build_adjacency (build md true now st).2) a l b.
Proof.
  intros HA HB.
  pose proof (built_resolved_nonempty md now st A a HA) as Ha.
  pose proof (built_resolved_nonempty md now st B b HB) as Hb.
  pose proof (built_unit_weights md now st) as Hu.
  assert (nonneg_weights (_build_adjacency (build md true now st).2)) as Hnn.
  { intros u v e He. rewrite (Hu _ _ _ He). lia. }
  destruct (decide (a = b)) as [->|Hab].
  - exists (mkPathResult true [b] [] 0
              "Same table specified for source and target.").
    split.
    { rewrite (find_path_resolved _ A B b b) by done.
      by rewrite String.eqb_refl. }
    simpl. split; [done|]. intros l _. lia.
  - destruct (find_path_shortest (new_engine (build md true now st).2)
                A B a b Hnn HA HB Ha Hb Hab) as (r & Hr & Hcase).
    exists r. split; [done|].
    destruct (found r) eqn:Hfound; [|by destruct Hcase].
    destruct Hcase as [_ Hmin].
    destruct (find_path_found _ A B r Hr Hfound)
      as (a' & b' & _ & _ & Hchain & _ & _ & Hw).
    pose proof (chain_unit_weight _ _ _ Hu Hchain) as Hlen.
    split; [congruence|].
    intros l Hl. pose proof (Hmin l Hl) as Hle.
    rewrite (walk_unit_weight _ _ _ _ Hu Hl), Hw, Hlen in Hle. lia.
Qed.

Lemma built_graph_route_has_fewest_joins_witness :
  _resolve_table_name Sample.shop_store "users" = Ok (Some "dbo.Users")
  ∧ _resolve_table_name Sample.shop_store "products" = Ok (Some "dbo.Products")
  ∧ ∃ r, find_path (new_engine Sample.shop_store) "users" "products" = Ok r
         ∧ if found r then
             total_weight r = Z.of_nat (length (path_edges r))
             ∧ ∀ l, walk (_build_adjacency Sample.shop_store)
                      "dbo.Users" l "dbo.Products" →
                    (length (path_edges r) ≤ length l)%nat
           else ∀ l, ¬ walk (_build_adjacency Sample.shop_store)
                         "dbo.Users" l "dbo.Products".
Proof.
  split; [reflexivity|]. split; [reflexivity|].
  exact (built_graph_route_has_fewest_joins Sample.shop "2024-01-01T00:00:00"
           empty_storage "users" "products" "dbo.Users" "dbo.Products"
           eq_refl eq_refl).
Defined.

(** ** Routes through several tables *)

Lemma multi_loop_stitched (eng : QueryEngine) (resolved : list string)
    (n i : nat) (fp : list string) (fe : list Edge) (tot : Z)
    (r : PathResult) :
  is_Some (resolved !! i) →
  multi_loop eng resolved n i fp fe tot = Ok r → found r = true →
  ∃ segs, stitched eng (take (S n) (drop i resolved)) segs
          ∧ path r = fp ++ concat ((λ s, tail (path s)) <$> segs)
          ∧ path_edges r = fe ++ concat (path_edges <$> segs)
          ∧ total_weight r
            = tot + foldr (λ s acc, total_weight s + acc) 0 segs.
Proof.
  revert i fp fe tot.
  induction n as [|n IH]; intros i fp fe tot [a Ha]; simpl multi_loop.
  - destruct (_explain_path fp fe) as [expl| |]; [|done..].
    rewrite bind_Ok. intros [= <-] _. exists []. simpl.
    rewrite (drop_S _ _ _ Ha), !app_nil_r, Z.add_0_r. done.
  - rewrite Ha. destruct (resolved !! S i) as [b|] eqn:Hb; [|done].
    destruct (find_path eng a b) as [s| |] eqn:Hfp; [|done..].
    rewrite bind_Ok. destruct (found s) eqn:Hfound; simpl negb; cbv iota.
    2:{ by intros [= <-]. }
    intros Hloop Hr.
    destruct (IH (S i) _ _ _ (ex_intro _ b Hb) Hloop Hr)
      as (segs & Hst & Hp & He & Hw).
    exists (s :: segs).
    rewrite (drop_S _ _ _ Ha), (drop_S _ _ _ Hb).
    rewrite (drop_S _ _ _ Hb) in Hst.
    split_and!.
    + simpl. simpl in Hst. done.
    + rewrite Hp. simpl. by rewrite app_assoc.
    + rewrite He. simpl. by rewrite app_assoc.
    + rewrite Hw. simpl. lia.
Qed.

Lemma resolved_all_some (st : GraphStorage) (ts : list string)
    (rs : list (option string)) :
  resolve_all st ts = Ok rs →
  forallb (λ r, negb (falsy r)) rs = true →
  Forall2 (λ t x, _resolve_table_name st t = Ok (Some x)) ts
    (default "" <$> rs).
Proof.
  intros Hall%resolve_all_spec Hok.
  induction Hall as [|t r ts rs Hr _ IH]; [constructor|].
  simpl in Hok. apply andb_prop in Hok as [Hr' Hok].
  rewrite fmap_cons. constructor; [|by apply IH].
  destruct r as [x|]; [done|]. done.
Qed.

(** X21. A route that [find_multi_path] finds is the routes of [find_path]
    laid end to end: each requested name resolves, [find_path] finds a
    route from each resolved table to the next, and the path, the edge
    list and the weight of the result are those of these routes put
    together, the table where two of them meet being listed once. *)
Theorem multi_route_is_the_pairwise_routes (eng : QueryEngine)
    (ts : list string) (r : PathResult) :
  find_multi_path eng ts = Ok r → found r = true →
  ∃ rs segs,
    Forall2 (λ t x, _resolve_table_name (storage eng) t = Ok (Some x)) ts rs
    ∧ stitched eng rs segs
    ∧ path r = take 1 rs ++ concat ((λ s, tail (path s)) <$> segs)
    ∧ path_edges r = concat (path_edges <$> segs)
    ∧ total_weight r = foldr (λ s acc, total_weight s + acc) 0 segs.
Proof.
  unfold find_multi_path.
  destruct (length ts <? 2)%nat eqn:Hlen; [by intros [= <-]|].
  destruct (resolve_all (storage eng) ts) as [resolved| |] eqn:Hres; [|done..].
  rewrite bind_Ok.
  destruct (forallb (λ r, negb (falsy r)) resolved) eqn:Hok; simpl negb;
    cbv iota; [|by intros [= <-]].
  pose proof (resolved_all_some _ _ _ Hres Hok) as Hall.
  destruct (default "" <$> resolved) as [|first rest] eqn:Hrs; [done|].
  intros Hloop Hfound.
  destruct (multi_loop_stitched eng (first :: rest)
              (length (first :: rest) - 1) 0 [first] [] 0 r)
    as (segs & Hst & Hp & He & Hw); [by eexists|done|done|].
  exists (first :: rest), segs. split_and!; [done| |done..].
  rewrite drop_0 in Hst.
  replace (S (length (first :: rest) - 1)) with (length (first :: rest)) in Hst
    by (simpl; lia).
  by rewrite firstn_all in Hst.
Qed.

Lemma multi_route_is_the_pairwise_routes_witness :
  ∃ r, find_multi_path Sample.shop_engine ["users"; "orders"; "products"] = Ok r
       ∧ found r = true
       ∧ ∃ rs segs,
           Forall2 (λ t x, _resolve_table_name (storage Sample.shop_engine) t
                           = Ok (Some x))
             ["users"; "orders"; "products"] rs
           ∧ stitched Sample.shop_engine rs segs
           ∧ path r = take 1 rs ++ concat ((λ s, tail (path s)) <$> segs)
           ∧ path_edges r = concat (path_edges <$> segs)
           ∧ total_weight r = foldr (λ s acc, total_weight s + acc) 0 segs.
Proof.
  destruct (find_multi_path Sample.shop_engine ["users"; "orders"; "products"])
    as [r| |] eqn:H; [|vm_compute in H; discriminate H..].
  assert (found r = true) as Hf.
  { vm_compute in H. injection H as <-. reflexivity. }
  exists r. split; [reflexivity|]. split; [exact Hf|].
  exact (multi_route_is_the_pairwise_routes Sample.shop_engine
           ["users"; "orders"; "products"] r H Hf).
Defined.

(** ** When a join is generated *)

Lemma generate_aliases_spec (ts : list string) (m : gmap string string) :
  _generate_aliases ts = Ok m →
  dom m = list_to_set ts
  ∧ ∀ t1 t2 a, m !! t1 = Some a → m !! t2 = Some a → t1 = t2.
Proof.
  unfold _generate_aliases.
  destruct (aliases_loop ts (∅, ∅)) as [st'| |] eqn:Hloop; [|done..].
  simpl. intros [= <-].
  destruct (aliases_loop_inv ts (∅, ∅) st') as [[_ Hinj] Hdom]; [|done|].
  { split; simpl; intros *; by rewrite ?lookup_empty. }
  split.
  - simpl in Hdom. by rewrite Hdom, dom_empty_L, union_empty_r_L.
  - intros t1 t2 a H1 H2. destruct (decide (t1 = t2)) as [|Hne]; [done|].
    by destruct (Hinj t1 t2 a a Hne H1 H2).
Qed.

Lemma generate_aliases_covers (ts : list string) (m : gmap string string)
    (t : string) :
  _generate_aliases ts = Ok m → t ∈ ts ↔ is_Some (m !! t).
Proof.
  intros [Hdom _]%generate_aliases_spec.
  rewrite <- elem_of_dom, Hdom, elem_of_list_to_set. done.
Qed.

(** X22. The clauses of a generated join follow the route: clause [k]
    joins table [k+1] of the result to table [k], and the aliases of all
    clauses come from one assignment that covers exactly the tables of the
    route and gives no alias to two of them, so that an alias names the
    same table wherever it occurs. *)
Theorem join_clauses_follow_the_route (eng : QueryEngine) (ts : list string)
    (select_all : bool) (r : JoinResult) :
  generate_join eng ts select_all = Ok r → success r = true →
  ∃ aliases : gmap string string,
    (∀ t, t ∈ jr_tables r ↔ is_Some (aliases !! t))
    ∧ (∀ t1 t2 a, aliases !! t1 = Some a → aliases !! t2 = Some a → t1 = t2)
    ∧ ∀ k j, joins r !! k = Some j →
        jr_tables r !! k = Some (ji_from_table j)
        ∧ jr_tables r !! S k = Some (ji_to_table j)
        ∧ aliases !! ji_from_table j = Some (ji_from_alias j)
        ∧ aliases !! ji_to_table j = Some (ji_to_alias j).
Proof.
  intros Hgen Hsucc.
  destruct (generate_join_success eng ts select_all r Hgen Hsucc)
    as (pr & aliases & sc & t0 & rest & a0 & js & _ & _ & Hal & _ & _ & _
        & Hjs & -> & -> & _).
  exists aliases. split_and!.
  - intros t. by apply generate_aliases_covers.
  - by apply generate_aliases_spec in Hal as [_ ?].
  - intros k j Hk.
    destruct (join_steps_spec _ _ _ _ _ Hjs) as (_ & _ & Hall).
    by destruct (Hall k j Hk) as (? & ? & ? & ? & _).
Qed.

Lemma join_clauses_follow_the_route_witness :
  ∃ r, generate_join Sample.shop_engine ["users"; "orderitems"] false = Ok r
       ∧ success r = true
       ∧ ∃ aliases : gmap string string,
           (∀ t, t ∈ jr_tables r ↔ is_Some (aliases !! t))
           ∧ (∀ t1 t2 a, aliases !! t1 = Some a → aliases !! t2 = Some a →
                         t1 = t2)
           ∧ ∀ k j, joins r !! k = Some j →
               jr_tables r !! k = Some (ji_from_table j)
               ∧ jr_tables r !! S k = Some (ji_to_table j)
               ∧ aliases !! ji_from_table j = Some (ji_from_alias j)
               ∧ aliases !! ji_to_table j = Some (ji_to_alias j).
Proof.
  destruct (generate_join Sample.shop_engine ["users"; "orderitems"] false)
    as [r| |] eqn:H; [|vm_compute in H; discriminate H..].
  assert (success r = true) as Hs.
  { vm_compute in H. injection H as <-. reflexivity. }
  exists r. split; [reflexivity|]. split; [exact Hs|].
  exact (join_clauses_follow_the_route Sample.shop_engine
           ["users"; "orderitems"] false r H Hs).
Defined.

Lemma select_parts_total (aliases : gmap string string) (p : list string) :
  (∀ t, t ∈ p → is_Some (aliases !! t)) →
  ∃ parts, select_parts aliases p = Ok parts.
Proof.
  induction p as [|t p IH]; intros Hal; simpl; [by eexists|].
  unfold alias_of. destruct (Hal t) as [a ->]; [apply list_elem_of_here|].
  rewrite bind_Ok. destruct IH as [parts ->]; [|by eexists].
  intros t' Ht'. by apply Hal, list_elem_of_further.
Qed.

Lemma join_steps_return (aliases : gmap string string) (p : list string)
    (i : nat) (es : list Edge) :
  (i + length es < length p)%nat →
  (∀ t, t ∈ p → is_Some (aliases !! t)) →
  Forall (λ e, (∃ l, columns_of e "from_columns" = Ok l)
               ∧ ∃ l, columns_of e "to_columns" = Ok l) es →
  ∃ js, join_steps aliases p i es = Ok js.
Proof.
  intros Hlen Hal Hcols. revert i Hlen.
  induction Hcols as [|edge es [[l1 H1] [l2 H2]] _ IH]; intros i Hlen; simpl;
    [by eexists|].
  simpl in Hlen. unfold join_step.
  destruct (lookup_lt_is_Some_2 p i) as [a Ha]; [lia|].
  destruct (lookup_lt_is_Some_2 p (S i)) as [b Hb]; [lia|].
  rewrite Ha, Hb.
  assert (∃ la lb,
            columns_of edge (if is_reverse edge then "to_columns"
                             else "from_columns") = Ok la
            ∧ columns_of edge (if is_reverse edge then "from_columns"
                               else "to_columns") = Ok lb)
    as (la & lb & -> & ->) by (destruct (is_reverse edge); eauto).
  rewrite !bind_Ok. unfold alias_of.
  destruct (Hal b) as [ab ->]; [by eapply list_elem_of_lookup_2|].
  destruct (Hal a) as [aa ->]; [by eapply list_elem_of_lookup_2|].
  rewrite !bind_Ok.
  destruct (IH (S i)) as [js ->]; [lia|by eexists].
Qed.

(** X23. A route that is found is always turned into a join when its
    tables can be given aliases and its edges carry column lists: if every
    table of the route has a non-empty short name and the [from_columns]
    and [to_columns] of every edge are lists (or absent), [generate_join]
    succeeds, and its result lists the tables of the route and one clause
    per edge. *)
Theorem found_route_yields_a_join (eng : QueryEngine) (ts : list string)
    (select_all : bool) (pr : PathResult) :
  store_wf (storage eng) →
  find_multi_path eng ts = Ok pr → found pr = true →
  Forall (λ t, short_name t ≠ "") (path pr) →
  Forall (λ e, (∃ l, columns_of e "from_columns" = Ok l)
               ∧ ∃ l, columns_of e "to_columns" = Ok l) (path_edges pr) →
  ∃ r, generate_join eng ts select_all = Ok r
       ∧ success r = true
       ∧ jr_tables r = path pr
       ∧ length (joins r) = length (path_edges pr).
Proof.
  intros Hwf Hmp Hfound Hnames Hcols.
  destruct (find_multi_path_found eng ts pr Hwf Hmp Hfound) as [Hchain _].
  pose proof (chain_length _ _ _ Hchain) as Hlen.
  assert ((length ts <? 2)%nat = false) as Hts.
  { destruct (length ts <? 2)%nat eqn:E; [|done].
    unfold find_multi_path in Hmp. rewrite E in Hmp.
    injection Hmp as <-. done. }
  destruct (aliases_loop_total (path pr) (∅, ∅)) as [_ Hok].
  destruct (Hok Hnames) as [st' Hloop].
  assert (_generate_aliases (path pr) = Ok st'.1) as Hal
    by (unfold _generate_aliases; by rewrite Hloop).
  assert (∀ t, t ∈ path pr → is_Some (st'.1 !! t)) as Hcov
    by (intros t; by apply generate_aliases_covers).
  destruct (select_parts_total _ _ Hcov) as [parts Hparts].
  destruct (join_steps_return st'.1 (path pr) 0 (path_edges pr))
    as [js Hjs]; [lia|done|done|].
  destruct (join_steps_spec _ _ _ _ _ Hjs) as (Hjlen & _).
  unfold generate_join. rewrite Hts, Hmp, bind_Ok, Hfound. simpl negb.
  cbv iota. rewrite Hal, bind_Ok.
  destruct (path pr) as [|t0 rest] eqn:Hp; [done|].
  destruct (Hcov t0) as [a0 Ha0]; [apply list_elem_of_here|].
  rewrite Hparts, Hjs. unfold alias_of. rewrite Ha0.
  destruct select_all; rewrite !bind_Ok; eexists; (split; [reflexivity|]);
    simpl; by rewrite length_fmap.
Qed.

Lemma found_route_yields_a_join_witness :
  store_wf (storage Sample.shop_engine)
  ∧ ∃ pr, find_multi_path Sample.shop_engine ["users"; "products"] = Ok pr
          ∧ found pr = true
          ∧ Forall (λ t, short_name t ≠ "") (path pr)
          ∧ Forall (λ e, (∃ l, columns_of e "from_columns" = Ok l)
                         ∧ ∃ l, columns_of e "to_columns" = Ok l)
              (path_edges pr)
          ∧ ∃ r, generate_join Sample.shop_engine ["users"; "products"] true
                 = Ok r
                 ∧ success r = true
                 ∧ jr_tables r = path pr
                 ∧ length (joins r) = length (path_edges pr).
Proof.
  assert (store_wf (storage Sample.shop_engine)) as Hwf.
  { unfold store_wf.
    split_and!; refine (bool_decide_unpack (NoDup _) _); vm_compute; exact I. }
  split; [exact Hwf|].
  destruct (find_multi_path Sample.shop_engine ["users"; "products"])
    as [pr| |] eqn:H; [|vm_compute in H; discriminate H..].
  assert (found pr = true) as Hf.
  { vm_compute in H. injection H as <-. reflexivity. }
  assert (Forall (λ t, short_name t ≠ "") (path pr)) as Hn.
  { vm_compute in H. injection H as <-. simpl.
    repeat (constructor; [by vm_compute|]). constructor. }
  assert (Forall (λ e, (∃ l, columns_of e "from_columns" = Ok l)
                       ∧ ∃ l, columns_of e "to_columns" = Ok l)
            (path_edges pr)) as Hc.
  { vm_compute in H. injection H as <-. simpl.
    repeat (constructor; [split; eexists; vm_compute; reflexivity|]).
    constructor. }
  exists pr. split; [reflexivity|]. split; [exact Hf|].
  split; [exact Hn|]. split; [exact Hc|].
  exact (found_route_yields_a_join Sample.shop_engine ["users"; "products"]
           true pr Hwf H Hf Hn Hc).
Defined.

Lemma alias_step_raises (table : string)
    (st : gmap string string * gset string) (e : exn) :
  alias_step table st = Raise e → e = IndexError.
Proof.
  destruct st as [aliases used]. unfold alias_step.
  destruct (short_name table) as [|c rest]; [by intros [= <-]|].
  pose proof (alias_loop_no_raise (String.length (String c rest) + size used + 1)
                (String c rest) (lower (String c "")) used 1
                (lower (String c ""))) as Hraise.
  destruct (alias_loop _ _ _ _ _ _) as [alias|e'|]; [done| |done].
  by destruct (Hraise e').
Qed.

Lemma aliases_loop_raises (ts : list string)
    (st : gmap string string * gset string) (t : string) :
  t ∈ ts → short_name t = "" → aliases_loop ts st = Raise IndexError.
Proof.
  intros Ht Hname. revert st.
  induction ts as [|t' ts IH]; intros st; [by apply elem_of_nil in Ht|].
  simpl. destruct (alias_step t' st) as [st1|e|] eqn:Hstep.
  - rewrite bind_Ok. apply elem_of_cons in Ht as [->|Ht]; [|by apply IH].
    destruct st as [aliases used]. unfold alias_step in Hstep.
    by rewrite Hname in Hstep.
  - by apply alias_step_raises in Hstep as ->.
  - by destruct (alias_step_total t' st) as [? _].
Qed.

(** X24. A table without a short name stops the join: when the route that
    [find_multi_path] finds passes through a table whose id ends in a dot
    or is empty, so that the part after the last dot has no first letter,
    [generate_join] raises [IndexError] instead of returning a result. *)
Theorem join_raises_without_a_short_name (eng : QueryEngine)
    (ts : list string) (select_all : bool) (pr : PathResult) (t : string) :
  find_multi_path eng ts = Ok pr → found pr = true →
  t ∈ path pr → short_name t = "" →
  generate_join eng ts select_all = Raise IndexError.
Proof.
  intros Hmp Hfound Ht Hname.
  assert ((length ts <? 2)%nat = false) as Hts.
  { destruct (length ts <? 2)%nat eqn:E; [|done].
    unfold find_multi_path in Hmp. rewrite E in Hmp.
    injection Hmp as <-. done. }
  unfold generate_join. rewrite Hts, Hmp, bind_Ok, Hfound. simpl negb.
  cbv iota. unfold _generate_aliases.
  by rewrite (aliases_loop_raises _ _ t).
Qed.

Lemma join_raises_without_a_short_name_witness :
  ∃ pr, find_multi_path (new_engine Sample.unnamed_store) ["dbo.A"; "dbo."]
        = Ok pr
        ∧ found pr = true
        ∧ "dbo." ∈ path pr
        ∧ short_name "dbo." = ""
        ∧ generate_join (new_engine Sample.unnamed_store) ["dbo.A"; "dbo."] true
          = Raise IndexError.
Proof.
  destruct (find_multi_path (new_engine Sample.unnamed_store) ["dbo.A"; "dbo."])
    as [pr| |] eqn:H; [|vm_compute in H; discriminate H..].
  assert (found pr = true) as Hf.
  { vm_compute in H. injection H as <-. reflexivity. }
  assert ("dbo." ∈ path pr) as Ht.
  { vm_compute in H. injection H as <-. simpl.
    apply list_elem_of_further, list_elem_of_here. }
  exists pr. split; [reflexivity|]. split; [exact Hf|].
  split; [exact Ht|]. split; [reflexivity|].
  exact (join_raises_without_a_short_name (new_engine Sample.unnamed_store)
           ["dbo.A"; "dbo."] true pr "dbo." H Hf Ht eq_refl).
Defined.

(** ** Listings *)

Section sorting.
Context {A K : Type} (lt : K → K → bool) (key : A → K).
Context (lt_irrefl : ∀ a, lt a a = false).
Context (lt_asym : ∀ a b, lt a b = true → lt b a = false).
Context (le_trans : ∀ a b c, lt b a = false → lt c b = false → lt c a = false).

Lemma insert_by_Permutation (x : A) (l : list A) :
  insert_by lt key x l ≡ₚ x :: l.
Proof.
  induction l as [|y l IH]; [done|]. simpl.
  destruct (lt (key y) (key x)); [|done].
  rewrite IH. apply Permutation_swap.
Qed.

Lemma sorted_Permutation (l : list A) : sorted lt key l ≡ₚ l.
Proof.
  induction l as [|x l IH]; [done|].
  change (sorted lt key (x :: l)) with (insert_by lt key x (sorted lt key l)).
  by rewrite insert_by_Permutation, IH.
Qed.

Lemma insert_by_sorted (x : A) (l : list A) :
  StronglySorted (λ a b, lt (key b) (key a) = false) l →
  StronglySorted (λ a b, lt (key b) (key a) = false) (insert_by lt key x l).
Proof.
  induction 1 as [|y l Hl IH Hy]; simpl.
  - constructor; [constructor|constructor].
  - destruct (lt (key y) (key x)) eqn:Hyx.
    + constructor; [done|].
      rewrite insert_by_Permutation. constructor; [by apply lt_asym|done].
    + constructor; [by constructor|]. constructor; [done|].
      eapply Forall_impl; [exact Hy|]. intros z Hz. simpl in Hz.
      by apply le_trans with (key y).
Qed.

Lemma sorted_sorted (l : list A) :
  StronglySorted (λ a b, lt (key b) (key a) = false) (sorted lt key l).
Proof.
  induction l as [|x l IH]; [constructor|].
  by apply insert_by_sorted.
Qed.

(** The sort is stable: the elements with a given key stay in the order in
    which they came. *)
Lemma insert_by_stable `{EqDecision K} (k : K) (x : A) (l : list A) :
  filter (λ y, key y = k) (insert_by lt key x l)
  = filter (λ y, key y = k) (x :: l).
Proof.
  induction l as [|y l IH]; [done|]. simpl.
  destruct (lt (key y) (key x)) eqn:Hyx; [|done].
  rewrite filter_cons, IH, !filter_cons.
  destruct (decide (key y = k)) as [Hy|Hy]; [|done].
  destruct (decide (key x = k)) as [Hx|Hx]; [|done].
  rewrite Hy, Hx, lt_irrefl in Hyx. done.
Qed.

Lemma sorted_stable `{EqDecision K} (k : K) (l : list A) :
  filter (λ y, key y = k) (sorted lt key l) = filter (λ y, key y = k) l.
Proof.
  induction l as [|x l IH]; [done|].
  change (sorted lt key (x :: l)) with (insert_by lt key x (sorted lt key l)).
  by rewrite insert_by_stable, !filter_cons, IH.
Qed.

End sorting.

Lemma ltb_false_le (a b : string) : String.ltb b a = false ↔ String.le a b.
Proof.
  unfold String.le, String.leb, String.ltb.
  rewrite (String.compare_antisym b a).
  by destruct (String.compare a b).
Qed.

Lemma ltb_irrefl (a : string) : String.ltb a a = false.
Proof. apply ltb_false_le. done. Qed.

Lemma ltb_asym (a b : string) : String.ltb a b = true → String.ltb b a = false.
Proof.
  unfold String.ltb. rewrite (String.compare_antisym b a).
  by destruct (String.compare a b).
Qed.

Lemma ltb_le_trans (a b c : string) :
  String.ltb b a = false → String.ltb c b = false → String.ltb c a = false.
Proof.
  rewrite !ltb_false_le. intros H1 H2. by etrans.
Qed.

Lemma pair_lt_false (a b : string * string) :
  pair_lt b a = false
  ↔ (a.1 = b.1 ∧ String.le a.2 b.2) ∨ (a.1 ≠ b.1 ∧ String.le a.1 b.1).
Proof.
  unfold pair_lt. destruct (String.eqb_spec b.1 a.1) as [Heq|Hne].
  - rewrite ltb_false_le. split; [by left|]. by intros [[_ ?]|[? _]].
  - rewrite ltb_false_le. split; [by right|]. intros [[? _]|[_ ?]]; [|done].
    by destruct Hne.
Qed.

Lemma pair_lt_irrefl (a : string * string) : pair_lt a a = false.
Proof. apply pair_lt_false. left. done. Qed.

Lemma pair_lt_asym (a b : string * string) :
  pair_lt a b = true → pair_lt b a = false.
Proof.
  unfold pair_lt. rewrite (String.eqb_sym b.1 a.1).
  destruct (String.eqb a.1 b.1); apply ltb_asym.
Qed.

Lemma pair_le_trans (a b c : string * string) :
  pair_lt b a = false → pair_lt c b = false → pair_lt c a = false.
Proof.
  rewrite !pair_lt_false.
  intros [[Hab Hab2]|[Hab Hab1]] [[Hbc Hbc2]|[Hbc Hbc1]].
  - left. split; [congruence|by etrans].
  - right. rewrite Hab. done.
  - right. rewrite <- Hbc. done.
  - right. split; [|by etrans].
    intros Hac. apply Hab. apply (anti_symm String.le); [done|].
    by rewrite Hac.
Qed.

(** X25. [list_tables] lists every table node of the store once, as its
    summary, in ascending order of the ids: no entry has a smaller name
    than an entry before it, and in a store with unique ids no name
    occurs twice. *)
Theorem list_tables_is_sorted_by_name (eng : QueryEngine) :
  list_tables eng
    ≡ₚ table_summary <$> get_nodes_by_type "table" (storage eng)
  ∧ StronglySorted (λ a b, String.ltb (ts_name b) (ts_name a) = false)
      (list_tables eng)
  ∧ (store_wf (storage eng) → NoDup (ts_name <$> list_tables eng)).
Proof.
  unfold list_tables. split_and!.
  - by rewrite sorted_Permutation.
  - pose proof (sorted_sorted String.ltb node_id ltb_asym ltb_le_trans
                  (get_nodes_by_type "table" (storage eng))) as Hs.
    induction Hs as [|n l _ IH Hn]; [constructor|].
    rewrite fmap_cons. constructor; [done|]. by apply Forall_fmap.
  - intros (Hnd & _ & _). rewrite <- list_fmap_compose.
    change (ts_name ∘ table_summary) with node_id.
    rewrite sorted_Permutation. unfold get_nodes_by_type.
    apply (NoDup_fmap_2_strong node_id).
    + intros x y Hx%list_elem_of_In%filter_In Hy%list_elem_of_In%filter_In.
      apply (NoDup_fmap_inj_on node_id (nodes (storage eng)));
        [done|apply list_elem_of_In; tauto..].
    + apply NoDup_ListNoDup, List.NoDup_filter, NoDup_ListNoDup.
      by apply NoDup_fmap_1 in Hnd.
Qed.

(** X26. [list_relationships] lists every [fk] edge of the store once, as
    its summary, ordered by source table and then by target table; the
    sort is stable, so the relationships between one pair of tables keep
    the order in which the store holds them. *)
Theorem list_relationships_is_sorted_and_stable (eng : QueryEngine) :
  list_relationships eng
    ≡ₚ relationship_summary <$> get_edges_by_type "fk" (storage eng)
  ∧ StronglySorted
      (λ a b, pair_lt (rs_from_table b, rs_to_table b)
                (rs_from_table a, rs_to_table a) = false)
      (list_relationships eng)
  ∧ ∀ f t,
      filter (λ s, (rs_from_table s, rs_to_table s) = (f, t))
        (list_relationships eng)
      = relationship_summary
          <$> filter (λ e, (from_id e, to_id e) = (f, t))
                (get_edges_by_type "fk" (storage eng)).
Proof.
  unfold list_relationships. split_and!.
  - by rewrite sorted_Permutation.
  - pose proof (sorted_sorted pair_lt (λ e, (from_id e, to_id e))
                  pair_lt_asym pair_le_trans
                  (get_edges_by_type "fk" (storage eng))) as Hs.
    induction Hs as [|e l _ IH He]; [constructor|].
    rewrite fmap_cons. constructor; [done|]. by apply Forall_fmap.
  - intros f t.
    rewrite <- (sorted_stable pair_lt (λ e, (from_id e, to_id e))
                  pair_lt_irrefl (f, t)).
    induction (sorted pair_lt _ _) as [|e l IH]; [done|].
    rewrite fmap_cons, !filter_cons. simpl.
    destruct (decide ((from_id e, to_id e) = (f, t))); by rewrite IH.
Qed.

(** X27. The listings and the statistics count the same rows:
    [list_tables] has as many entries as [get_stats] counts tables, and
    [list_relationships] as many as it counts foreign keys. *)
Theorem listings_agree_with_get_stats (eng : QueryEngine) :
  length (list_tables eng) = stats_tables (get_stats (storage eng))
  ∧ length (list_relationships eng)
    = stats_foreign_keys (get_stats (storage eng)).
Proof.
  unfold list_tables, list_relationships. rewrite !length_fmap.
  split; by rewrite sorted_Permutation.
Qed.

(** ** Names that do not resolve *)

Lemma missing_names (st : GraphStorage) (ts : list string)
    (rs : list (option string)) :
  Forall2 (λ t r, _resolve_table_name st t = Ok r) ts rs →
  fst <$> List.filter (λ tr : string * option string, falsy tr.2) (zip ts rs)
  = List.filter
      (λ t, match _resolve_table_name st t with
            | Ok r => falsy r
            | _ => false
            end) ts.
Proof.
  induction 1 as [|t r ts rs Hr _ IH]; [done|].
  change (zip (t :: ts) (r :: rs)) with ((t, r) :: zip ts rs).
  cbn [List.filter snd]. rewrite Hr. cbv beta iota.
  destruct (falsy r); [rewrite fmap_cons; cbn [fst]|]; by rewrite IH.
Qed.

(** X28. When one of the names given to [find_multi_path] does not
    resolve, no search is run: the result is not found, has no path, and
    its explanation lists the names that did not resolve, in the order in
    which they were given. *)
Theorem missing_tables_are_reported (eng : QueryEngine) (ts : list string)
    (rs : list (option string)) :
  (2 ≤ length ts)%nat →
  resolve_all (storage eng) ts = Ok rs →
  Exists (λ r, falsy r = true) rs →
  find_multi_path eng ts
  = Ok (not_found
          ("Tables not found: "
           +:+ join ", "
                 (List.filter
                    (λ t, match _resolve_table_name (storage eng) t with
                          | Ok r => falsy r
                          | _ => false
                          end) ts))).
Proof.
  intros Hlen Hres Hex. unfold find_multi_path.
  destruct (Nat.ltb_spec (length ts) 2) as [?|_]; [lia|].
  rewrite Hres, bind_Ok.
  assert (forallb (λ r, negb (falsy r)) rs = false) as ->.
  { clear Hres. induction Hex as [r rs Hr|r rs _ IH]; simpl.
    - by rewrite Hr.
    - rewrite IH. apply andb_false_r. }
  simpl negb. cbv iota.
  by rewrite (missing_names _ _ _ (resolve_all_spec _ _ _ Hres)).
Qed.

Lemma missing_tables_are_reported_witness :
  (2 ≤ length ["users"; "nowhere"; "orders"; "nothing"])%nat
  ∧ resolve_all (storage Sample.shop_engine)
      ["users"; "nowhere"; "orders"; "nothing"]
    = Ok [Some "dbo.Users"; None; Some "dbo.Orders"; None]
  ∧ Exists (λ r, falsy r = true)
      [Some "dbo.Users"; None; Some "dbo.Orders"; None]
  ∧ find_multi_path Sample.shop_engine
      ["users"; "nowhere"; "orders"; "nothing"]
    = Ok (not_found
            ("Tables not found: "
             +:+ join ", "
                   (List.filter
                      (λ t, match _resolve_table_name
                                    (storage Sample.shop_engine) t with
                            | Ok r => falsy r
                            | _ => false
                            end)
                      ["users"; "nowhere"; "orders"; "nothing"]))).
Proof.
  assert (2 ≤ length ["users"; "nowhere"; "orders"; "nothing"])%nat as H1
    by (simpl; lia).
  assert (Exists (λ r, falsy r = true)
            [Some "dbo.Users"; None; Some "dbo.Orders"; None]) as H3
    by (apply Exists_cons_tl, Exists_cons_hd; reflexivity).
  split; [exact H1|]. split; [reflexivity|]. split; [exact H3|].
  exact (missing_tables_are_reported Sample.shop_engine
           ["users"; "nowhere"; "orders"; "nothing"]
           [Some "dbo.Users"; None; Some "dbo.Orders"; None] H1 eq_refl H3).
Defined.

(** ** The letters of an alias *)

Lemma alias_candidate_head (c : ascii) (rest : string) (k : nat) :
  (1 ≤ k)%nat →
  ∃ tail, alias_candidate (String c rest) (lower (String c "")) k
          = String (lower_ascii c) tail.
Proof.
  intros Hk. unfold alias_candidate.
  destruct (k <=? String.length (String c rest))%nat.
  - destruct k as [|k]; [lia|]. simpl. by eexists.
  - simpl lower. rewrite app_cons. by eexists.
Qed.

Lemma alias_loop_head (fuel : nat) (c : ascii) (rest : string)
    (used : gset string) (counter : nat) (alias a : string) :
  (∃ tail, alias = String (lower_ascii c) tail) →
  alias_loop fuel (String c rest) (lower (String c "")) used counter alias
  = Ok a →
  ∃ tail, a = String (lower_ascii c) tail.
Proof.
  revert counter alias.
  induction fuel as [|fuel IH]; intros counter alias Halias; simpl.
  - case_decide; [done|]. by intros [= <-].
  - case_decide; [|by intros [= <-]].
    apply IH. apply alias_candidate_head. lia.
Qed.

Lemma alias_step_shape (table : string)
    (st st' : gmap string string * gset string) :
  alias_step table st = Ok st' →
  ∃ c rest tail,
    short_name table = String c rest
    ∧ st'.1 = <[table := String (lower_ascii c) tail]> st.1
    ∧ (String (lower_ascii c) "" ∉ st.2 → tail = "").
Proof.
  destruct st as [aliases used]. unfold alias_step.
  destruct (short_name table) as [|c rest] eqn:Hname; [done|].
  destruct (alias_loop _ _ _ _ _ _) as [alias| |] eqn:Hloop; [|done..].
  rewrite bind_Ok. intros [= <-].
  destruct (alias_loop_head _ _ _ _ _ _ _ (ex_intro _ "" eq_refl) Hloop)
    as [tail ->].
  exists c, rest, tail. split_and!; [done..|]. simpl. intros Hfree.
  destruct (String.length (String c rest) + size used + 1)%nat;
    simpl in Hloop; rewrite decide_False in Hloop by done;
    by injection Hloop as <-.
Qed.

Lemma aliases_loop_head (ts : list string)
    (st st' : gmap string string * gset string) :
  (∀ t a, st.1 !! t = Some a →
     ∃ c rest tail, short_name t = String c rest
                    ∧ a = String (lower_ascii c) tail) →
  aliases_loop ts st = Ok st' →
  ∀ t a, st'.1 !! t = Some a →
    ∃ c rest tail, short_name t = String c rest
                   ∧ a = String (lower_ascii c) tail.
Proof.
  revert st. induction ts as [|t' ts IH]; intros st Hst; simpl.
  - by intros [= <-].
  - destruct (alias_step t' st) as [st1| |] eqn:Hstep; [|done..].
    rewrite bind_Ok. apply IH.
    destruct (alias_step_shape _ _ _ Hstep) as (c & rest & tail & Hn & -> & _).
    intros t a. rewrite lookup_insert. case_decide as Ht.
    + subst t'. intros [= <-]. by exists c, rest, tail.
    + apply Hst.
Qed.

Lemma aliases_loop_frame (ts : list string)
    (st st' : gmap string string * gset string) (t : string) :
  aliases_loop ts st = Ok st' → t ∉ ts → st'.1 !! t = st.1 !! t.
Proof.
  revert st. induction ts as [|t' ts IH]; intros st; simpl.
  - by intros [= <-].
  - destruct (alias_step t' st) as [st1| |] eqn:Hstep; [|done..].
    rewrite bind_Ok. intros Hloop [Hne Hnin]%not_elem_of_cons.
    rewrite (IH _ Hloop Hnin).
    destruct (alias_step_shape _ _ _ Hstep) as (c & rest & tail & _ & -> & _).
    by rewrite lookup_insert_ne.
Qed.

(** X29. An alias starts with the first letter of the short name of its
    table, in lower case; the first table of the list, when the list does
    not name it again, gets that letter alone. *)
Theorem aliases_start_with_the_initial (ts : list string)
    (m : gmap string string) :
  _generate_aliases ts = Ok m →
  (∀ t a, m !! t = Some a →
     ∃ c rest tail, short_name t = String c rest
                    ∧ a = String (lower_ascii c) tail)
  ∧ ∀ t ts', ts = t :: ts' → t ∉ ts' →
      ∃ c rest, short_name t = String c rest
                ∧ m !! t = Some (String (lower_ascii c) "").
Proof.
  unfold _generate_aliases.
  destruct (aliases_loop ts (∅, ∅)) as [st'| |] eqn:Hloop; [|done..].
  rewrite bind_Ok. intros [= <-]. split.
  - apply (aliases_loop_head ts (∅, ∅)); [|done].
    intros t a. simpl. by rewrite lookup_empty.
  - intros t ts' -> Hnin. cbn [aliases_loop] in Hloop.
    destruct (alias_step t (∅, ∅)) as [st1| |] eqn:Hstep; [|done..].
    rewrite bind_Ok in Hloop.
    destruct (alias_step_shape _ _ _ Hstep)
      as (c & rest & tail & Hn & Hst1 & Htail).
    rewrite (Htail (not_elem_of_empty _)) in Hst1.
    exists c, rest. split; [done|].
    rewrite (aliases_loop_frame _ _ _ _ Hloop Hnin), Hst1.
    apply lookup_insert_eq.
Qed.

Lemma aliases_start_with_the_initial_witness :
  ∃ m, _generate_aliases ["dbo.Orders"; "dbo.OrderItems"] = Ok m
       ∧ (∀ t a, m !! t = Some a →
            ∃ c rest tail, short_name t = String c rest
                           ∧ a = String (lower_ascii c) tail)
       ∧ ∀ t ts', ["dbo.Orders"; "dbo.OrderItems"] = t :: ts' → t ∉ ts' →
           ∃ c rest, short_name t = String c rest
                     ∧ m !! t = Some (String (lower_ascii c) "").
Proof.
  destruct (_generate_aliases ["dbo.Orders"; "dbo.OrderItems"])
    as [m| |] eqn:H; [|vm_compute in H; discriminate H..].
  exists m. split; [reflexivity|].
  exact (aliases_start_with_the_initial ["dbo.Orders"; "dbo.OrderItems"] m H).
Defined.

(** ** From a foreign key to a join of two tables *)

Lemma built_fk_entry (md : RawMetadata) (now : string) (st : GraphStorage)
    (fk : ForeignKeyInfo) :
  NoDup (constraint_name <$> foreign_keys md) →
  fk ∈ foreign_keys md →
  ∃ e, (to_full_name fk, e)
         ∈ adj_get (_build_adjacency (build md true now st).2)
             (from_full_name fk)
       ∧ (from_full_name fk, reverse_edge e)
           ∈ adj_get (_build_adjacency (build md true now st).2)
               (to_full_name fk).
Proof.
  intros Hnd Hfk.
  destruct (create_fk_edges_loop_spec (foreign_keys md) ∅ [])
    as (kept & Heq & _ & _ & Hall & _).
  destruct (proj1 (list_elem_of_fmap _ _ _)
              (Hall fk Hfk (not_elem_of_empty _))) as (fk' & Hkey & Hfk').
  injection Hkey as Hfrom Hto.
  assert (fk_edge fk' ∈ edges (build md true now st).2) as Hin.
  { rewrite (built_edges_unique_names md now st Hnd).
    apply elem_of_app. left. unfold _create_fk_edges. rewrite Heq. simpl.
    by apply list_elem_of_fmap_2. }
  exists (fk_edge fk'). split.
  - apply build_adjacency_entries. exists (fk_edge fk').
    split_and!; [done..|]. left. by rewrite Hfrom, Hto.
  - apply build_adjacency_entries. exists (fk_edge fk').
    split_and!; [done..|]. right. by rewrite Hfrom, Hto.
Qed.

Lemma one_step_route (adj : gmap string (list (string * Edge)))
    (a b : string) (r : PathResult) :
  a ≠ b → valid_route adj a b r → (length (path_edges r) ≤ 1)%nat →
  path r = [a; b] ∧ length (path_edges r) = 1%nat.
Proof.
  intros Hab (Hchain & Hhead & Hlast & _) Hlen.
  pose proof (chain_length _ _ _ Hchain) as Hp.
  destruct (path r) as [|x [|y [|z p]]]; simpl in *; try lia.
  - congruence.
  - injection Hhead as ->. injection Hlast as ->. split; [done|lia].
Qed.

(** X30. Two tables that a foreign key relates are joined directly: on a
    graph just built from a snapshot whose constraint names are distinct,
    if both ends of a foreign key between two different tables resolve to
    themselves, [find_path] returns the route of one edge from the
    referencing to the referenced table, and likewise the route of one
    edge back. *)
Theorem related_tables_are_joined_directly (md : RawMetadata) (now : string)
    (st : GraphStorage) (fk : ForeignKeyInfo) :
  NoDup (constraint_name <$> foreign_keys md) →
  fk ∈ foreign_keys md →
  from_full_name fk ≠ to_full_name fk →
  _resolve_table_name (build md true now st).2 (from_full_name fk)
  = Ok (Some (from_full_name fk)) →
  _resolve_table_name (build md true now st).2 (to_full_name fk)
  = Ok (Some (to_full_name fk)) →
  (∃ r, find_path (new_engine (build md true now st).2)
          (from_full_name fk) (to_full_name fk) = Ok r
        ∧ found r = true ∧ total_weight r = 1
        ∧ path r = [from_full_name fk; to_full_name fk])
  ∧ (∃ r, find_path (new_engine (build md true now st).2)
            (to_full_name fk) (from_full_name fk) = Ok r
          ∧ found r = true ∧ total_weight r = 1
          ∧ path r = [to_full_name fk; from_full_name fk]).
Proof.
  intros Hnd Hfk Hne Hfrom Hto.
  destruct (built_fk_entry md now st fk Hnd Hfk) as (e & Hfw & Hbw).
  assert (∀ a b e',
            a ≠ b →
            _resolve_table_name (build md true now st).2 a = Ok (Some a) →
            _resolve_table_name (build md true now st).2 b = Ok (Some b) →
            (b, e') ∈ adj_get (_build_adjacency (build md true now st).2) a →
            ∃ r, find_path (new_engine (build md true now st).2) a b = Ok r
                 ∧ found r = true ∧ total_weight r = 1
                 ∧ path r = [a; b]) as Hone.
  { intros a b e' Hab Ha Hb He'.
    pose proof (built_resolved_nonempty md now st a a Ha) as Hna.
    pose proof (built_resolved_nonempty md now st b b Hb) as Hnb.
    pose proof (built_unit_weights md now st) as Hu.
    assert (nonneg_weights (_build_adjacency (build md true now st).2))
      as Hnn.
    { intros u v e0 He0. rewrite (Hu _ _ _ He0). lia. }
    destruct (find_path_shortest (new_engine (build md true now st).2)
                a b a b Hnn Ha Hb Hna Hnb Hab) as (r & Hr & Hcase).
    assert (walk (_build_adjacency (build md true now st).2) a [(b, e')] b)
      as Hwalk by (econstructor; [done|constructor]).
    exists r. split; [done|].
    destruct (found r) eqn:Hfound; [|by destruct Hcase as [_ Hnone];
                                      destruct (Hnone _ Hwalk)].
    destruct Hcase as [_ Hmin].
    destruct (find_path_found _ a b r Hr Hfound)
      as (a' & b' & Ha' & Hb' & Hroute).
    simpl in Ha', Hb'. rewrite Ha in Ha'. rewrite Hb in Hb'.
    injection Ha' as <-. injection Hb' as <-.
    pose proof Hroute as (Hchain & _ & _ & Hw).
    pose proof (chain_unit_weight _ _ _ Hu Hchain) as Hlen.
    pose proof (Hmin _ Hwalk) as Hle.
    rewrite (walk_unit_weight _ _ _ _ Hu Hwalk), Hw, Hlen in Hle.
    destruct (one_step_route _ a b r Hab Hroute) as [Hp Hl];
      [simpl in Hle; lia|].
    split_and!; [done| |done]. rewrite Hw, Hlen, Hl. done. }
  split.
  - by apply (Hone _ _ e).
  - by apply (Hone _ _ (reverse_edge e)).
Qed.

Lemma related_tables_are_joined_directly_witness :
  NoDup (constraint_name <$> foreign_keys Sample.shop)
  ∧ Sample.orders_users ∈ foreign_keys Sample.shop
  ∧ from_full_name Sample.orders_users ≠ to_full_name Sample.orders_users
  ∧ _resolve_table_name Sample.shop_store (from_full_name Sample.orders_users)
    = Ok (Some (from_full_name Sample.orders_users))
  ∧ _resolve_table_name Sample.shop_store (to_full_name Sample.orders_users)
    = Ok (Some (to_full_name Sample.orders_users))
  ∧ (∃ r, find_path (new_engine Sample.shop_store)
            (from_full_name Sample.orders_users)
            (to_full_name Sample.orders_users) = Ok r
          ∧ found r = true ∧ total_weight r = 1
          ∧ path r = [from_full_name Sample.orders_users;
                      to_full_name Sample.orders_users])
  ∧ (∃ r, find_path (new_engine Sample.shop_store)
            (to_full_name Sample.orders_users)
            (from_full_name Sample.orders_users) = Ok r
          ∧ found r = true ∧ total_weight r = 1
          ∧ path r = [to_full_name Sample.orders_users;
                      from_full_name Sample.orders_users]).
Proof.
  assert (NoDup (constraint_name <$> foreign_keys Sample.shop)) as H1
    by (refine (bool_decide_unpack (NoDup _) _); vm_compute; exact I).
  assert (Sample.orders_users ∈ foreign_keys Sample.shop) as H2
    by (vm_compute; repeat constructor).
  assert (from_full_name Sample.orders_users
          ≠ to_full_name Sample.orders_users) as H3
    by (vm_compute; discriminate).
  split; [exact H1|]. split; [exact H2|]. split; [exact H3|].
  split; [reflexivity|]. split; [reflexivity|].
  exact (related_tables_are_joined_directly Sample.shop "2024-01-01T00:00:00"
           empty_storage Sample.orders_users H1 H2 H3 eq_refl eq_refl).
Defined.
